(** * joi: object and string schema types

    A shallow embedding of [lib/types/object.js] (key composition, the
    [_base] validation walk, the rename engine, the dependency evaluators)
    and of the coercion and of the rules [length], [alphanum], [token],
    [hex], [creditCard] and [regex] of [lib/types/string/index.js].

    Conventions of the embedding.
    - A JavaScript object is the list of its own enumerable properties in
      enumeration order ([Object.keys]); of the inherited properties only
      the names of the members of [Object.prototype] are represented, for
      the lookups of [_rename] in its record of written targets; a new key
      is appended at the end of the list (the reordering of integer-like
      keys is not represented).
    - A JavaScript string is a [string]; one [ascii] stands for one code
      unit.
    - An exception is a value of type [Thrown] on the left of a sum.
    - Collaborators whose source lies outside these files (leaf validators,
      [Hoek.reach], [Cast.schema], string built-ins) are section variables
      or record fields holding functions. *)

From Stdlib Require Import List String Ascii Bool Arith ZArith Lia Permutation.
Import ListNotations.
Local Open Scope string_scope.
Local Open Scope list_scope.

Set Implicit Arguments.
Set Warnings "-register-all".

(** ** JavaScript values *)

Inductive Value : Type :=
  | VUndefined
  | VNull
  | VBool (b : bool)
  | VNumber (z : Z)
  | VString (s : string)
  | VArray (items : list Value)
  | VObject (props : list (string * Value))
  | VFunction (props : list (string * Value)).

Definition Props := list (string * Value).

(** [v === undefined] *)
Definition is_undefined (v : Value) : bool :=
  match v with VUndefined => true | _ => false end.

(** [typeof v === 'function'] *)
Definition is_function (v : Value) : bool :=
  match v with VFunction _ => true | _ => false end.

(** ** Own properties *)

Module Obj.
Section Obj.
Variable A : Type.

(** [Object.keys(o)] *)
Definition keys (o : list (string * A)) : list string := map fst o.

(** own-property lookup *)
Fixpoint lookup (o : list (string * A)) (k : string) : option A :=
  match o with
  | [] => None
  | (k', v) :: o' => if String.eqb k' k then Some v else lookup o' k
  end.

(** [Object.prototype.hasOwnProperty.call(o, k)] *)
Definition hasOwn (o : list (string * A)) (k : string) : bool :=
  match lookup o k with Some _ => true | None => false end.

(** [o[k] = v]: in place when the key exists, appended otherwise *)
Fixpoint set (o : list (string * A)) (k : string) (v : A) : list (string * A) :=
  match o with
  | [] => [(k, v)]
  | (k', v') :: o' =>
      if String.eqb k' k then (k', v) :: o' else (k', v') :: set o' k v
  end.

(** [delete o[k]] *)
Fixpoint delete (o : list (string * A)) (k : string) : list (string * A) :=
  match o with
  | [] => []
  | (k', v') :: o' =>
      if String.eqb k' k then delete o' k else (k', v') :: delete o' k
  end.
End Obj.
End Obj.

(** [o[k]], [undefined] when [k] is not an own property *)
Definition get (o : Props) (k : string) : Value :=
  match Obj.lookup o k with Some v => v | None => VUndefined end.

(** [array.includes(k)] on strings *)
Definition includes (l : list string) (k : string) : bool :=
  existsb (String.eqb k) l.

(** The names under which every plain object finds a member inherited from
    [Object.prototype], whatever its own properties. *)
Definition Object_prototype : list string :=
  ["constructor"; "__defineGetter__"; "__defineSetter__"; "hasOwnProperty";
   "__lookupGetter__"; "__lookupSetter__"; "isPrototypeOf"; "propertyIsEnumerable";
   "toString"; "valueOf"; "__proto__"; "toLocaleString"].

(** [set.delete(k)] on an insertion-ordered [Set] of strings *)
Definition set_delete (l : list string) (k : string) : list string :=
  filter (fun x => negb (String.eqb x k)) l.

(** ** Errors, state, options *)

Inductive CtxVal : Type :=
  | CVal (v : Value)
  | CStr (s : string)
  | CStrs (l : list string)
  | CKey (k : option string).

Definition Context := list (string * CtxVal).

(** Modelled from the spec: the error factory [createError] of the base
    type is missing; an error is [{code, context, path}] and takes its path
    from the state it is created with. *)
Record Error := mkError {
  code : string;
  context : Context;
  err_path : list string }.

(** Modelled from the spec: the validation state built by [_state], missing
    with the base type: the key under validation, the path and the enclosing
    values, innermost first. *)
Record State := mkState {
  state_key : option string;
  state_path : list string;
  ancestors : list Value }.

Inductive StripUnknown := SU_unset | SU_true | SU_object (arrays objects : bool).

Record Options := mkOptions {
  abortEarly : bool;
  convert : bool;
  allowUnknown : bool;
  skipFunctions : bool;
  stripUnknown : StripUnknown;
  nonEnumerables : bool }.

Definition createError (c : string) (ctx : Context) (st : State) (o : Options) : Error :=
  mkError c ctx (state_path st).

Definition _state (k : option string) (p : list string) (anc : list Value) : State :=
  mkState k p anc.

(** The result of a schema's [_validate]: [errors] is [null] or an array. *)
Record Result := mkResult {
  value : Value;
  errors : option (list Error);
  outcome : Value }.

(** What the object type uses of a child schema. *)
Record Schema := mkSchema {
  flag_strip : bool;                                   (* _flags.strip *)
  roots : list string;                                 (* _refs.roots() *)
  _validate : Value -> State -> Options -> Result;
  _match : Value -> State -> Options -> bool;
  _getLabel : string -> string }.

Record Child := mkChild { key : string; schema : Schema }.

(** A thrown error; [keys] prefixes [thrown_path] with the field name. *)
Record Thrown := mkThrown {
  message : string;
  thrown_path : option string }.

(** [x] occurs before [y] in [l] *)
Definition precedes (A : Type) (l : list A) (x y : A) : Prop :=
  exists l1 l2 l3, l = l1 ++ x :: l2 ++ y :: l3.

(** ** The dependency graph of keys() *)

(** Modelled from the spec: the dependency graph ([Topo]) into which
    [keys] inserts the fields is an external module. [add] appends an item
    with the next sequence number, its group and the groups it comes after,
    and sorts again: scanning the sequence numbers in order, an item nobody
    precedes is taken at its turn, otherwise the first item not yet taken
    whose predecessors are all taken; the insertion fails when some item is
    left over (a cycle). Only the options [keys] passes ([after], [group])
    are modelled, and the checks the module makes on its arguments are left
    out: an item that names its own group is left over like any other
    cycle. *)
Module Topo.
Section Topo.
Variable Node : Type.

Record Item := mkItem {
  seq : nat;
  after : list string;
  group : string;
  node : Node }.

Record t := mk { _items : list Item; nodes : list Node }.

Definition empty : t := mk [] [].

(** [graphAfters[g]]: the items that come after group [g] *)
Definition graphAfters (items : list Item) (g : string) : list nat :=
  flat_map (fun it => map (fun _ => seq it) (filter (String.eqb g) (after it))) items.

(** [graph[node]]: the items that come after [node] *)
Definition graph (items : list Item) (it : Item) : list nat :=
  graphAfters items (group it).

(** [ancestors[c]]: the items [c] comes after, absent when there is none *)
Definition compile_ancestors (items : list Item) (c : nat) : option (list nat) :=
  match flat_map (fun it => map (fun _ => seq it) (filter (Nat.eqb c) (graph items it))) items with
  | [] => None
  | l => Some l
  end.

Definition upd (f : nat -> option (list nat)) (j : nat) (v : option (list nat))
  : nat -> option (list nat) :=
  fun k => if Nat.eqb k j then v else f k.

Definition is_visited (visited : list nat) (j : nat) : bool :=
  existsb (Nat.eqb j) visited.

(** the inner [for j] loop: the first unvisited item all of whose
    ancestors are visited *)
Fixpoint search (js : list nat) (anc : nat -> option (list nat)) (visited : list nat)
  : option nat * (nat -> option (list nat)) :=
  match js with
  | [] => (None, anc)
  | j :: js' =>
      if is_visited visited j then search js' anc visited
      else
        let anc' := match anc j with None => upd anc j (Some []) | Some _ => anc end in
        let l := match anc' j with Some l => l | None => [] end in
        let shouldSeeCount := List.length l in
        let seenCount := List.length (filter (is_visited visited) l) in
        if Nat.eqb seenCount shouldSeeCount then (Some j, anc')
        else search js' anc' visited
  end.

Record SortState := mkSort {
  anc : nat -> option (list nat);
  visited : list nat;
  sorted : list nat }.

Definition visit (st : SortState) (i n : nat) : SortState :=
  let '(next, anc') :=
    match anc st i with
    | None => (Some i, anc st)
    | Some _ => search (List.seq 0 n) (anc st) (visited st)
    end in
  match next with
  | Some x => mkSort anc' (x :: visited st) (sorted st ++ [x])
  | None => mkSort anc' (visited st) (sorted st)
  end.

Fixpoint loop (is_ : list nat) (n : nat) (st : SortState) : SortState :=
  match is_ with
  | [] => st
  | i :: is' => loop is' n (visit st i n)
  end.

(** [seqIndex[s]]: a later item overrides an earlier one *)
Definition seqIndex (items : list Item) (s : nat) : option Item :=
  find (fun it => Nat.eqb (seq it) s) (rev items).

Fixpoint collect (items : list Item) (ss : list nat) : option (list Item) :=
  match ss with
  | [] => Some []
  | s :: ss' =>
      match seqIndex items s, collect items ss' with
      | Some it, Some its => Some (it :: its)
      | _, _ => None
      end
  end.

Inductive SortResult := SortTrue (T : t) | SortFalse | SortTypeError.

Definition _sort (T : t) : SortResult :=
  let items := _items T in
  let n := List.length items in
  let st := loop (List.seq 0 n) n (mkSort (compile_ancestors items) [] []) in
  if negb (Nat.eqb (List.length (sorted st)) n) then SortFalse
  else match collect items (sorted st) with
       | Some its => SortTrue (mk its (map node its))
       | None => SortTypeError
       end.

Definition add (T : t) (n : Node) (after_ : list string) (group_ : string)
  : Thrown + t :=
  let item := mkItem (List.length (_items T)) after_ group_ n in
  match _sort (mk (_items T ++ [item]) (nodes T)) with
  | SortTrue T' => inr T'
  | SortFalse => inl (mkThrown "created a dependencies error" None)
  | SortTypeError => inl (mkThrown "TypeError" None)
  end.
End Topo.
End Topo.

(** ** The object type *)

Module ObjectType.

Record RenameOptions := mkRenameOptions {
  alias : bool;
  multiple : bool;
  override : bool;
  ignoreUndefined : bool }.

Inductive RenameFrom :=
  | FromKey (k : string)
  | FromRegex (test : string -> bool).

Record Rename := mkRename {
  from : RenameFrom;
  to : string;
  rename_options : RenameOptions }.

Inductive DepType :=
  | With | Without | Xor | Oxor | Or | And | Nand.

Record Peer := mkPeer { peer_path : list string; peer : string }.

Record Orig := mkOrig { orig_key : option string; orig_peers : list string }.

Record Dependency := mkDependency {
  dep_type : DepType;
  dep_key : option (list string);
  peers : list Peer;
  orig : Orig }.

Inductive Matcher :=
  | Regex (test : string -> bool)
  | MatchSchema (s : Schema).

Record Pattern := mkPattern { matcher : Matcher; rule : Schema }.

Record ObjectSchema := mkObject {
  flag_func : bool;                        (* _flags.func *)
  flag_allowUnknown : option bool;         (* _flags.allowUnknown *)
  children : option (list Child);          (* _inner.children, null: any keys *)
  renames : list Rename;
  dependencies : list Dependency;
  patterns : list Pattern }.

(** [new internals.Object()] *)
Definition object : ObjectSchema := mkObject false None None [] [] [].

Definition with_children (this : ObjectSchema) (cs : option (list Child)) : ObjectSchema :=
  mkObject (flag_func this) (flag_allowUnknown this) cs
           (renames this) (dependencies this) (patterns this).

(** *** keys() *)

Section Keys.
Variable Raw : Type.
Variable Cast_schema : Raw -> Thrown + Schema.

(** the existing children that the call does not declare again *)
Fixpoint add_untouched (cs : list Child) (declared : list string) (topo : Topo.t Child)
  : Thrown + Topo.t Child :=
  match cs with
  | [] => inr topo
  | child :: cs' =>
      if negb (includes declared (key child)) then
        match Topo.add topo child (roots (schema child)) (key child) with
        | inl e => inl e
        | inr topo' => add_untouched cs' declared topo'
        end
      else add_untouched cs' declared topo
  end.

(** the [catch] clause: the field name is put in front of the error path *)
Definition prefix_path (k : string) (err : Thrown) : Thrown :=
  match thrown_path err with
  | Some p => mkThrown (message err) (Some (k ++ "." ++ p)%string)
  | None => mkThrown (message err) (Some k)
  end.

(** the loop over the declared fields; [obj._refs.register(cast)] keeps the
    books of the references and is not represented. A key of the field map
    always has an entry. *)
Fixpoint add_declared (fields : list (string * Raw)) (declared : list string)
  (topo : Topo.t Child) : Thrown + Topo.t Child :=
  match declared with
  | [] => inr topo
  | k :: declared' =>
      match Obj.lookup fields k with
      | None => inl (prefix_path k (mkThrown "TypeError" None))
      | Some child =>
          match Cast_schema child with
          | inl err => inl (prefix_path k err)
          | inr cast =>
              match Topo.add topo (mkChild k cast) (roots cast) k with
              | inl err => inl (prefix_path k err)
              | inr topo' => add_declared fields declared' topo'
              end
          end
      end
  end.

(** the children cast from the field map, when every cast succeeds *)
Fixpoint cast_all (fields : list (string * Raw)) (declared : list string)
    : option (list Child) :=
  match declared with
  | [] => Some []
  | k :: declared' =>
      match Obj.lookup fields k with
      | None => None
      | Some child =>
          match Cast_schema child, cast_all fields declared' with
          | inr cast, Some cs => Some (mkChild k cast :: cs)
          | _, _ => None
          end
      end
  end.

Definition keys (this : ObjectSchema) (fields : option (list (string * Raw)))
  : Thrown + ObjectSchema :=
  match fields with
  | None => inr (with_children this None)
  | Some fm =>
      let declared := Obj.keys fm in
      if Nat.eqb (List.length declared) 0 then inr (with_children this (Some []))
      else
        let topo := Topo.empty Child in
        match
          match children this with
          | Some cs => add_untouched cs declared topo
          | None => inr topo
          end
        with
        | inl e => inl e
        | inr topo1 =>
            match add_declared fm declared topo1 with
            | inl e => inl e
            | inr topo2 => inr (with_children this (Some (Topo.nodes topo2)))
            end
        end
  end.
End Keys.

(** *** Control flow of the walk *)

(** [Return] is an early [return finish()]. *)
Inductive Flow (A : Type) : Type :=
  | Continue (a : A)
  | Return (a : A).

Arguments Continue {A} a.
Arguments Return {A} a.

Definition bind (A : Type) (x : Flow A) (f : A -> Flow A) : Flow A :=
  match x with
  | Continue a => f a
  | Return a => Return a
  end.

Notation "x >>= f" := (bind x f) (at level 50, left associativity).

Definition flow_value (A : Type) (x : Flow A) : A :=
  match x with Continue a => a | Return a => a end.

(** [for (const x of l) body], stopping at the first [Return] *)
Fixpoint for_each (A B : Type) (body : B -> A -> Flow A) (l : list B) (a : A) : Flow A :=
  match l with
  | [] => Continue a
  | x :: l' => body x a >>= for_each body l'
  end.

(** The mutable locals of [_base]. *)
Record Walk := mkWalk {
  target : Props;
  errs : list Error;
  unprocessed : list string;
  strips : list string }.

Record BaseResult := mkBase {
  base_value : Value;
  base_errors : option (list Error) }.

(** [errors.push(e)], then [return] under [abortEarly] *)
Definition raise (o : Options) (es : list Error) (w : Walk) : Flow Walk :=
  let w' := mkWalk (target w) (errs w ++ es) (unprocessed w) (strips w) in
  if abortEarly o then Return w' else Continue w'.

Definition with_target (w : Walk) (t : Props) : Walk :=
  mkWalk t (errs w) (unprocessed w) (strips w).

Definition with_unprocessed (w : Walk) (u : list string) : Walk :=
  mkWalk (target w) (errs w) u (strips w).

Definition with_strips (w : Walk) (l : list string) : Walk :=
  mkWalk (target w) (errs w) (unprocessed w) l.

(** *** _rename *)

Section Rename.
Variable state : State.
Variable o : Options.

(** [renamed[k]] is truthy. [renamed] starts as the object literal [{}] and
    takes [true] under every target that is written ([renamed] lists them):
    the lookup finds a written target, and also the member that [{}]
    inherits under a name of [Object.prototype]. *)
Definition renamed_has (renamed : list string) (k : string) : bool :=
  includes renamed k || includes Object_prototype k.

(** the two checks shared by literal and pattern sources *)
Definition rename_checks (r : Rename) (code_multiple code_override : string)
    (ctx : Context) (renamed : list string) (w : Walk) : Flow Walk :=
  (if negb (multiple (rename_options r)) && renamed_has renamed (to r)
   then raise o [createError code_multiple ctx state o] w
   else Continue w) >>= fun w1 =>
  if Obj.hasOwn (target w1) (to r) && negb (override (rename_options r))
     && negb (renamed_has renamed (to r))
  then raise o [createError code_override ctx state o] w1
  else Continue w1.

Definition rename_key (r : Rename) (k : string) (renamed : list string) (w : Walk)
    : Flow Walk * list string :=
  if ignoreUndefined (rename_options r) && is_undefined (get (target w) k)
  then (Continue w, renamed)
  else
    match rename_checks r "object.rename.multiple" "object.rename.override"
            [("from", CStr k); ("to", CStr (to r))] renamed w with
    | Return w' => (Return w', renamed)
    | Continue w1 =>
        let t1 := if is_undefined (get (target w1) k)
                  then Obj.delete (target w1) (to r)
                  else Obj.set (target w1) (to r) (get (target w1) k) in
        let t2 := if alias (rename_options r) then t1 else Obj.delete t1 k in
        (Continue (with_target w1 t2), to r :: renamed)
    end.

Definition rename_regex (r : Rename) (test : string -> bool) (renamed : list string)
    (w : Walk) : Flow Walk * list string :=
  let matchedTargetKeys := filter test (Obj.keys (target w)) in
  let allUndefined :=
    forallb (fun k => is_undefined (get (target w) k)) matchedTargetKeys in
  if ignoreUndefined (rename_options r) && allUndefined
  then (Continue w, renamed)
  else
    match rename_checks r "object.rename.regex.multiple" "object.rename.regex.override"
            [("from", CStrs matchedTargetKeys); ("to", CStr (to r))] renamed w with
    | Return w' => (Return w', renamed)
    | Continue w1 =>
        let t1 := if allUndefined
                  then Obj.delete (target w1) (to r)
                  else Obj.set (target w1) (to r)
                         (match rev matchedTargetKeys with
                          | k :: _ => get (target w1) k
                          | [] => VUndefined
                          end) in
        let t2 := if alias (rename_options r) then t1
                  else fold_left (fun t k => if negb (String.eqb k (to r))
                                             then Obj.delete t k else t)
                                 matchedTargetKeys t1 in
        (Continue (with_target w1 t2), to r :: renamed)
    end.

Fixpoint rename_loop (rs : list Rename) (renamed : list string) (w : Walk) : Flow Walk :=
  match rs with
  | [] => Continue w
  | r :: rs' =>
      let '(f, renamed') :=
        match from r with
        | FromKey k => rename_key r k renamed w
        | FromRegex test => rename_regex r test renamed w
        end in
      match f with
      | Continue w' => rename_loop rs' renamed' w'
      | Return w' => Return w'
      end
  end.

(** [Continue] stands for [true], [Return] for [false]. *)
Definition _rename (this : ObjectSchema) (w : Walk) : Flow Walk :=
  rename_loop (renames this) [] w.

End Rename.

(** *** Dependencies *)

Record Failure := mkFailure {
  fail_code : string;
  fail_context : Context }.

Section Base.
(** [Hoek.reach(obj, chain, { functions: true })] *)
Variable reach : Value -> list string -> Value.
(** [schema._currentJoi.reach(schema, key)] *)
Variable Joi_reach : ObjectSchema -> string -> option Schema.

Definition findLabel (schema : ObjectSchema) (k : string) : string :=
  match Joi_reach schema k with
  | Some matchingChild => _getLabel matchingChild k
  | None => k
  end.

(** [internals.keysToLabels] on an array of keys *)
Definition keysToLabels (schema : ObjectSchema) (keys : list string) : list string :=
  match children schema with
  | None => keys
  | Some _ => map (findLabel schema) keys
  end.

(** [internals.keysToLabels] on a single key *)
Definition keyToLabel (schema : ObjectSchema) (k : string) : string :=
  match children schema with
  | None => k
  | Some _ => findLabel schema k
  end.

Definition main_context (schema : ObjectSchema) (dep : Dependency) (p : Peer) : Context :=
  [("main", CKey (orig_key (orig dep)));
   ("mainWithLabel", match orig_key (orig dep) with
                     | Some k => CStr (keyToLabel schema k)
                     | None => CKey None
                     end);
   ("peer", CStr (peer p));
   ("peerWithLabel", CStr (keyToLabel schema (peer p)))].

(** the peers that resolve to a defined value, in declaration order *)
Definition present_peers (dep : Dependency) (parent : Value) : list string :=
  map peer (filter (fun p => negb (is_undefined (reach parent (peer_path p)))) (peers dep)).

Definition missing_peers (dep : Dependency) (parent : Value) : list string :=
  map peer (filter (fun p => is_undefined (reach parent (peer_path p))) (peers dep)).

Definition peers_context (schema : ObjectSchema) (dep : Dependency) : Context :=
  [("peers", CStrs (orig_peers (orig dep)));
   ("peersWithLabels", CStrs (keysToLabels schema (orig_peers (orig dep))))].

Definition dependencies_with (schema : ObjectSchema) (dep : Dependency) (value parent : Value)
    : option Failure :=
  if is_undefined value then None
  else
    match find (fun p => is_undefined (reach parent (peer_path p))) (peers dep) with
    | Some p => Some (mkFailure "object.with" (main_context schema dep p))
    | None => None
    end.

Definition dependencies_without (schema : ObjectSchema) (dep : Dependency)
    (value parent : Value) : option Failure :=
  if is_undefined value then None
  else
    match find (fun p => negb (is_undefined (reach parent (peer_path p)))) (peers dep) with
    | Some p => Some (mkFailure "object.without" (main_context schema dep p))
    | None => None
    end.

Definition dependencies_xor (schema : ObjectSchema) (dep : Dependency) (value parent : Value)
    : option Failure :=
  let present := present_peers dep parent in
  if Nat.eqb (List.length present) 1 then None
  else
    let context := peers_context schema dep in
    if Nat.eqb (List.length present) 0 then Some (mkFailure "object.missing" context)
    else Some (mkFailure "object.xor"
                 (context ++ [("present", CStrs present);
                              ("presentWithLabels", CStrs (keysToLabels schema present))])).

Definition dependencies_oxor (schema : ObjectSchema) (dep : Dependency) (value parent : Value)
    : option Failure :=
  let present := present_peers dep parent in
  if Nat.eqb (List.length present) 0 || Nat.eqb (List.length present) 1 then None
  else Some (mkFailure "object.oxor"
               (peers_context schema dep ++
                [("present", CStrs present);
                 ("presentWithLabels", CStrs (keysToLabels schema present))])).

Definition dependencies_or (schema : ObjectSchema) (dep : Dependency) (value parent : Value)
    : option Failure :=
  if existsb (fun p => negb (is_undefined (reach parent (peer_path p)))) (peers dep)
  then None
  else Some (mkFailure "object.missing" (peers_context schema dep)).

Definition dependencies_and (schema : ObjectSchema) (dep : Dependency) (value parent : Value)
    : option Failure :=
  let missing := missing_peers dep parent in
  let present := present_peers dep parent in
  let count := List.length (peers dep) in
  if negb (Nat.eqb (List.length missing) count) && negb (Nat.eqb (List.length present) count)
  then Some (mkFailure "object.and"
               [("present", CStrs present);
                ("presentWithLabels", CStrs (keysToLabels schema present));
                ("missing", CStrs missing);
                ("missingWithLabels", CStrs (keysToLabels schema missing))])
  else None.

Definition dependencies_nand (schema : ObjectSchema) (dep : Dependency) (value parent : Value)
    : option Failure :=
  let present := present_peers dep parent in
  if negb (Nat.eqb (List.length present) (List.length (peers dep))) then None
  else
    let main := hd_error (orig_peers (orig dep)) in
    let values := tl (orig_peers (orig dep)) in
    Some (mkFailure "object.nand"
            [("main", CKey main);
             ("mainWithLabel", match main with
                               | Some k => CStr (keyToLabel schema k)
                               | None => CKey None
                               end);
             ("peers", CStrs values);
             ("peersWithLabels", CStrs (keysToLabels schema values))]).

(** [internals.dependencies[dep.type]] *)
Definition dependencies_method (t : DepType)
    : ObjectSchema -> Dependency -> Value -> Value -> option Failure :=
  match t with
  | With => dependencies_with
  | Without => dependencies_without
  | Xor => dependencies_xor
  | Oxor => dependencies_oxor
  | Or => dependencies_or
  | And => dependencies_and
  | Nand => dependencies_nand
  end.

(** *** _base *)

Section Walk.
Variable this : ObjectSchema.
Variable state : State.
Variable o : Options.

(** the working copy as a value: an object, or a function for a
    constructor-flavoured schema *)
Definition wrap (t : Props) : Value :=
  if flag_func this then VFunction t else VObject t.

Definition finish (w : Walk) : BaseResult :=
  mkBase (wrap (target w)) (match errs w with [] => None | es => Some es end).

(** the body of the loop over the declared children *)
Definition validate_child (child : Child) (w : Walk) : Flow Walk :=
  let k := key child in
  let item := get (target w) k in
  let w := with_unprocessed w (set_delete (unprocessed w) k) in
  let localState :=
    _state (Some k) (state_path state ++ [k]) (wrap (target w) :: ancestors state) in
  let result := _validate (schema child) item localState o in
  (match errors result with
   | Some es => raise o es w
   | None =>
       if flag_strip (schema child)
          || (is_undefined (value result) && negb (is_undefined item))
       then Continue (mkWalk (Obj.set (target w) k (outcome result)) (errs w)
                             (unprocessed w) (strips w ++ [k]))
       else if negb (is_undefined (value result))
       then Continue (with_target w (Obj.set (target w) k (value result)))
       else Continue w
   end) >>= fun w =>
  if flag_strip (schema child) then Continue (with_strips w (strips w ++ [k]))
  else Continue w.

Definition delete_strips (w : Walk) : Flow Walk :=
  Continue (with_target w (fold_left (fun t k => Obj.delete t k) (strips w) (target w))).

Definition validate_children (w : Walk) : Flow Walk :=
  match children this with
  | Some cs => for_each validate_child cs (with_strips w []) >>= delete_strips
  | None => Continue w
  end.

Definition pattern_matches (p : Pattern) (k : string) : bool :=
  match matcher p with
  | Regex test => test k
  | MatchSchema s =>
      _match s (VString k) state
        (mkOptions true (convert o) (allowUnknown o) (skipFunctions o)
                   (stripUnknown o) (nonEnumerables o))
  end.

(** the body of the loop over the patterns, for the unprocessed key [k]
    whose value was [item] when the loop started *)
Definition validate_pattern (k : string) (item : Value) (p : Pattern) (w : Walk)
    : Flow Walk :=
  if pattern_matches p k then
    let w := with_unprocessed w (set_delete (unprocessed w) k) in
    let localState := _state (Some k) (state_path state ++ [k]) [wrap (target w)] in
    let result := _validate (rule p) item localState o in
    (match errors result with
     | Some es => raise o es w
     | None => Continue w
     end) >>= fun w =>
    Continue (with_target w (Obj.set (target w) k (value result)))
  else Continue w.

Definition validate_patterns (w : Walk) : Flow Walk :=
  if negb (Nat.eqb (List.length (unprocessed w)) 0)
     && negb (Nat.eqb (List.length (patterns this)) 0)
  then for_each (fun k w => for_each (validate_pattern k (get (target w) k)) (patterns this) w)
         (unprocessed w) w
  else Continue w.

Definition strip_unknown_keys (w : Walk) : Walk :=
  let stripUnknown :=
    match stripUnknown o with
    | SU_unset => false
    | SU_true => true
    | SU_object _ objects => objects
    end in
  fold_left
    (fun w k =>
       if stripUnknown
       then mkWalk (Obj.delete (target w) k) (errs w) (set_delete (unprocessed w) k) (strips w)
       else if is_function (get (target w) k)
       then with_unprocessed w (set_delete (unprocessed w) k)
       else w)
    (unprocessed w) w.

Definition unknown_error (t : Props) (unprocessedKey : string) : Error :=
  createError "object.allowUnknown"
    [("child", CStr unprocessedKey); ("value", CVal (get t unprocessedKey))]
    (_state (Some unprocessedKey) (state_path state ++ [unprocessedKey]) []) o.

(** the step on the keys still unprocessed. Modelled from the spec:
    [Common.default] is declared outside these files; the schema flag
    decides when it is set, the option otherwise. *)
Definition validate_unknown (w : Walk) : Flow Walk :=
  if negb (Nat.eqb (List.length (unprocessed w)) 0)
     && (match children this with Some _ => true | None => false end
         || negb (Nat.eqb (List.length (patterns this)) 0))
  then
    let w1 :=
      if (match stripUnknown o with SU_unset => false | _ => true end)
         && negb (match flag_allowUnknown this with Some true => true | _ => false end)
         || skipFunctions o
      then strip_unknown_keys w
      else w in
    let forbidUnknown :=
      negb (match flag_allowUnknown this with Some b => b | None => allowUnknown o end) in
    if forbidUnknown
    then Continue (mkWalk (target w1)
                          (errs w1 ++ map (unknown_error (target w1)) (unprocessed w1))
                          (unprocessed w1) (strips w1))
    else Continue w1
  else Continue w.

Definition last_segment (k : list string) : option string :=
  match rev k with
  | x :: _ => Some x
  | [] => None
  end.

(** the body of the loop over the dependencies *)
Definition validate_dependency (dep : Dependency) (w : Walk) : Flow Walk :=
  let keyValue :=
    match dep_key dep with
    | Some k => reach (wrap (target w)) k
    | None => VNull
    end in
  match dependencies_method (dep_type dep) this dep keyValue (wrap (target w)) with
  | Some failed =>
      let localState :=
        match dep_key dep with
        | Some k => _state (last_segment k) (state_path state ++ k) []
        | None => _state None (state_path state) []
        end in
      raise o [createError (fail_code failed) (fail_context failed) localState o] w
  | None => Continue w
  end.

Definition validate_dependencies (w : Walk) : Flow Walk :=
  for_each validate_dependency (dependencies this) w.

(** the loops over the declared children and over the patterns;
    [unprocessed] starts as [new Set(Object.keys(target))] *)
Definition validate_declared (w : Walk) : Flow Walk :=
  validate_children (with_unprocessed w (nodup string_dec (Obj.keys (target w))))
  >>= validate_patterns.

(** [!children && !patterns.length && !dependencies.length] *)
Definition shapeless : bool :=
  match children this with None => true | Some _ => false end
  && Nat.eqb (List.length (patterns this)) 0
  && Nat.eqb (List.length (dependencies this)) 0.

(** the statements of [_base] that follow the shallow copy; both ways of
    copying give [target] the own properties of [value], in the same order *)
Definition walk (copy : Props) : Flow Walk :=
  _rename state o this (mkWalk copy [] [] []) >>= fun w =>
  if shapeless then Return w
  else validate_declared w >>= validate_unknown >>= validate_dependencies.

End Walk.

Definition _base (this : ObjectSchema) (value : Value) (state : State) (o : Options)
    : BaseResult :=
  let type := if flag_func this then "function" else "object" in
  let base_error :=
    mkBase value (Some [createError (type ++ ".base")%string [("value", CVal value)] state o]) in
  match value, flag_func this with
  | VObject props, false | VFunction props, true =>
      if Nat.eqb (List.length (renames this)) 0
         && Nat.eqb (List.length (dependencies this)) 0
         && match children this with None => true | Some _ => false end
         && Nat.eqb (List.length (patterns this)) 0
      then mkBase value None
      else finish this (flow_value (walk this state o props))
  | _, _ => base_error
  end.

End Base.

(** *** Builders *)

(** Modelled from the spec: the defaults of the validation options are
    declared outside these files; [abortEarly] is on and nothing allows,
    strips or skips undeclared keys. *)
Definition default_options : Options :=
  mkOptions true true false false SU_unset false.

Record RenameArgs := mkRenameArgs {
  arg_alias : option bool;
  arg_multiple : option bool;
  arg_override : option bool;
  arg_ignoreUndefined : option bool }.

Definition renameDefaults : RenameOptions :=
  mkRenameOptions false false false false.

(** [Hoek.applyToDefaults(internals.renameDefaults, options)] *)
Definition applyToDefaults (d : RenameOptions) (a : RenameArgs) : RenameOptions :=
  mkRenameOptions
    (match arg_alias a with Some b => b | None => alias d end)
    (match arg_multiple a with Some b => b | None => multiple d end)
    (match arg_override a with Some b => b | None => override d end)
    (match arg_ignoreUndefined a with Some b => b | None => ignoreUndefined d end).

(** [rename.from !== from] fails on equal strings only: two regular
    expressions are taken to be distinct objects. *)
Definition same_from (x y : RenameFrom) : bool :=
  match x, y with
  | FromKey a, FromKey b => String.eqb a b
  | _, _ => false
  end.

Definition rename (this : ObjectSchema) (from_ : RenameFrom) (to_ : string)
    (options : RenameArgs) : Thrown + ObjectSchema :=
  if same_from (FromKey to_) from_
  then inl (mkThrown "Cannot rename key to same name" None)
  else if existsb (fun r => same_from (from r) from_) (renames this)
  then inl (mkThrown "Cannot rename the same key multiple times" None)
  else inr (mkObject (flag_func this) (flag_allowUnknown this) (children this)
              (renames this ++ [mkRename from_ to_ (applyToDefaults renameDefaults options)])
              (dependencies this) (patterns this)).

(** [unknown(allow)]: the flag is [allow !== false] *)
Definition unknown (this : ObjectSchema) (allow : option bool) : ObjectSchema :=
  mkObject (flag_func this)
    (Some (match allow with Some false => false | _ => true end))
    (children this) (renames this) (dependencies this) (patterns this).

(** [s.split(sep)] for a non-empty separator; [skip] counts the code units
    of a separator still to pass *)
Fixpoint split_go (sep : string) (skip : nat) (s acc : string) : list string :=
  match s with
  | EmptyString => [acc]
  | String c s' =>
      match skip with
      | S n => split_go sep n s' acc
      | O =>
          if String.prefix sep s
          then acc :: split_go sep (String.length sep - 1) s' ""
          else split_go sep 0 s' (acc ++ String c "")%string
      end
  end.

Definition split (s sep : string) : list string := split_go sep 0 s "".

Record DependencyArgs := mkDependencyArgs { separator : option string }.

(** [_dependency(type, key, peers, options)]; a [separator] left undefined
    is ['.'], a falsy one keeps each peer whole *)
Definition _dependency (this : ObjectSchema) (type : DepType) (k : option string)
    (peers_ : list string) (options : DependencyArgs) : ObjectSchema :=
  let sep := match separator options with Some x => x | None => "." end in
  let path_of (x : string) := if String.eqb sep "" then [x] else split x sep in
  let paths := map (fun p => mkPeer (path_of p) p) peers_ in
  mkObject (flag_func this) (flag_allowUnknown this) (children this) (renames this)
    (dependencies this ++
     [mkDependency type (option_map path_of k) paths (mkOrig k peers_)])
    (patterns this).

(** [xor(...peers)] without a trailing options object *)
Definition xor (this : ObjectSchema) (peers_ : list string) : ObjectSchema :=
  _dependency this Xor None peers_ (mkDependencyArgs None).

(** *** append() *)

Section Append.
Variable Raw : Type.
Variable Cast_schema : Raw -> Thrown + Schema.

Definition append (this : ObjectSchema) (fields : option (list (string * Raw)))
    : Thrown + ObjectSchema :=
  match fields with
  | None => inr this
  | Some fm =>
      if Nat.eqb (List.length (Obj.keys fm)) 0 then inr this
      else keys Cast_schema this (Some fm)
  end.

End Append.

End ObjectType.

(** ** The string type *)

Module StringType.

(** The limit of a length rule: a number, or a reference that the rule
    resolves when it runs. Modelled from the spec: the references ([Ref])
    are declared outside these files; a reference is an object, and as a
    number an object that is not a number is [NaN]. *)
Inductive Limit :=
  | LimitNumber (n : nat)
  | LimitRef (display : string).

Record LengthArgs := mkLengthArgs {
  limit : Limit;
  encoding : option string }.

Inductive Direction := upper | lower.

Inductive Operator := op_eq | op_le | op_ge.

Section StringType.
(** a replacement pair [{pattern, replacement}] *)
Variable Replacement : Type.
(** built-ins of the language and of the platform *)
Variable String_normalize : string -> string -> string.
Variable toLocaleUpperCase toLocaleLowerCase String_trim : string -> string.
Variable String_replace : string -> Replacement -> string.
Variable isIsoDate : string -> bool.
(** [new Date(value).toISOString()], absent when the time is [NaN] *)
Variable Date_toISOString : string -> option string.
Variable Buffer_byteLength : string -> string -> nat.

(** What [_coerce] reads of the schema: the unique rules by name, the
    replacements and the [truncate] flag. *)
Record StringSchema := mkString {
  rule_normalize : option string;          (* args.form *)
  rule_case : option Direction;            (* args.direction *)
  rule_trim : option bool;                 (* args.enabled *)
  rule_hex : option bool;                  (* args.options.byteAligned *)
  rule_isoDate : bool;
  rule_max : option LengthArgs;
  replacements : option (list Replacement);
  flag_truncate : bool }.

Record CoerceResult := mkCoerce {
  coerce_value : Value;
  coerce_errors : option Error }.

(** [value.slice(0, limit)]; a limit that is a reference converts to [NaN]
    and slices to the empty string *)
Definition slice_to (l : Limit) (s : string) : string :=
  match l with
  | LimitNumber n => String.substring 0 n s
  | LimitRef _ => ""
  end.

(** the steps of [_coerce] before the date check *)
Definition coerce_text (this : StringSchema) (value : string) : string :=
  let value := match rule_normalize this with
               | Some form => String_normalize value form
               | None => value
               end in
  let value := match rule_case this with
               | Some upper => toLocaleUpperCase value
               | Some lower => toLocaleLowerCase value
               | None => value
               end in
  let value := match rule_trim this with
               | Some true => String_trim value
               | _ => value
               end in
  let value := match replacements this with
               | Some rs => fold_left String_replace rs value
               | None => value
               end in
  match rule_hex this with
  | Some true => if negb (Nat.eqb (String.length value mod 2) 0)
                 then ("0" ++ value)%string else value
  | _ => value
  end.

Definition _coerce (this : StringSchema) (value : Value) (state : State) (o : Options)
    : CoerceResult :=
  match value with
  | VString s =>
      let s := coerce_text this s in
      let dated :=
        if rule_isoDate this
        then if isIsoDate s
             then match Date_toISOString s with
                  | Some iso => inr iso
                  | None => inl s
                  end
             else inl s
        else inr s in
      match dated with
      | inl s => mkCoerce (VString s)
                   (Some (createError "string.isoDate" [("value", CVal (VString s))] state o))
      | inr s =>
          mkCoerce (VString (if flag_truncate this
                             then match rule_max this with
                                  | Some rule => slice_to (limit rule) s
                                  | None => s
                                  end
                             else s)) None
      end
  | _ => mkCoerce value None
  end.

(** the same schema with the [truncate] flag off *)
Definition truncate_off (this : StringSchema) : StringSchema :=
  mkString (rule_normalize this) (rule_case this) (rule_trim this) (rule_hex this)
           (rule_isoDate this) (rule_max this) (replacements this) false.

(** Modelled from the spec: [Common.compare] is declared outside these
    files; the operators of the length rules are [=], [<=] and [>=]. *)
Definition compare (a b : nat) (op : Operator) : bool :=
  match op with
  | op_eq => Nat.eqb a b
  | op_le => Nat.leb a b
  | op_ge => Nat.leb b a
  end.

(** the [length] rule behind [length], [max] and [min], for a limit
    already resolved to a number *)
Definition rules_length (value : string) (limit_ : nat) (encoding_ : option string)
    (alias_ : string) (op : Operator) (state : State) (o : Options) : string + Error :=
  let length :=
    match encoding_ with
    | Some e => if String.eqb e "" then String.length value else Buffer_byteLength value e
    | None => String.length value
    end in
  if compare length limit_ op then inl value
  else inr (createError ("string." ++ alias_)%string
              [("limit", CVal (VNumber (Z.of_nat limit_)));
               ("value", CVal (VString value));
               ("encoding", match encoding_ with Some e => CStr e | None => CKey None end)]
              state o).

(** *** Rules over classes of characters *)

(** [/^[...]+$/.test(value)] for one class of characters: the class, once
    at least, from the start to the end *)
Definition all_in (class : ascii -> bool) (value : string) : bool :=
  negb (String.eqb value "") && forallb class (list_ascii_of_string value).

Definition between (lo hi : nat) (c : ascii) : bool :=
  Nat.leb lo (nat_of_ascii c) && Nat.leb (nat_of_ascii c) hi.

(** [[0-9]] *)
Definition is_digit (c : ascii) : bool := between 48 57 c.

(** [[a-zA-Z0-9]] *)
Definition alphanum_class (c : ascii) : bool :=
  between 97 122 c || between 65 90 c || is_digit c.

(** [\w] *)
Definition word_class (c : ascii) : bool :=
  alphanum_class c || Nat.eqb (nat_of_ascii c) 95.

(** [[a-f0-9]] under the flag [i] *)
Definition hex_class (c : ascii) : bool :=
  between 97 102 c || between 65 70 c || is_digit c.

Definition rules_alphanum (value : string) (state : State) (o : Options) : string + Error :=
  if all_in alphanum_class value then inl value
  else inr (createError "string.alphanum" [("value", CVal (VString value))] state o).

Definition rules_token (value : string) (state : State) (o : Options) : string + Error :=
  if all_in word_class value then inl value
  else inr (createError "string.token" [("value", CVal (VString value))] state o).

Definition rules_hex (value : string) (byteAligned : bool) (state : State) (o : Options)
    : string + Error :=
  if negb (all_in hex_class value)
  then inr (createError "string.hex" [("value", CVal (VString value))] state o)
  else if byteAligned && negb (Nat.eqb (String.length value mod 2) 0)
  then inr (createError "string.hexAlign" [("value", CVal (VString value))] state o)
  else inl value.

(** *** creditCard *)

(** [Number(c)] for a string of one code unit: a digit, [0] for white
    space and line terminators, [NaN] ([None]) otherwise *)
Definition to_number (c : ascii) : option Z :=
  let n := nat_of_ascii c in
  if is_digit c then Some (Z.of_nat (n - 48))
  else if Nat.eqb n 9 || Nat.eqb n 10 || Nat.eqb n 11 || Nat.eqb n 12 || Nat.eqb n 13
          || Nat.eqb n 32 || Nat.eqb n 160
  then Some 0%Z
  else None.

(** the [while (i--)] loop, from the last character to the first; a sum
    that is [NaN] stays so *)
Fixpoint creditCard_loop (chars : list ascii) (sum : option Z) (mul : Z) : option Z :=
  match chars with
  | [] => sum
  | c :: chars' =>
      let char := option_map (fun d => (d * mul)%Z) (to_number c) in
      let sum' :=
        match sum, char with
        | Some s, Some ch => Some (s + (ch - (if Z.ltb 9 ch then 1 else 0) * 9))%Z
        | _, _ => None
        end in
      creditCard_loop chars' sum' (Z.lxor mul 3)
  end.

Definition rules_creditCard (value : string) (state : State) (o : Options)
    : string + Error :=
  match creditCard_loop (rev (list_ascii_of_string value)) (Some 0%Z) 1%Z with
  | Some sum =>
      if Z.ltb 0 sum && Z.eqb (sum mod 10) 0 then inl value
      else inr (createError "string.creditCard" [("value", CVal (VString value))] state o)
  | None => inr (createError "string.creditCard" [("value", CVal (VString value))] state o)
  end.

(** *** regex *)

Record RegExp := mkRegExp {
  re_test : string -> bool;
  re_source : string;
  re_flags : string }.

(** the second argument of [regex]: absent, a name, or an object *)
Inductive RegexOptions :=
  | RegexNoOptions
  | RegexName (name : string)
  | RegexObject (invert : bool) (name : option string).

Record PatternObject := mkPatternObject {
  po_pattern : RegExp;
  po_invert : option bool;
  po_name : option string }.

Record RegexRule := mkRegexRule {
  patternObject : PatternObject;
  errorCode : string }.

(** [flags.includes(c)] *)
Definition has_flag (flags c : string) : bool :=
  match String.index 0 c flags with Some _ => true | None => false end.

(** a name that is truthy *)
Definition named (name : option string) : bool :=
  match name with Some n => negb (String.eqb n "") | None => false end.

Definition regex (pattern : RegExp) (options : RegexOptions) : Thrown + RegexRule :=
  if has_flag (re_flags pattern) "g" || has_flag (re_flags pattern) "y"
  then inl (mkThrown "pattern should not use global or sticky mode" None)
  else
    let patternObject :=
      match options with
      | RegexNoOptions => mkPatternObject pattern None None
      | RegexName name => mkPatternObject pattern None (Some name)
      | RegexObject invert name =>
          mkPatternObject pattern (Some invert) (if named name then name else None)
      end in
    let errorCode :=
      ("string.regex"
       ++ (match po_invert patternObject with Some true => ".invert" | _ => "" end)
       ++ (if named (po_name patternObject) then ".name" else ".base"))%string in
    inr (mkRegexRule patternObject errorCode).

Definition rules_regex (value : string) (rule : RegexRule) (state : State) (o : Options)
    : string + Error :=
  let patternMatch := re_test (po_pattern (patternObject rule)) value in
  if xorb patternMatch (match po_invert (patternObject rule) with Some b => b | None => false end)
  then inl value
  else inr (createError (errorCode rule)
              [("name", CKey (po_name (patternObject rule)));
               ("pattern", CStr (re_source (po_pattern (patternObject rule))));
               ("value", CVal (VString value))] state o).

End StringType.
End StringType.

(** ** Notions used in the statements *)

Import ObjectType.

Section TopoNotions.
Variable Node : Type.

Definition members (o : option (list nat)) : list nat :=
  match o with Some l => l | None => [] end.

(** [anc'] is [anc] with some absent entries turned into empty arrays *)
Definition refines (anc anc' : nat -> option (list nat)) : Prop :=
  forall j, anc' j = anc j \/ (anc j = None /\ anc' j = Some []).

(** The invariant of the outer loop of the sort at turn [i]. *)
Record Inv (n : nat) (anc0 : nat -> option (list nat)) (i : nat) (st : Topo.SortState)
  : Prop := {
  inv_nodup : NoDup (Topo.sorted st);
  inv_visited : forall x, In x (Topo.sorted st) <-> In x (Topo.visited st);
  inv_bound : forall x, In x (Topo.sorted st) -> x < n;
  inv_refines : refines anc0 (Topo.anc st);
  inv_ahead : forall j, i <= j -> In j (Topo.visited st) -> Topo.anc st j <> None;
  inv_order : forall l1 x l2, Topo.sorted st = l1 ++ x :: l2 ->
              forall a, In a (members (anc0 x)) -> In a l1 }.

(** The items carry the sequence numbers [0 .. n-1]. *)
Definition numbered (items : list (Topo.Item Node)) : Prop :=
  Permutation (map (@Topo.seq Node) items) (List.seq 0 (List.length items)).

(** Every item stands after the items of the groups it names. *)
Definition ordered (items : list (Topo.Item Node)) : Prop :=
  forall x y, In x items -> In y items -> In (Topo.group x) (Topo.after y) ->
    precedes items x y.

(** No item names the group of an item. *)
Definition no_edges (items : list (Topo.Item Node)) : Prop :=
  forall x y, In x items -> In y items -> ~ In (Topo.group x) (Topo.after y).

End TopoNotions.

(** the item [keys] inserts for a child *)
Definition item_of (s : nat) (c : Child) : Topo.Item Child :=
  Topo.mkItem s (roots (schema c)) (key c) c.

Fixpoint items_from (s : nat) (cs : list Child) : list (Topo.Item Child) :=
  match cs with
  | [] => []
  | c :: cs' => item_of s c :: items_from (S s) cs'
  end.

(** inserting children one after the other *)
Fixpoint add_all (cs : list Child) (topo : Topo.t Child) : Thrown + Topo.t Child :=
  match cs with
  | [] => inr topo
  | c :: cs' =>
      match Topo.add topo c (roots (schema c)) (key c) with
      | inl e => inl e
      | inr topo' => add_all cs' topo'
      end
  end.

(** the existing children a call of [keys] leaves alone *)
Definition untouched (cs : option (list Child)) (declared : list string) : list Child :=
  match cs with
  | Some l => filter (fun c => negb (includes declared (key c))) l
  | None => []
  end.

(** no child names the key of a child in its reference roots *)
Definition reference_free (cs : list Child) : Prop :=
  forall x y, In x cs -> In y cs -> ~ In (key x) (roots (schema y)).

(** every child stands after the children its reference roots name *)
Definition roots_first (cs : list Child) : Prop :=
  forall x y, In x cs -> In y cs -> In (key x) (roots (schema y)) -> precedes cs x y.

Unset Implicit Arguments.

(** [w'] differs from [w] on the keys of [P] only, its unprocessed set is
    a part of that of [w], its errors extend those of [w]. *)
Record Frame (P : string -> Prop) (w w' : Walk) : Prop := {
  fr_target : forall k, ~ P k -> Obj.lookup (target w') k = Obj.lookup (target w) k;
  fr_unprocessed : forall k, ~ P k -> (In k (unprocessed w') <-> In k (unprocessed w));
  fr_shrink : forall k, In k (unprocessed w') -> In k (unprocessed w);
  fr_nodup : NoDup (unprocessed w) -> NoDup (unprocessed w');
  fr_errs : exists es, errs w' = errs w ++ es }.

(** the own properties of an object or function value *)
Definition props_of (v : Value) : Props :=
  match v with
  | VObject p | VFunction p => p
  | _ => []
  end.

(** [input] passes the type test of [this] and has the own properties [props] *)
Definition accepts (this : ObjectSchema) (input : Value) (props : Props) : Prop :=
  input = wrap this props.

Definition error_list (r : BaseResult) : list Error :=
  match base_errors r with Some es => es | None => [] end.

Definition reports (r : Result) : list Error :=
  match errors r with Some es => es | None => [] end.

Section WalkNotions.
Variable this : ObjectSchema.
Variable state : State.
Variable o : Options.

(** [k] is the key of a declared child *)
Definition declared_key (k : string) : Prop :=
  match children this with
  | Some cs => In k (map key cs)
  | None => False
  end.

(** [r] is what the rule of [p] returns for [item] under the key [k] *)
Definition validated_by (k : string) (item : Value) (p : Pattern) (r : Result) : Prop :=
  exists st', state_key st' = Some k /\ state_path st' = state_path state ++ [k] /\
              r = _validate (rule p) item st' o.

(** the patterns that match the key [k], in declaration order *)
Definition matching (k : string) (ps : list Pattern) : list Pattern :=
  filter (fun p => pattern_matches state o p k) ps.

(** the test of the fast path of [_base] *)
Definition fast_path : bool :=
  Nat.eqb (List.length (renames this)) 0
  && Nat.eqb (List.length (dependencies this)) 0
  && match children this with None => true | Some _ => false end
  && Nat.eqb (List.length (patterns this)) 0.

(** [children || patterns.length] *)
Definition shaped : bool :=
  match children this with Some _ => true | None => false end
  || negb (Nat.eqb (List.length (patterns this)) 0).

(** the working copy once the rename directives have run *)
Definition renamed (props : Props) : Props :=
  target (flow_value (_rename state o this (mkWalk props [] [] []))).

(** the error reported for an undeclared key *)
Definition not_allowed (c : string) (v : Value) : Error :=
  mkError "object.allowUnknown" [("child", CStr c); ("value", CVal v)]
          (state_path state ++ [c]).

(** The reading of the loop over the patterns in which the first match
    wins: only the first pattern that matches [k] is applied. *)
Definition first_match_wins (k : string) (item : Value) (w : Walk) : Flow Walk :=
  match find (fun p => pattern_matches state o p k) (patterns this) with
  | Some p => validate_pattern this state o k item p w
  | None => Continue w
  end.

End WalkNotions.

Section DependencyNotions.
Variable Joi_reach : ObjectSchema -> string -> option Schema.

(** the directive [xor(a, b)] appends *)
Definition xor_directive (a b : string) : Dependency :=
  mkDependency Xor None [mkPeer (split a ".") a; mkPeer (split b ".") b] (mkOrig None [a; b]).

Definition conflict_context (schema : ObjectSchema) (a b : string) : Context :=
  [("peers", CStrs [a; b]);
   ("peersWithLabels", CStrs (keysToLabels Joi_reach schema [a; b]));
   ("present", CStrs [a; b]);
   ("presentWithLabels", CStrs (keysToLabels Joi_reach schema [a; b]))].

Definition missing_context (schema : ObjectSchema) (a b : string) : Context :=
  [("peers", CStrs [a; b]);
   ("peersWithLabels", CStrs (keysToLabels Joi_reach schema [a; b]))].

End DependencyNotions.

Section DependencyErrors.
Variable reach : Value -> list string -> Value.
Variable Joi_reach : ObjectSchema -> string -> option Schema.
Variable this : ObjectSchema.
Variable state : State.
Variable o : Options.

(** the errors a dependency adds when it is evaluated on the working copy [t] *)
Definition dependency_errors (t : Props) (dep : Dependency) : list Error :=
  match dependencies_method reach Joi_reach (dep_type dep) this dep
          (match dep_key dep with Some k => reach (wrap this t) k | None => VNull end)
          (wrap this t) with
  | Some failed =>
      [createError (fail_code failed) (fail_context failed)
         (match dep_key dep with
          | Some k => _state (last_segment k) (state_path state ++ k) []
          | None => _state None (state_path state) []
          end) o]
  | None => []
  end.

End DependencyErrors.

(** ** Sample schemas and inputs *)

(** Modelled from the spec: [Hoek.reach] is an external module; a path
    resolves through nested containers, callables included, and a segment
    that is missing or undefined resolves to [undefined]. *)
Fixpoint sample_reach (v : Value) (chain : list string) : Value :=
  match chain with
  | [] => v
  | k :: chain' =>
      match v with
      | VObject props | VFunction props =>
          match Obj.lookup props k with
          | Some x => if is_undefined x then VUndefined else sample_reach x chain'
          | None => VUndefined
          end
      | _ => VUndefined
      end
  end.

Definition no_labels : ObjectSchema -> string -> option Schema := fun _ _ => None.

(** a leaf that accepts every value as it is *)
Definition any : Schema :=
  mkSchema false [] (fun v _ _ => mkResult v None v) (fun _ _ _ => true) (fun k => k).

(** a leaf whose rules refer to the given roots *)
Definition referring (r : list string) : Schema :=
  mkSchema false r (fun v _ _ => mkResult v None v) (fun _ _ _ => true) (fun k => k).

(** a leaf that rejects every value with an error of code [c] and returns [out] *)
Definition rejecting (c : string) (out : Value) : Schema :=
  mkSchema false [] (fun v st o => mkResult out (Some [createError c [] st o]) out)
           (fun _ _ _ => true) (fun k => k).

(** a leaf that accepts every value and returns [out] *)
Definition returning (out : Value) : Schema :=
  mkSchema false [] (fun v _ _ => mkResult out None out) (fun _ _ _ => true) (fun k => k).

(** the same leaf flagged [strip] *)
Definition rejecting_stripped (c : string) (out : Value) : Schema :=
  mkSchema true [] (fun v st o => mkResult out (Some [createError c [] st o]) out)
           (fun _ _ _ => true) (fun k => k).

Definition cast_id (x : Schema) : Thrown + Schema := inr x.

Definition root_state : State := mkState None [] [].

(** the default options with [abortEarly] off *)
Definition collect_all : Options := mkOptions false true false false SU_unset false.

(** the default options with [stripUnknown] on *)
Definition strip_all_unknown : Options := mkOptions true true false false SU_true false.

Definition always : string -> bool := fun _ => true.

(** the schema [object().keys({ a: any })] *)
Definition only_a : ObjectSchema := mkObject false None (Some [mkChild "a" any]) [] [] [].

(** the input [{ a: 1, c: 2 }] *)
Definition a_and_c : Props := [("a", VNumber 1); ("c", VNumber 2)].

(** the input [{ a: 1, c: 2, d: 3 }] *)
Definition a_c_d : Props := [("a", VNumber 1); ("c", VNumber 2); ("d", VNumber 3)].

(** the schema [object().keys({ K: any, x: any })] *)
Definition K_then_x : ObjectSchema :=
  mkObject false None (Some [mkChild "K" any; mkChild "x" any]) [] [] [].

(** two patterns that match every key, with rules that reject the value and
    return [1] and [2] *)
Definition two_patterns : ObjectSchema :=
  mkObject false None None [] []
    [mkPattern (Regex always) (rejecting "first" (VNumber 1));
     mkPattern (Regex always) (rejecting "second" (VNumber 2))].

(** the schema [object().keys({ a: <rejected, stripped>, b: any })] *)
Definition stripped_a : ObjectSchema :=
  mkObject false None
    (Some [mkChild "a" (rejecting_stripped "bad" (VNumber 0)); mkChild "b" any]) [] [] [].

(** the schema [object().pattern(/.*/, <rejected, returns 9>)] *)
Definition one_pattern : ObjectSchema :=
  mkObject false None None [] [] [mkPattern (Regex always) (rejecting "bad" (VNumber 9))].

(** the schema [object().keys({ a: <rejected> })] *)
Definition rejected_a : ObjectSchema :=
  mkObject false None (Some [mkChild "a" (rejecting "bad" (VNumber 1))]) [] [] [].

(** the schema [object().rename('a', 'b', { alias: true, override: true })] *)
Definition alias_a_b : ObjectSchema :=
  mkObject false None None
    [mkRename (FromKey "a") "b" (mkRenameOptions true false true false)] [] [].

(** the schema [object().rename('a', 'constructor', { alias: true, override: true })] *)
Definition alias_a_constructor : ObjectSchema :=
  mkObject false None None
    [mkRename (FromKey "a") "constructor" (mkRenameOptions true false true false)] [] [].

(** the schema [object().rename('a', 't', o).rename('b', 't', o)] with
    [o = { alias: true, override: true }] *)
Definition two_aliases : ObjectSchema :=
  mkObject false None None
    [mkRename (FromKey "a") "t" (mkRenameOptions true false true false);
     mkRename (FromKey "b") "t" (mkRenameOptions true false true false)] [] [].

(** the input [{ a: 1, b: 2, t: 3 }] *)
Definition a_b_t : Props := [("a", VNumber 1); ("b", VNumber 2); ("t", VNumber 3)].

(** the walk over [{ a: 1, c: 2 }] once the declared keys are done *)
Definition after_declared (this : ObjectSchema) (o : Options) : Walk :=
  flow_value (validate_declared this root_state o (mkWalk a_and_c [] [] [])).

(** two patterns that match every key: the rule of the first rejects the
    value and returns [1], that of the second accepts it and returns [2] *)
Definition rejected_then_accepted : ObjectSchema :=
  mkObject false None None [] []
    [mkPattern (Regex always) (rejecting "first" (VNumber 1));
     mkPattern (Regex always) (returning (VNumber 2))].

(** the code unit 233 (e with an acute accent): one character, two bytes
    in UTF-8 *)
Definition e_acute : ascii := Ascii.ascii_of_nat 233.

(** the UTF-8 length of a string of code units below 256 *)
Fixpoint utf8_length (s : string) : nat :=
  match s with
  | EmptyString => 0
  | String c s' => (if Nat.ltb (Ascii.nat_of_ascii c) 128 then 1 else 2) + utf8_length s'
  end.

Definition sample_byteLength (s encoding : string) : nat := utf8_length s.

(** [string().max(2, 'utf8').truncate()] *)
Definition truncating : StringType.StringSchema unit :=
  StringType.mkString None None None None false
    (Some (StringType.mkLengthArgs (StringType.LimitNumber 2) (Some "utf8"))) None true.

(** the schema [string().max(limit, encoding).truncate()] *)
Definition truncating_at (R : Type) (l : StringType.Limit) (enc : option string)
    : StringType.StringSchema R :=
  StringType.mkString None None None None false
    (Some (StringType.mkLengthArgs l enc)) None true.

(** the schema changes nothing of a text before it truncates it *)
Definition converts_nothing (R : Type) (this : StringType.StringSchema R) : Prop :=
  StringType.rule_normalize this = None /\ StringType.rule_case this = None /\
  StringType.rule_trim this <> Some true /\ StringType.replacements this = None /\
  StringType.rule_hex this <> Some true /\ StringType.rule_isoDate this = false.

(** ** Notions used in the further properties *)

Section PeerNotions.
Variable reach : Value -> list string -> Value.

(** the peer resolves to a defined value in [parent] *)
Definition resolves (parent : Value) (p : Peer) : Prop :=
  reach parent (peer_path p) <> VUndefined.

End PeerNotions.

(** a walk that goes on carries no error, one that stopped carries at most
    [n] errors *)
Definition stops_within (n : nat) (f : Flow Walk) : Prop :=
  match f with
  | Continue w => errs w = []
  | Return w => List.length (errs w) <= n
  end.

(** [Common.default(this._flags.allowUnknown, options.allowUnknown)] *)
Definition allows_unknown (this : ObjectSchema) (o : Options) : bool :=
  match flag_allowUnknown this with Some b => b | None => allowUnknown o end.

(** the literal source keys of the rename directives, in order *)
Definition literal_sources (rs : list Rename) : list string :=
  flat_map (fun r => match from r with FromKey k => [k] | FromRegex _ => [] end) rs.

(** a key under which objects inherit nothing: a lookup finds what the
    object holds of its own, or nothing *)
Definition own_name (k : string) : Prop := ~ In k Object_prototype.

(** the checks of a directive pass: it has [multiple] or its target was not
    written before, and it has [override] or the value has no such key or
    the target was written before *)
Definition may_write (r : Rename) (renamed_ : list string) (t : Props) : Prop :=
  (multiple (rename_options r) = true \/ ~ In (to r) renamed_) /\
  (override (rename_options r) = true \/ Obj.lookup t (to r) = None \/ In (to r) renamed_).

(** the keys of the declared children; none when any key is accepted *)
Definition declared_keys (this : ObjectSchema) : list string :=
  match children this with Some cs => map key cs | None => [] end.

(** the thrown error carries a path that starts with the field [k] *)
Definition blames (e : Thrown) (k : string) : Prop :=
  thrown_path e = Some k \/ exists p, thrown_path e = Some (k ++ "." ++ p)%string.

(** the code unit of the decimal digit [d] *)
Definition digit_char (d : nat) : ascii := ascii_of_nat (48 + d).

(** the string of the decimal digits [ds] *)
Definition digits (ds : list nat) : string := string_of_list_ascii (map digit_char ds).

(** what one digit adds to the sum of [creditCard] under the multiplier [mul] *)
Definition luhn_digit (mul : Z) (d : nat) : Z :=
  (Z.of_nat d * mul - (if Z.ltb 9 (Z.of_nat d * mul) then 1 else 0) * 9)%Z.

(** the sum of [creditCard] over decimal digits, last digit first *)
Fixpoint luhn_sum (ds : list nat) (mul : Z) : Z :=
  match ds with
  | [] => 0%Z
  | d :: ds' => (luhn_digit mul d + luhn_sum ds' (Z.lxor mul 3))%Z
  end.

(** ** Further sample schemas and inputs *)

(** the schema [object().keys({ a: <rejected> }).unknown()] *)
Definition rejected_a_open : ObjectSchema :=
  mkObject false (Some true) (Some [mkChild "a" (rejecting "bad" (VNumber 1))]) [] [] [].

(** the schema [object().keys({ a: <rejected>, b: <rejected> })] *)
Definition rejected_a_b : ObjectSchema :=
  mkObject false None
    (Some [mkChild "a" (rejecting "bad_a" (VNumber 1));
           mkChild "b" (rejecting "bad_b" (VNumber 2))]) [] [] [].

(** the schema [object().keys({ a: <returns 7> })] *)
Definition returning_a : ObjectSchema :=
  mkObject false None (Some [mkChild "a" (returning (VNumber 7))]) [] [] [].

(** the schema [object().keys({ a: <rejected> }).xor('x', 'y')] *)
Definition rejected_a_xor : ObjectSchema :=
  mkObject false None (Some [mkChild "a" (rejecting "bad" (VNumber 1))]) []
    [xor_directive "x" "y"] [].

(** the default options with [skipFunctions] on *)
Definition skip_functions : Options := mkOptions true true false true SU_unset false.

(** the input [{ a: 1, f: function () {}, c: 2 }] *)
Definition a_f_c : Props := [("a", VNumber 1); ("f", VFunction []); ("c", VNumber 2)].

(** the directive of [rename('a', 'b')] *)
Definition move_a_b : Rename :=
  mkRename (FromKey "a") "b" (mkRenameOptions false false false false).


(** the directive of [rename('a', 'c')] *)
Definition move_a_c : Rename :=
  mkRename (FromKey "a") "c" (mkRenameOptions false false false false).

(** the directive of [rename('a', 'b', { multiple: true, override: true })] *)
Definition force_a_b : Rename :=
  mkRename (FromKey "a") "b" (mkRenameOptions false true true false).

(** the test of [/^[ac]$/] *)
Definition a_or_c (k : string) : bool := String.eqb k "a" || String.eqb k "c".

(** the directive of [rename(/^[ac]$/, 'z')] *)
Definition move_a_or_c_z : Rename :=
  mkRename (FromRegex a_or_c) "z" (mkRenameOptions false false false false).

(** the schema [object().keys({ a: any, b: any })] *)
Definition a_then_b : ObjectSchema :=
  mkObject false None (Some [mkChild "a" any; mkChild "b" any]) [] [] [].

(** [string().hex({ byteAligned: true })] *)
Definition aligned_hex : StringType.StringSchema unit :=
  StringType.mkString None None None (Some true) false None None false.

(** * Facts *)

Set Implicit Arguments.

(** ** The dependency graph *)

Module TopoFacts.
Section TopoFacts.
Variable Node : Type.
Abbreviation Item := (Topo.Item Node).

Lemma is_visited_In (v : list nat) (j : nat) :
  Topo.is_visited v j = true <-> In j v.
Proof.
  unfold Topo.is_visited. rewrite existsb_exists. split.
  - intros [x [Hx E]]. apply Nat.eqb_eq in E. now subst.
  - intros H. exists j. split; [assumption | apply Nat.eqb_refl].
Qed.

Lemma filter_length_all (A : Type) (f : A -> bool) (l : list A) :
  List.length (filter f l) = List.length l -> forall x, In x l -> f x = true.
Proof.
  induction l as [|a l IH]; simpl; intros H x Hx; [contradiction|].
  destruct (f a) eqn:E.
  - simpl in H. injection H as H. destruct Hx as [<-|Hx]; auto.
  - pose proof (filter_length_le f l). lia.
Qed.

Lemma filter_all_length (A : Type) (f : A -> bool) (l : list A) :
  (forall x, In x l -> f x = true) -> List.length (filter f l) = List.length l.
Proof.
  induction l as [|a l IH]; simpl; intros H; [reflexivity|].
  rewrite (H a) by now left. simpl. f_equal. apply IH. intros; apply H; now right.
Qed.

Lemma refines_refl anc : refines anc anc.
Proof. intros j. now left. Qed.

Lemma refines_trans a b c : refines a b -> refines b c -> refines a c.
Proof.
  intros H1 H2 j. destruct (H1 j) as [E1|[E1 E1']], (H2 j) as [E2|[E2 E2']].
  - left; congruence.
  - right; split; congruence.
  - right; split; congruence.
  - congruence.
Qed.

Lemma refines_members a b j : refines a b -> members (b j) = members (a j).
Proof. intros H. destruct (H j) as [E|[E E']]; rewrite ?E, ?E'; reflexivity. Qed.

Lemma refines_defined a b j : refines a b -> a j <> None -> b j <> None.
Proof. intros H. destruct (H j) as [E|[E E']]; congruence. Qed.

Lemma refines_upd anc j : anc j = None -> refines anc (Topo.upd anc j (Some [])).
Proof.
  intros E k. unfold Topo.upd. destruct (Nat.eqb_spec k j) as [->|N].
  - now right.
  - now left.
Qed.

Lemma search_spec js : forall anc visited next anc',
  Topo.search js anc visited = (next, anc') ->
  refines anc anc' /\
  match next with
  | Some j => In j js /\ ~ In j visited /\ anc' j <> None /\
              forall a, In a (members (anc' j)) -> In a visited
  | None => True
  end.
Proof.
  induction js as [|j js IH]; simpl; intros anc visited next anc' H.
  - injection H as <- <-. split; [apply refines_refl | exact I].
  - destruct (Topo.is_visited visited j) eqn:V.
    + apply IH in H. destruct H as [R H]. split; [assumption|].
      destruct next; [|exact I]. intuition.
    + set (anc1 := match anc j with None => Topo.upd anc j (Some []) | Some _ => anc end) in *.
      assert (R1 : refines anc anc1).
      { unfold anc1. destruct (anc j) eqn:E; [apply refines_refl | now apply refines_upd]. }
      assert (D1 : anc1 j <> None).
      { unfold anc1. destruct (anc j) eqn:E; [congruence|].
        unfold Topo.upd. rewrite Nat.eqb_refl. discriminate. }
      destruct (Nat.eqb_spec
                  (List.length (filter (Topo.is_visited visited)
                                  match anc1 j with Some l => l | None => [] end))
                  (List.length match anc1 j with Some l => l | None => [] end)) as [E|E].
      * injection H as <- <-. split; [assumption|].
        split; [now left|]. split.
        { intros Hin. apply is_visited_In in Hin. congruence. }
        split; [assumption|].
        intros a Ha. apply is_visited_In.
        apply (filter_length_all _ _ E). exact Ha.
      * apply IH in H. destruct H as [R H]. split; [eapply refines_trans; eassumption|].
        destruct next; [|exact I]. intuition.
Qed.

Lemma app_snoc_split (A : Type) (l l1 l2 : list A) (x y : A) :
  l ++ [y] = l1 ++ x :: l2 ->
  (l2 = [] /\ l = l1 /\ x = y) \/ (exists l2', l2 = l2' ++ [y] /\ l = l1 ++ x :: l2').
Proof.
  intros H. destruct l2 as [|z l2] using rev_ind.
  - left. apply app_inj_tail in H. intuition.
  - right. clear IHl2. exists l2.
    change (l1 ++ x :: l2 ++ [z]) with (l1 ++ (x :: l2) ++ [z]) in H.
    rewrite app_assoc in H. apply app_inj_tail in H. destruct H as [H ->].
    split; [reflexivity | assumption].
Qed.

Lemma push_inv n anc0 i st anc' x :
  Inv n anc0 i st ->
  refines (Topo.anc st) anc' ->
  x < n -> ~ In x (Topo.visited st) -> (i < x -> anc' x <> None) ->
  (forall a, In a (members (anc' x)) -> In a (Topo.visited st)) ->
  Inv n anc0 (S i) (Topo.mkSort anc' (x :: Topo.visited st) (Topo.sorted st ++ [x])).
Proof.
  intros I R Hx Hnv Hdef Hanc. destruct I. constructor; simpl.
  - apply Permutation_NoDup with (l := x :: Topo.sorted st).
    + apply Permutation_cons_append.
    + constructor; [|assumption]. intros Hin. apply Hnv. now apply inv_visited0.
  - intros y. rewrite in_app_iff. simpl. rewrite inv_visited0. intuition.
  - intros y. rewrite in_app_iff. simpl. intros [H|[<-|[]]]; auto.
  - eapply refines_trans; eassumption.
  - intros j Hj [<-|Hin].
    + apply Hdef. lia.
    + eapply refines_defined; [eassumption|]. apply inv_ahead0; [lia|assumption].
  - intros l1 y l2 E a Ha. apply app_snoc_split in E.
    destruct E as [(-> & E & ->)|(l2' & -> & E)].
    + rewrite <- E. apply inv_visited0. apply Hanc.
      rewrite (refines_members x (refines_trans inv_refines0 R)). exact Ha.
    + eapply inv_order0; eassumption.
Qed.

Lemma skip_inv n anc0 i st anc' :
  Inv n anc0 i st ->
  refines (Topo.anc st) anc' ->
  Inv n anc0 (S i) (Topo.mkSort anc' (Topo.visited st) (Topo.sorted st)).
Proof.
  intros I R. destruct I. constructor; simpl; auto.
  - eapply refines_trans; eassumption.
  - intros j Hj Hin. eapply refines_defined; [eassumption|]. apply inv_ahead0; [lia|assumption].
Qed.

Lemma visit_inv n anc0 i st :
  i < n -> Inv n anc0 i st -> Inv n anc0 (S i) (Topo.visit st i n).
Proof.
  intros Hi I. unfold Topo.visit.
  destruct (Topo.anc st i) eqn:E.
  - destruct (Topo.search (seq 0 n) (Topo.anc st) (Topo.visited st)) as [next anc'] eqn:S.
    apply search_spec in S. destruct S as [R S].
    destruct next as [x|].
    + destruct S as (Hin & Hnv & Hdef & Hanc). apply in_seq in Hin.
      apply push_inv; auto. lia.
    + now apply skip_inv.
  - apply push_inv; auto using refines_refl.
    + intros Hin. eapply (inv_ahead I); [|eassumption|eassumption]. lia.
    + intros H; lia.
    + rewrite E. simpl. contradiction.
Qed.

Lemma loop_inv n anc0 len : forall i st,
  i + len <= n -> Inv n anc0 i st ->
  Inv n anc0 (i + len) (Topo.loop (seq i len) n st).
Proof.
  induction len as [|len IH]; simpl; intros i st Hle I.
  - now rewrite Nat.add_0_r.
  - replace (i + S len) with (S i + len) by lia.
    apply IH; [lia|]. apply visit_inv; [lia|assumption].
Qed.

Lemma init_inv n anc0 : Inv n anc0 0 (Topo.mkSort anc0 [] []).
Proof.
  constructor; simpl; try tauto.
  - constructor.
  - apply refines_refl.
  - intros l1 x l2 E. destruct l1; discriminate.
Qed.

(** When every item has been taken, the order lists each sequence number
    once, every one after the items it comes after. *)
Lemma loop_complete n anc0 st :
  st = Topo.loop (seq 0 n) n (Topo.mkSort anc0 [] []) ->
  List.length (Topo.sorted st) = n ->
  Permutation (Topo.sorted st) (seq 0 n) /\
  forall l1 x l2, Topo.sorted st = l1 ++ x :: l2 ->
  forall a, In a (members (anc0 x)) -> In a l1.
Proof.
  intros -> L.
  pose proof (@loop_inv n anc0 n 0 _ (Nat.le_refl _) (init_inv n anc0)) as I.
  simpl in I. split; [|apply (inv_order I)].
  apply NoDup_Permutation_bis.
  - apply (inv_nodup I).
  - rewrite length_seq, L. apply Nat.le_refl.
  - intros x Hx. apply in_seq. pose proof (inv_bound I x Hx). lia.
Qed.

Lemma members_compile (items : list Item) (c : nat) :
  members (Topo.compile_ancestors items c) =
  flat_map (fun it => map (fun _ => Topo.seq it)
                        (filter (Nat.eqb c) (Topo.graph items it))) items.
Proof.
  unfold Topo.compile_ancestors.
  destruct (flat_map _ items); reflexivity.
Qed.

Lemma in_graphAfters (items : list Item) (g : string) (c : nat) :
  In c (Topo.graphAfters items g) <->
  exists y, In y items /\ Topo.seq y = c /\ In g (Topo.after y).
Proof.
  unfold Topo.graphAfters. rewrite in_flat_map. split.
  - intros (y & Hy & H). apply in_map_iff in H. destruct H as (g' & E & H).
    apply filter_In in H. destruct H as [H G]. apply String.eqb_eq in G. subst g'.
    exists y. auto.
  - intros (y & Hy & E & H). exists y. split; [assumption|].
    apply in_map_iff. exists g. split; [assumption|].
    apply filter_In. split; [assumption | apply String.eqb_refl].
Qed.

Lemma in_ancestors (items : list Item) (a c : nat) :
  In a (members (Topo.compile_ancestors items c)) <->
  exists x y, In x items /\ In y items /\ Topo.seq x = a /\ Topo.seq y = c /\
              In (Topo.group x) (Topo.after y).
Proof.
  rewrite members_compile, in_flat_map. split.
  - intros (x & Hx & H). apply in_map_iff in H. destruct H as (c' & E & H).
    apply filter_In in H. destruct H as [H C]. apply Nat.eqb_eq in C. subst c'.
    apply in_graphAfters in H. destruct H as (y & Hy & Ey & H).
    exists x, y. auto.
  - intros (x & y & Hx & Hy & Ex & Ey & H). exists x. split; [assumption|].
    apply in_map_iff. exists c. split; [assumption|].
    apply filter_In. split; [|apply Nat.eqb_refl].
    apply in_graphAfters. exists y. auto.
Qed.

Lemma numbered_NoDup (items : list Item) :
  numbered items -> NoDup (map (@Topo.seq Node) items).
Proof.
  intros H. apply Permutation_NoDup with (l := seq 0 (List.length items)).
  - now apply Permutation_sym.
  - apply seq_NoDup.
Qed.

Lemma seq_inj_in (items : list Item) (x y : Item) :
  NoDup (map (@Topo.seq Node) items) ->
  In x items -> In y items -> Topo.seq x = Topo.seq y -> x = y.
Proof.
  induction items as [|z items IH]; simpl; intros N Hx Hy E; [contradiction|].
  inversion N as [|? ? Hz N']; subst.
  destruct Hx as [->|Hx], Hy as [->|Hy]; auto.
  - exfalso. apply Hz. rewrite E. now apply in_map.
  - exfalso. apply Hz. rewrite <- E. now apply in_map.
Qed.

Lemma seqIndex_Some (items : list Item) (s : nat) (it : Item) :
  Topo.seqIndex items s = Some it -> In it items /\ Topo.seq it = s.
Proof.
  unfold Topo.seqIndex. intros H. apply find_some in H. destruct H as [H E].
  apply in_rev in H. apply Nat.eqb_eq in E. auto.
Qed.

Lemma seqIndex_found (items : list Item) (it : Item) :
  NoDup (map (@Topo.seq Node) items) -> In it items ->
  Topo.seqIndex items (Topo.seq it) = Some it.
Proof.
  intros N H. unfold Topo.seqIndex.
  destruct (find _ (rev items)) as [it'|] eqn:F.
  - apply find_some in F. destruct F as [H' E]. apply in_rev in H'. apply Nat.eqb_eq in E.
    f_equal. eapply seq_inj_in; eassumption.
  - apply in_rev in H. pose proof (find_none _ _ F it H) as E. simpl in E.
    rewrite Nat.eqb_refl in E. discriminate.
Qed.

Lemma collect_Some (items : list Item) (ss : list nat) : forall its,
  Topo.collect items ss = Some its ->
  map (@Topo.seq Node) its = ss /\ incl its items.
Proof.
  induction ss as [|s ss IH]; simpl; intros its H.
  - injection H as <-. split; [reflexivity | intros x []].
  - destruct (Topo.seqIndex items s) as [it|] eqn:E; [|discriminate].
    destruct (Topo.collect items ss) as [its'|]; [|discriminate].
    injection H as <-. apply seqIndex_Some in E. destruct E as [Hin <-].
    destruct (IH _ eq_refl) as [M I]. simpl. split; [now f_equal|].
    intros x [<-|Hx]; auto.
Qed.

Lemma collect_map_seq (items l : list Item) :
  NoDup (map (@Topo.seq Node) items) -> incl l items ->
  Topo.collect items (map (@Topo.seq Node) l) = Some l.
Proof.
  intros N. induction l as [|x l IH]; simpl; intros I; [reflexivity|].
  rewrite seqIndex_found; [|assumption|apply I; now left].
  rewrite IH; [reflexivity|]. intros y Hy. apply I. now right.
Qed.

Lemma precedes_map (A B : Type) (f : A -> B) (l : list A) (x y : A) :
  precedes l x y -> precedes (map f l) (f x) (f y).
Proof.
  intros (l1 & l2 & l3 & ->). exists (map f l1), (map f l2), (map f l3).
  now rewrite map_app, map_cons, map_app, map_cons.
Qed.

(** A successful sort permutes the items, publishes their nodes in that
    order and leaves every item after the groups it names. *)
Lemma sort_true (T T' : Topo.t Node) :
  numbered (Topo._items T) ->
  Topo._sort T = Topo.SortTrue T' ->
  Permutation (Topo._items T) (Topo._items T') /\
  Topo.nodes T' = map (@Topo.node Node) (Topo._items T') /\
  ordered (Topo._items T').
Proof.
  intros Hn. unfold Topo._sort.
  set (items := Topo._items T) in *. set (n := List.length items).
  set (st := Topo.loop (seq 0 n) n _).
  destruct (Nat.eqb_spec (List.length (Topo.sorted st)) n) as [L|L]; simpl; [|discriminate].
  destruct (Topo.collect items (Topo.sorted st)) as [its|] eqn:C; [|discriminate].
  intros H. injection H as <-. simpl.
  destruct (@loop_complete n _ st eq_refl L) as [P O].
  apply collect_Some in C. destruct C as [M I].
  pose proof (numbered_NoDup Hn) as N.
  assert (Pits : Permutation its items).
  { apply NoDup_Permutation_bis.
    - apply NoDup_map_inv with (f := @Topo.seq Node). rewrite M.
      apply Permutation_NoDup with (l := seq 0 n); [now apply Permutation_sym | apply seq_NoDup].
    - rewrite <- (length_map (@Topo.seq Node) its), M, L. apply Nat.le_refl.
    - exact I. }
  split; [now apply Permutation_sym|]. split; [reflexivity|].
  intros x y Hx Hy G.
  apply in_split in Hy. destruct Hy as (l1 & l2 & E).
  assert (Hx1 : In x l1).
  { assert (Hs : In (Topo.seq x) (map (@Topo.seq Node) l1)).
    { apply (O (map (@Topo.seq Node) l1) (Topo.seq y) (map (@Topo.seq Node) l2)).
      - rewrite <- M, E, map_app. reflexivity.
      - apply in_ancestors. exists x, y.
        split; [apply I; exact Hx|].
        split; [apply I; rewrite E; apply in_elt|]. auto. }
    apply in_map_iff in Hs. destruct Hs as (x' & Ex & Hx').
    assert (x' = x) as <-; [|assumption].
    apply (@seq_inj_in items); auto.
    - apply I. rewrite E. apply in_or_app. now left. }
  apply in_split in Hx1. destruct Hx1 as (l1a & l1b & ->).
  exists l1a, l1b, l2. rewrite E, <- app_assoc. reflexivity.
Qed.

Lemma numbered_snoc (items : list Item) (it : Item) :
  numbered items -> Topo.seq it = List.length items -> numbered (items ++ [it]).
Proof.
  unfold numbered. intros H E.
  rewrite map_app, length_app, seq_app. simpl.
  rewrite E. apply Permutation_app_tail. exact H.
Qed.

Lemma numbered_perm (items items' : list Item) :
  Permutation items items' -> numbered items -> numbered items'.
Proof.
  unfold numbered. intros P H.
  rewrite <- (Permutation_length P).
  eapply Permutation_trans; [|exact H].
  apply Permutation_map. now apply Permutation_sym.
Qed.

(** The effect of a successful [add]. *)
Lemma add_inr (T T' : Topo.t Node) (n : Node) (af : list string) (g : string) :
  numbered (Topo._items T) ->
  Topo.add T n af g = inr T' ->
  numbered (Topo._items T') /\
  Permutation (Topo._items T ++ [Topo.mkItem (List.length (Topo._items T)) af g n])
              (Topo._items T') /\
  Topo.nodes T' = map (@Topo.node Node) (Topo._items T') /\
  ordered (Topo._items T').
Proof.
  intros Hn. unfold Topo.add.
  destruct (Topo._sort _) as [T''| |] eqn:S; try discriminate.
  intros H. injection H as ->.
  assert (Hn' : numbered (Topo._items T ++ [Topo.mkItem (List.length (Topo._items T)) af g n])).
  { now apply numbered_snoc. }
  apply sort_true in S; [|exact Hn'].
  destruct S as (P & Nd & O). simpl in P.
  split; [eapply numbered_perm; eassumption|]. auto.
Qed.

Lemma no_edges_ancestors (items : list Item) (c : nat) :
  no_edges items -> Topo.compile_ancestors items c = None.
Proof.
  intros H. destruct (Topo.compile_ancestors items c) as [l|] eqn:E; [|reflexivity].
  exfalso. destruct l as [|a l].
  - unfold Topo.compile_ancestors in E. destruct (flat_map _ items); discriminate.
  - assert (Ha : In a (members (Topo.compile_ancestors items c))) by (rewrite E; now left).
    apply in_ancestors in Ha. destruct Ha as (x & y & Hx & Hy & _ & _ & G).
    exact (H x y Hx Hy G).
Qed.

Lemma loop_direct n anc0 len : forall i visited sorted,
  (forall j, anc0 j = None) ->
  Topo.sorted (Topo.loop (seq i len) n (Topo.mkSort anc0 visited sorted)) = sorted ++ seq i len.
Proof.
  induction len as [|len IH]; simpl; intros i visited sorted H.
  - now rewrite app_nil_r.
  - unfold Topo.visit. simpl. rewrite H. rewrite IH by assumption.
    rewrite <- app_assoc. reflexivity.
Qed.

(** Without edges the sort keeps the order of insertion. *)
Lemma sort_no_edges (T : Topo.t Node) :
  map (@Topo.seq Node) (Topo._items T) = seq 0 (List.length (Topo._items T)) ->
  no_edges (Topo._items T) ->
  Topo._sort T = Topo.SortTrue (Topo.mk (Topo._items T) (map (@Topo.node Node) (Topo._items T))).
Proof.
  intros E H. unfold Topo._sort.
  rewrite loop_direct by (intros j; now apply no_edges_ancestors).
  simpl. rewrite length_seq, Nat.eqb_refl. simpl.
  rewrite <- E. rewrite collect_map_seq; [reflexivity| |apply incl_refl].
  rewrite E. apply seq_NoDup.
Qed.

Lemma all_visited (v : list nat) (l : list nat) :
  (forall a, In a l -> In a v) ->
  List.length (filter (Topo.is_visited v) l) = List.length l.
Proof.
  intros H. apply filter_all_length. intros a Ha. apply is_visited_In. auto.
Qed.
Lemma none_visited (l : list nat) : filter (Topo.is_visited []) l = [].
Proof. induction l; simpl; auto. Qed.

Lemma loop_two_swapped (anc0 : nat -> option (list nat)) (l : list nat) :
  anc0 0 = Some l -> l <> [] -> (forall a, In a l -> a = 1) -> anc0 1 = None ->
  Topo.sorted (Topo.loop [0; 1] 2 (Topo.mkSort anc0 [] [])) = [1; 0].
Proof.
  intros H0 Hl H1 N1.
  assert (L : Nat.eqb 0 (List.length l) = false).
  { destruct l; [congruence | reflexivity]. }
  assert (V0 : Topo.visit (Topo.mkSort anc0 [] []) 0 2
               = Topo.mkSort (Topo.upd anc0 1 (Some [])) [1] [1]).
  { unfold Topo.visit. cbn [Topo.anc Topo.visited Topo.sorted]. rewrite H0.
    cbn [seq Topo.search Topo.is_visited existsb]. cbv zeta.
    rewrite H0. cbv iota beta. rewrite H0, none_visited. cbn [List.length]. rewrite L.
    rewrite N1. cbv iota beta. unfold Topo.upd at 1 2. cbn. reflexivity. }
  cbn [Topo.loop]. rewrite V0.
  unfold Topo.visit. cbn [Topo.anc Topo.visited Topo.sorted].
  unfold Topo.upd at 1. cbn [Nat.eqb].
  cbn [seq Topo.search Topo.is_visited existsb Nat.eqb orb]. cbv zeta.
  assert (U0 : Topo.upd anc0 1 (Some []) 0 = Some l) by exact H0.
  rewrite U0. cbv iota beta. rewrite U0.
  rewrite all_visited, Nat.eqb_refl; [reflexivity|].
  intros a Ha. rewrite (H1 a Ha). now left.
Qed.

Lemma loop_two_ordered (anc0 : nat -> option (list nat)) (l : list nat) :
  anc0 0 = None -> anc0 1 = Some l -> (forall a, In a l -> a = 0) ->
  Topo.sorted (Topo.loop [0; 1] 2 (Topo.mkSort anc0 [] [])) = [0; 1].
Proof.
  intros N0 H1 Hl.
  assert (V0 : Topo.visit (Topo.mkSort anc0 [] []) 0 2 = Topo.mkSort anc0 [0] [0]).
  { unfold Topo.visit. cbn [Topo.anc Topo.visited Topo.sorted]. now rewrite N0. }
  cbn [Topo.loop]. rewrite V0.
  unfold Topo.visit. cbn [Topo.anc Topo.visited Topo.sorted]. rewrite H1.
  cbn [seq Topo.search Topo.is_visited existsb Nat.eqb orb]. cbv zeta.
  rewrite H1. cbv iota beta. rewrite H1.
  rewrite all_visited, Nat.eqb_refl; [reflexivity|].
  intros a Ha. rewrite (Hl a Ha). now left.
Qed.

Lemma ancestors_none (items : list Item) (c : nat) :
  (forall x y, In x items -> In y items -> Topo.seq y = c ->
     ~ In (Topo.group x) (Topo.after y)) ->
  Topo.compile_ancestors items c = None.
Proof.
  intros H. destruct (Topo.compile_ancestors items c) as [l|] eqn:E; [|reflexivity].
  exfalso. destruct l as [|a l].
  - unfold Topo.compile_ancestors in E. destruct (flat_map _ items); discriminate.
  - assert (Ha : In a (members (Topo.compile_ancestors items c))) by (rewrite E; now left).
    apply in_ancestors in Ha. destruct Ha as (x & y & Hx & Hy & _ & Ey & G).
    exact (H x y Hx Hy Ey G).
Qed.

Lemma ancestors_some (items : list Item) (a c : nat) :
  In a (members (Topo.compile_ancestors items c)) ->
  exists l, Topo.compile_ancestors items c = Some l /\ l <> [].
Proof.
  destruct (Topo.compile_ancestors items c) as [l|]; simpl; [|contradiction].
  intros H. exists l. split; [reflexivity|]. intros ->. contradiction.
Qed.

Section Two.
Variables (ax ay : list string) (gx gy : string) (nx ny : Node).
Let x : Item := Topo.mkItem 0 ax gx nx.
Let y : Item := Topo.mkItem 1 ay gy ny.
Hypothesis Hxx : ~ In gx ax.
Hypothesis Hyy : ~ In gy ay.

Lemma sort_two_swapped (ns : list Node) :
  In gy ax -> ~ In gx ay ->
  Topo._sort (Topo.mk [x; y] ns) = Topo.SortTrue (Topo.mk [y; x] [ny; nx]).
Proof.
  intros Hyx Hxy. unfold Topo._sort. cbn [Topo._items List.length seq].
  destruct (@ancestors_some [x; y] 1 0) as (l & E0 & Hl).
  { apply in_ancestors. exists y, x. simpl. auto 6. }
  rewrite (@loop_two_swapped _ l); [reflexivity | exact E0 | exact Hl | |].
  - intros a Ha.
    assert (Ha' : In a (members (Topo.compile_ancestors [x; y] 0))) by now rewrite E0.
    apply in_ancestors in Ha'. destruct Ha' as (u & v & Hu & Hv & <- & Ev & G).
    simpl in Hu, Hv.
    destruct Hv as [<-|[<-|[]]]; [|discriminate].
    destruct Hu as [<-|[<-|[]]]; [contradiction | reflexivity].
  - apply ancestors_none. intros u v Hu Hv Ev G. simpl in Hu, Hv.
    destruct Hv as [<-|[<-|[]]]; [discriminate|].
    destruct Hu as [<-|[<-|[]]]; contradiction.
Qed.

Lemma sort_two_ordered (ns : list Node) :
  In gx ay -> ~ In gy ax ->
  Topo._sort (Topo.mk [x; y] ns) = Topo.SortTrue (Topo.mk [x; y] [nx; ny]).
Proof.
  intros Hxy Hyx. unfold Topo._sort. cbn [Topo._items List.length seq].
  destruct (@ancestors_some [x; y] 0 1) as (l & E1 & Hl).
  { apply in_ancestors. exists x, y. simpl. auto 6. }
  rewrite (@loop_two_ordered _ l); [reflexivity | | exact E1 |].
  - apply ancestors_none. intros u v Hu Hv Ev G. simpl in Hu, Hv.
    destruct Hv as [<-|[<-|[]]]; [|discriminate].
    destruct Hu as [<-|[<-|[]]]; contradiction.
  - intros a Ha.
    assert (Ha' : In a (members (Topo.compile_ancestors [x; y] 1))) by now rewrite E1.
    apply in_ancestors in Ha'. destruct Ha' as (u & v & Hu & Hv & <- & Ev & G).
    simpl in Hu, Hv.
    destruct Hv as [<-|[<-|[]]]; [discriminate|].
    destruct Hu as [<-|[<-|[]]]; [reflexivity | contradiction].
Qed.
End Two.

End TopoFacts.
End TopoFacts.

(** ** keys() *)

Module KeysFacts.
Import TopoFacts.

Section KeysFacts.
Variable Raw : Type.
Variable Cast_schema : Raw -> Thrown + Schema.

Lemma add_untouched_add_all (cs : list Child) (declared : list string) :
  forall topo,
  add_untouched cs declared topo = add_all (untouched (Some cs) declared) topo.
Proof.
  induction cs as [|c cs IH]; simpl; intros topo; [reflexivity|].
  destruct (negb (includes declared (key c))); simpl.
  - destruct (Topo.add _ _ _ _); [reflexivity | apply IH].
  - apply IH.
Qed.

Lemma add_declared_add_all (fields : list (string * Raw)) (declared : list string) :
  forall topo topo',
  add_declared Cast_schema fields declared topo = inr topo' ->
  exists cs, cast_all Cast_schema fields declared = Some cs /\ add_all cs topo = inr topo'.
Proof.
  induction declared as [|k ks IH]; simpl; intros topo topo' H.
  - exists []. split; [reflexivity | assumption].
  - destruct (Obj.lookup fields k) as [r|]; [|discriminate].
    destruct (Cast_schema r) as [e|cast]; [discriminate|].
    destruct (Topo.add topo _ _ _) as [e|topo1] eqn:A; [discriminate|].
    apply IH in H. destruct H as (cs & C & H). rewrite C.
    exists (mkChild k cast :: cs). split; [reflexivity|].
    simpl. rewrite A. exact H.
Qed.

Lemma add_all_declared (fields : list (string * Raw)) (declared : list string) :
  forall cs topo topo',
  cast_all Cast_schema fields declared = Some cs -> add_all cs topo = inr topo' ->
  add_declared Cast_schema fields declared topo = inr topo'.
Proof.
  induction declared as [|k ks IH]; simpl; intros cs topo topo' C H.
  - injection C as <-. exact H.
  - destruct (Obj.lookup fields k) as [r|]; [|discriminate].
    destruct (Cast_schema r) as [e|cast]; [discriminate|].
    destruct (cast_all Cast_schema fields ks) as [cs'|]; [|discriminate].
    injection C as <-. simpl in H.
    destruct (Topo.add topo _ _ _) as [e|topo1]; [discriminate|].
    eapply IH; [reflexivity | exact H].
Qed.

Lemma cast_all_In (fields : list (string * Raw)) (declared : list string) :
  forall cs k r s,
  cast_all Cast_schema fields declared = Some cs -> In k declared ->
  Obj.lookup fields k = Some r -> Cast_schema r = inr s -> In (mkChild k s) cs.
Proof.
  induction declared as [|k' ks IH]; simpl; intros cs k r s C Hk L E; [contradiction|].
  destruct (Obj.lookup fields k') as [r'|] eqn:L'; [|discriminate].
  destruct (Cast_schema r') as [e|cast] eqn:E'; [discriminate|].
  destruct (cast_all Cast_schema fields ks) as [cs'|]; [|discriminate].
  injection C as <-. destruct Hk as [->|Hk].
  - left. congruence.
  - right. eapply IH; eauto.
Qed.

Lemma cast_all_length (fields : list (string * Raw)) (declared : list string) :
  forall cs, cast_all Cast_schema fields declared = Some cs -> List.length cs = List.length declared.
Proof.
  induction declared as [|k ks IH]; simpl; intros cs C.
  - now injection C as <-.
  - destruct (Obj.lookup fields k) as [r|]; [|discriminate].
    destruct (Cast_schema r) as [e|cast]; [discriminate|].
    destruct (cast_all Cast_schema fields ks) as [cs'|]; [|discriminate].
    injection C as <-. simpl. f_equal. now apply IH.
Qed.

End KeysFacts.

Lemma items_from_app (cs1 cs2 : list Child) : forall s,
  items_from s (cs1 ++ cs2) = items_from s cs1 ++ items_from (s + List.length cs1) cs2.
Proof.
  induction cs1 as [|c cs1 IH]; simpl; intros s.
  - now rewrite Nat.add_0_r.
  - rewrite IH. do 3 f_equal. lia.
Qed.

Lemma items_from_length (cs : list Child) : forall s,
  List.length (items_from s cs) = List.length cs.
Proof. induction cs; simpl; intros; [reflexivity | now f_equal]. Qed.

Lemma items_from_node (cs : list Child) : forall s,
  map (@Topo.node Child) (items_from s cs) = cs.
Proof. induction cs; simpl; intros; [reflexivity | now f_equal]. Qed.

Lemma items_from_seq (cs : list Child) : forall s,
  map (@Topo.seq Child) (items_from s cs) = seq s (List.length cs).
Proof. induction cs; simpl; intros; [reflexivity | now f_equal]. Qed.

Lemma items_from_labelled (cs : list Child) : forall s it,
  In it (items_from s cs) ->
  Topo.after it = roots (schema (Topo.node it)) /\ Topo.group it = key (Topo.node it).
Proof.
  induction cs as [|c cs IH]; simpl; intros s it H; [contradiction|].
  destruct H as [<-|H]; [now split | eauto].
Qed.

(** What a run of successful insertions leaves in the graph. *)
Lemma add_all_inr (cs : list Child) : forall topo topo',
  numbered (Topo._items topo) ->
  add_all cs topo = inr topo' ->
  numbered (Topo._items topo') /\
  Permutation (Topo._items topo ++ items_from (List.length (Topo._items topo)) cs)
              (Topo._items topo') /\
  (cs <> [] -> Topo.nodes topo' = map (@Topo.node Child) (Topo._items topo') /\
               ordered (Topo._items topo')).
Proof.
  induction cs as [|c cs IH]; simpl; intros topo topo' Hn H.
  - injection H as <-. rewrite app_nil_r. split; [assumption|].
    split; [apply Permutation_refl | congruence].
  - destruct (Topo.add topo c _ _) as [e|topo1] eqn:A; [discriminate|].
    apply add_inr in A; [|assumption]. destruct A as (Hn1 & P1 & Nd1 & O1).
    destruct (IH _ _ Hn1 H) as (Hn' & P' & R').
    split; [assumption|]. split.
    + eapply Permutation_trans; [|exact P'].
      rewrite <- (Permutation_length P1), length_app. simpl.
      change (item_of ?s c :: ?l) with ([item_of s c] ++ l).
      rewrite app_assoc. rewrite Nat.add_1_r.
      apply Permutation_app_tail. exact P1.
    + intros _. destruct cs as [|c' cs].
      * simpl in H. injection H as <-. auto.
      * apply R'. discriminate.
Qed.

Lemma add_all_reference_free (cs : list Child) : forall topo,
  map (@Topo.seq Child) (Topo._items topo) = seq 0 (List.length (Topo._items topo)) ->
  no_edges (Topo._items topo ++ items_from (List.length (Topo._items topo)) cs) ->
  exists topo',
    add_all cs topo = inr topo' /\
    Topo._items topo' = Topo._items topo ++ items_from (List.length (Topo._items topo)) cs /\
    (cs <> [] -> Topo.nodes topo' = map (@Topo.node Child) (Topo._items topo')).
Proof.
  induction cs as [|c cs IH]; simpl; intros topo E H.
  - exists topo. rewrite app_nil_r. split; [reflexivity|]. split; [reflexivity | congruence].
  - unfold Topo.add.
    set (items1 := Topo._items topo ++ [Topo.mkItem (List.length (Topo._items topo))
                                         (roots (schema c)) (key c) c]).
    assert (E1 : map (@Topo.seq Child) items1 = seq 0 (List.length items1)).
    { unfold items1. rewrite map_app, length_app, seq_app, E. reflexivity. }
    assert (H1 : no_edges items1).
    { intros x y Hx Hy. apply H; apply in_app_iff.
      - apply in_app_iff in Hx. destruct Hx as [Hx|[<-|[]]]; [now left | right; now left].
      - apply in_app_iff in Hy. destruct Hy as [Hy|[<-|[]]]; [now left | right; now left]. }
    rewrite (@sort_no_edges Child (Topo.mk items1 (Topo.nodes topo)) E1 H1). simpl.
    destruct (IH (Topo.mk items1 (map (@Topo.node Child) items1))) as (topo' & A & I & Nd).
    + exact E1.
    + simpl. unfold items1 at 1. rewrite <- app_assoc. simpl.
      unfold items1. rewrite length_app. simpl. rewrite Nat.add_1_r. exact H.
    + exists topo'. split; [exact A|]. simpl in I. split.
      * rewrite I. unfold items1. rewrite <- app_assoc, length_app. simpl.
        rewrite Nat.add_1_r. reflexivity.
      * intros _. destruct cs as [|c' cs].
        { simpl in A. injection A as <-. reflexivity. }
        { apply Nd. discriminate. }
Qed.

Section KeysTheorems.
Variable Raw : Type.
Variable Cast_schema : Raw -> Thrown + Schema.

Lemma untouched_run (this : ObjectSchema) (declared : list string) (topo : Topo.t Child) :
  match children this with
  | Some cs => add_untouched cs declared topo
  | None => inr topo
  end = add_all (untouched (children this) declared) topo.
Proof.
  destruct (children this) as [cs|]; [apply add_untouched_add_all | reflexivity].
Qed.

Lemma lookup_keys (A : Type) (o : list (string * A)) (k : string) (v : A) :
  Obj.lookup o k = Some v -> In k (Obj.keys o).
Proof.
  induction o as [|[k' v'] o IH]; simpl; [discriminate|].
  destruct (String.eqb_spec k' k) as [->|N]; [now left | right; auto].
Qed.

(** The children a successful call of [keys] on a non-empty field map
    leaves: the untouched children and the cast declarations, each after
    the children its reference roots name. *)
Lemma keys_inr (this this' : ObjectSchema) (fm : list (string * Raw)) :
  fm <> [] ->
  keys Cast_schema this (Some fm) = inr this' ->
  exists D cs',
    cast_all Cast_schema fm (Obj.keys fm) = Some D /\
    this' = with_children this (Some cs') /\
    Permutation (untouched (children this) (Obj.keys fm) ++ D) cs' /\
    roots_first cs'.
Proof.
  intros Hfm. unfold keys.
  destruct (Nat.eqb_spec (List.length (Obj.keys fm)) 0) as [L|L].
  { destruct fm; [congruence | discriminate]. }
  rewrite untouched_run.
  set (U := untouched (children this) (Obj.keys fm)).
  destruct (add_all U (Topo.empty Child)) as [e|topo1] eqn:A1; [discriminate|].
  destruct (add_declared Cast_schema fm (Obj.keys fm) topo1) as [e|topo2] eqn:A2; [discriminate|].
  intros H. injection H as <-.
  apply add_declared_add_all in A2. destruct A2 as (D & C & A2).
  assert (N0 : numbered (Topo._items (Topo.empty Child))) by apply Permutation_refl.
  destruct (@add_all_inr _ _ _ N0 A1) as (N1 & P1 & _). simpl in P1.
  destruct (@add_all_inr _ _ _ N1 A2) as (N2 & P2 & R2).
  assert (HD : D <> []).
  { intros ->. apply cast_all_length in C. simpl in C. congruence. }
  destruct (R2 HD) as [Nd O].
  assert (P : Permutation (items_from 0 (U ++ D)) (Topo._items topo2)).
  { eapply Permutation_trans; [|exact P2].
    rewrite items_from_app. simpl.
    rewrite <- (Permutation_length P1), items_from_length.
    apply Permutation_app_tail. exact P1. }
  exists D, (Topo.nodes topo2). split; [exact C|]. split; [reflexivity|]. split.
  - rewrite Nd, <- (items_from_node (U ++ D) 0). now apply Permutation_map.
  - rewrite Nd. intros x y Hx Hy G.
    apply in_map_iff in Hx. destruct Hx as (ix & <- & Hx).
    apply in_map_iff in Hy. destruct Hy as (iy & <- & Hy).
    apply precedes_map. apply O; [assumption..|].
    destruct (@items_from_labelled (U ++ D) 0 ix) as [_ ->].
    { eapply Permutation_in; [apply Permutation_sym; exact P | exact Hx]. }
    destruct (@items_from_labelled (U ++ D) 0 iy) as [-> _].
    { eapply Permutation_in; [apply Permutation_sym; exact P | exact Hy]. }
    exact G.
Qed.

(** A field [b] that refers to a field [a], and nothing else in the way:
    [keys] returns [a] before [b] for either order of the field map. *)
Lemma keys_two_fields (this : ObjectSchema) (fm : list (string * Raw))
  (a b : string) (ra rb : Raw) (sa sb : Schema) :
  children this = None ->
  fm = [(b, rb); (a, ra)] \/ fm = [(a, ra); (b, rb)] ->
  Cast_schema ra = inr sa -> Cast_schema rb = inr sb ->
  In a (roots sb) -> ~ In b (roots sb) ->
  ~ In a (roots sa) -> ~ In b (roots sa) ->
  keys Cast_schema this (Some fm)
  = inr (with_children this (Some [mkChild a sa; mkChild b sb])).
Proof.
  intros Hc Hfm Ea Eb Gab Gbb Gaa Gba.
  assert (Hab : a <> b) by (intros ->; contradiction).
  assert (Eab : String.eqb a b = false) by now apply String.eqb_neq.
  assert (Eba : String.eqb b a = false) by (apply String.eqb_neq; congruence).
  unfold keys. rewrite Hc.
  destruct Hfm as [-> | ->]; cbn [Obj.keys map fst List.length Nat.eqb add_declared Obj.lookup];
    rewrite ?String.eqb_refl, ?Eab, ?Eba, ?Ea, ?Eb.
  - unfold Topo.add at 1. cbn [Topo._items Topo.empty app List.length Topo.nodes].
    rewrite sort_no_edges; [| reflexivity | intros x y [<-|[]] [<-|[]]; exact Gbb].
    cbn [Topo._items map Topo.node].
    unfold Topo.add. cbn [Topo._items app List.length Topo.nodes].
    rewrite (@sort_two_swapped Child (roots sb) (roots sa) b a _ _ Gbb Gaa _ Gab Gba).
    reflexivity.
  - unfold Topo.add at 1. cbn [Topo._items Topo.empty app List.length Topo.nodes].
    rewrite sort_no_edges; [| reflexivity | intros x y [<-|[]] [<-|[]]; exact Gaa].
    cbn [Topo._items map Topo.node].
    unfold Topo.add. cbn [Topo._items app List.length Topo.nodes].
    rewrite (@sort_two_ordered Child (roots sa) (roots sb) a b _ _ Gaa Gbb _ Gab Gba).
    reflexivity.
Qed.

(** C1: when [keys] composes a field [b] whose schema holds a reference
    with root [a] together with a field [a], the resulting children place
    [a] before [b], wherever the two fields stand in the field map. When
    the two fields are all there is to compose and refer to nothing else
    among them, [keys] does return, with [a] first and [b] second. *)
Theorem keys_reference_before (this : ObjectSchema) (fm : list (string * Raw))
  (a b : string) (ra rb : Raw) (sa sb : Schema) :
  Obj.lookup fm a = Some ra -> Cast_schema ra = inr sa ->
  Obj.lookup fm b = Some rb -> Cast_schema rb = inr sb ->
  In a (roots sb) ->
  (forall this', keys Cast_schema this (Some fm) = inr this' ->
     exists cs, children this' = Some cs /\
                precedes cs (mkChild a sa) (mkChild b sb) /\
                precedes (map key cs) a b) /\
  (children this = None ->
   Obj.keys fm = [b; a] \/ Obj.keys fm = [a; b] ->
   ~ In b (roots sb) -> ~ In a (roots sa) -> ~ In b (roots sa) ->
   keys Cast_schema this (Some fm)
   = inr (with_children this (Some [mkChild a sa; mkChild b sb]))).
Proof.
  intros La Ea Lb Eb G. split.
  - intros this' H.
    assert (Hfm : fm <> []) by (intros ->; discriminate).
    destruct (@keys_inr _ _ _ Hfm H) as (D & cs & C & -> & P & O).
    exists cs. split; [reflexivity|].
    assert (Ha : In (mkChild a sa) cs).
    { eapply Permutation_in; [exact P|]. apply in_or_app. right.
      eapply cast_all_In; eauto using lookup_keys. }
    assert (Hb : In (mkChild b sb) cs).
    { eapply Permutation_in; [exact P|]. apply in_or_app. right.
      eapply cast_all_In; eauto using lookup_keys. }
    assert (Pr : precedes cs (mkChild a sa) (mkChild b sb)) by (apply O; assumption).
    split; [exact Pr|]. apply (precedes_map key) in Pr. exact Pr.
  - intros Hc Hk Gbb Gaa Gba.
    assert (Hab : a <> b) by (intros ->; contradiction).
    apply keys_two_fields with (ra := ra) (rb := rb); try assumption.
    destruct fm as [|[k1 v1] [|[k2 v2] [|? ?]]];
      try (destruct Hk; discriminate).
    simpl in La, Lb.
    destruct Hk as [Hk|Hk]; injection Hk as -> ->; [left | right].
    + rewrite String.eqb_refl in Lb. injection Lb as ->.
      destruct (String.eqb_spec b a) as [E|_]; [congruence|].
      rewrite String.eqb_refl in La. now injection La as ->.
    + rewrite String.eqb_refl in La. injection La as ->.
      destruct (String.eqb_spec a b) as [E|_]; [congruence|].
      rewrite String.eqb_refl in Lb. now injection Lb as ->.
Qed.

Lemma reference_free_no_edges (cs : list Child) :
  reference_free cs -> no_edges (items_from 0 cs).
Proof.
  intros H x y Hx Hy G.
  destruct (items_from_labelled _ _ _ Hx) as [_ Gx].
  destruct (items_from_labelled _ _ _ Hy) as [Ay _].
  rewrite Gx, Ay in G. revert G. apply H.
  - rewrite <- (items_from_node cs 0). now apply in_map.
  - rewrite <- (items_from_node cs 0). now apply in_map.
Qed.

(** Without references between the children, [keys] succeeds and lists the
    untouched children first, then the declarations in field-map order. *)
Lemma keys_reference_free (this : ObjectSchema) (fm : list (string * Raw)) (D : list Child) :
  fm <> [] ->
  cast_all Cast_schema fm (Obj.keys fm) = Some D ->
  reference_free (untouched (children this) (Obj.keys fm) ++ D) ->
  keys Cast_schema this (Some fm) =
  inr (with_children this (Some (untouched (children this) (Obj.keys fm) ++ D))).
Proof.
  intros Hfm C F. unfold keys.
  destruct (Nat.eqb_spec (List.length (Obj.keys fm)) 0) as [L|L].
  { destruct fm; [congruence | discriminate]. }
  rewrite untouched_run.
  set (U := untouched (children this) (Obj.keys fm)) in *.
  apply reference_free_no_edges in F. rewrite items_from_app in F. simpl in F.
  destruct (@add_all_reference_free U (Topo.empty Child)) as (topo1 & A1 & I1 & _).
  { reflexivity. }
  { simpl. intros x y Hx Hy. apply F; apply in_or_app; now left. }
  rewrite A1. simpl in I1.
  destruct (@add_all_reference_free D topo1) as (topo2 & A2 & I2 & Nd).
  { rewrite I1, items_from_seq, items_from_length. reflexivity. }
  { rewrite I1, items_from_length. exact F. }
  rewrite (@add_all_declared _ _ _ _ _ _ _ C A2).
  assert (HD : D <> []).
  { intros ->. apply cast_all_length in C. simpl in C. congruence. }
  rewrite (Nd HD), I2, I1, items_from_length, map_app, !items_from_node. reflexivity.
Qed.

(** C2, as amended: [keys] drops each existing child that the field map
    declares again and inserts the declarations anew, after the untouched
    children: the result is a permutation of the untouched children
    followed by the declarations in which every child stands after the
    children its reference roots name, and it is exactly that list when no
    reference names a sibling, so that a key declared again moves behind
    the untouched keys. *)
Theorem keys_redeclared (this : ObjectSchema) (fm : list (string * Raw)) (D : list Child) :
  fm <> [] ->
  cast_all Cast_schema fm (Obj.keys fm) = Some D ->
  (forall this', keys Cast_schema this (Some fm) = inr this' ->
     exists cs, children this' = Some cs /\
                Permutation (untouched (children this) (Obj.keys fm) ++ D) cs /\
                roots_first cs) /\
  (reference_free (untouched (children this) (Obj.keys fm) ++ D) ->
   keys Cast_schema this (Some fm)
   = inr (with_children this (Some (untouched (children this) (Obj.keys fm) ++ D)))).
Proof.
  intros Hfm C. split.
  - intros this' H. destruct (@keys_inr _ _ _ Hfm H) as (D' & cs & C' & -> & P & O).
    rewrite C in C'. injection C' as <-. exists cs. auto.
  - intros F. now apply keys_reference_free.
Qed.

End KeysTheorems.

Lemma keys_reference_before_witness :
  (exists cs,
     children (with_children object (Some [mkChild "a" any; mkChild "b" (referring ["a"])]))
     = Some cs /\
     precedes cs (mkChild "a" any) (mkChild "b" (referring ["a"])) /\
     precedes (map key cs) "a" "b") /\
  keys cast_id object (Some [("b", referring ["a"]); ("a", any)])
  = inr (with_children object (Some [mkChild "a" any; mkChild "b" (referring ["a"])])).
Proof.
  destruct (@keys_reference_before Schema cast_id object
              [("b", referring ["a"]); ("a", any)] "a" "b" any (referring ["a"])
              any (referring ["a"]) eq_refl eq_refl eq_refl eq_refl (or_introl eq_refl))
    as [H1 H2].
  split.
  - apply H1. reflexivity.
  - apply H2; [reflexivity | now left | intros [E|[]]; discriminate | intros [] | intros []].
Defined.

Lemma keys_redeclared_witness :
  (exists cs,
     children (with_children K_then_x
                 (Some [mkChild "x" any; mkChild "K" (referring ["x"])])) = Some cs /\
     Permutation ([mkChild "x" any] ++ [mkChild "K" (referring ["x"])]) cs /\
     roots_first cs) /\
  keys cast_id K_then_x (Some [("K", any); ("n", any)])
  = inr (with_children K_then_x (Some ([mkChild "x" any] ++ [mkChild "K" any; mkChild "n" any]))).
Proof.
  split.
  - apply (@keys_redeclared Schema cast_id K_then_x [("K", referring ["x"])]
             [mkChild "K" (referring ["x"])]); try reflexivity. discriminate.
  - apply (@keys_redeclared Schema cast_id K_then_x [("K", any); ("n", any)]
             [mkChild "K" any; mkChild "n" any]); try reflexivity; [discriminate|].
    intros x y _ Hy. simpl in Hy.
    destruct Hy as [<-|[<-|[<-|[]]]]; simpl; tauto.
Defined.

(** C2 fails as stated: [K] stood before the untouched key [x]; once [K]
    is declared again it stands after [x]. *)
Lemma redeclared_key_moves :
  keys cast_id K_then_x (Some [("K", any)])
  = inr (with_children K_then_x (Some [mkChild "x" any; mkChild "K" any])) /\
  precedes (map key [mkChild "K" any; mkChild "x" any]) "K" "x" /\
  ~ precedes (map key [mkChild "x" any; mkChild "K" any]) "K" "x".
Proof.
  split; [reflexivity|]. split.
  - exists [], [], []. reflexivity.
  - intros (l1 & l2 & l3 & E). simpl in E.
    destruct l1 as [|u [|u' l1]]; simpl in E.
    + discriminate.
    + injection E as _ E. destruct l2; discriminate.
    + injection E as _ _ E. destruct l1; discriminate.
Qed.

End KeysFacts.

Unset Implicit Arguments.

(** ** The validation walk *)

Module WalkFacts.

(** *** Own properties *)

Section ObjFacts.
Variable A : Type.
Implicit Types (o : list (string * A)) (k : string).

Lemma lookup_set_same o k v : Obj.lookup (Obj.set o k v) k = Some v.
Proof.
  induction o as [|[k' v'] o IH]; simpl.
  - now rewrite String.eqb_refl.
  - destruct (String.eqb_spec k' k) as [->|N]; simpl.
    + now rewrite String.eqb_refl.
    + apply String.eqb_neq in N. now rewrite N.
Qed.

Lemma lookup_set_other o k k' v : k' <> k -> Obj.lookup (Obj.set o k v) k' = Obj.lookup o k'.
Proof.
  intros N. induction o as [|[k2 v2] o IH]; simpl.
  - apply not_eq_sym, String.eqb_neq in N. now rewrite N.
  - destruct (String.eqb_spec k2 k) as [->|N2]; simpl.
    + apply not_eq_sym, String.eqb_neq in N. now rewrite N.
    + now rewrite IH.
Qed.

Lemma lookup_delete_same o k : Obj.lookup (Obj.delete o k) k = None.
Proof.
  induction o as [|[k' v'] o IH]; simpl; [reflexivity|].
  destruct (String.eqb_spec k' k) as [->|N]; simpl; [assumption|].
  apply String.eqb_neq in N. now rewrite N.
Qed.

Lemma lookup_delete_other o k k' : k' <> k -> Obj.lookup (Obj.delete o k) k' = Obj.lookup o k'.
Proof.
  intros N. induction o as [|[k2 v2] o IH]; simpl; [reflexivity|].
  destruct (String.eqb_spec k2 k) as [->|N2]; simpl.
  - apply not_eq_sym, String.eqb_neq in N. now rewrite N.
  - now rewrite IH.
Qed.

Lemma lookup_delete_None o k k' : Obj.lookup o k' = None -> Obj.lookup (Obj.delete o k) k' = None.
Proof.
  intros H. destruct (string_dec k' k) as [->|N].
  - apply lookup_delete_same.
  - now rewrite lookup_delete_other.
Qed.

Lemma lookup_In_keys o k : Obj.lookup o k <> None <-> In k (Obj.keys o).
Proof.
  induction o as [|[k' v'] o IH]; simpl; [tauto|].
  destruct (String.eqb_spec k' k) as [->|N].
  - split; [now left | discriminate].
  - rewrite IH. split; [now right | intros [E|H]; [contradiction | assumption]].
Qed.

Lemma lookup_fold_delete_None (l : list string) : forall o k,
  Obj.lookup o k = None ->
  Obj.lookup (fold_left (fun t x => Obj.delete t x) l o) k = None.
Proof.
  induction l as [|x l IH]; simpl; intros o k H; [assumption|].
  apply IH. now apply lookup_delete_None.
Qed.

Lemma lookup_fold_delete (l : list string) : forall o k,
  In k l -> Obj.lookup (fold_left (fun t x => Obj.delete t x) l o) k = None.
Proof.
  induction l as [|x l IH]; simpl; intros o k H; [contradiction|].
  destruct H as [->|H]; [|now apply IH].
  apply lookup_fold_delete_None, lookup_delete_same.
Qed.

Lemma lookup_fold_delete_other (l : list string) : forall o k,
  ~ In k l -> Obj.lookup (fold_left (fun t x => Obj.delete t x) l o) k = Obj.lookup o k.
Proof.
  induction l as [|x l IH]; simpl; intros o k H; [reflexivity|].
  rewrite IH by tauto. apply lookup_delete_other. intros ->. tauto.
Qed.

End ObjFacts.

Lemma get_lookup (o : Props) (k : string) (v : Value) :
  Obj.lookup o k = Some v -> get o k = v.
Proof. unfold get. now intros ->. Qed.

Lemma set_delete_In (l : list string) (k x : string) :
  In x (set_delete l k) <-> In x l /\ x <> k.
Proof.
  unfold set_delete. rewrite filter_In. 
  destruct (String.eqb_spec x k) as [->|N]; simpl; intuition congruence.
Qed.

Lemma set_delete_NoDup (l : list string) (k : string) :
  NoDup l -> NoDup (set_delete l k).
Proof. apply NoDup_filter. Qed.

Lemma includes_In (l : list string) (k : string) : includes l k = true <-> In k l.
Proof.
  unfold includes. rewrite existsb_exists. split.
  - intros (x & H & E). apply String.eqb_eq in E. now subst.
  - intros H. exists k. split; [assumption | apply String.eqb_refl].
Qed.

Lemma Frame_refl P w : Frame P w w.
Proof.
  constructor; auto; try tauto. exists []. now rewrite app_nil_r.
Qed.

Lemma Frame_trans P w1 w2 w3 : Frame P w1 w2 -> Frame P w2 w3 -> Frame P w1 w3.
Proof.
  intros [T1 U1 S1 N1 [e1 E1]] [T2 U2 S2 N2 [e2 E2]]. constructor; auto.
  - intros k H. rewrite T2, T1; auto.
  - intros k H. rewrite U2, U1; tauto.
  - exists (e1 ++ e2). rewrite E2, E1. now rewrite app_assoc.
Qed.

Lemma Frame_weaken (P Q : string -> Prop) w w' :
  (forall k, P k -> Q k) -> Frame P w w' -> Frame Q w w'.
Proof.
  intros H [T U S N E]. constructor; auto.
Qed.

Lemma Frame_for_each (B : Type) (P : string -> Prop) (body : B -> Walk -> Flow Walk)
  (l : list B) :
  (forall x w, In x l -> Frame P w (flow_value (body x w))) ->
  forall w, Frame P w (flow_value (for_each body l w)).
Proof.
  induction l as [|x l IH]; simpl; intros H w; [apply Frame_refl|].
  pose proof (H x w (or_introl eq_refl)) as F.
  destruct (body x w) as [w1|w1]; simpl in *; [|exact F].
  eapply Frame_trans; [exact F|]. apply IH. intros; apply H; now right.
Qed.

Lemma raise_Frame P o es w : Frame P w (flow_value (raise o es w)).
Proof.
  unfold raise. destruct (abortEarly o); simpl; constructor; simpl; auto; try tauto;
    now exists es.
Qed.

Lemma raise_continue o es w :
  abortEarly o = false ->
  raise o es w = Continue (mkWalk (target w) (errs w ++ es) (unprocessed w) (strips w)).
Proof. unfold raise. now intros ->. Qed.

Lemma bind_continue (A : Type) (x : Flow A) (f : A -> Flow A) (a : A) :
  x = Continue a -> bind x f = f a.
Proof. now intros ->. Qed.

Lemma Frame_bind P (x : Flow Walk) (f : Walk -> Flow Walk) w :
  Frame P w (flow_value x) ->
  (forall w1, x = Continue w1 -> Frame P w1 (flow_value (f w1))) ->
  Frame P w (flow_value (bind x f)).
Proof.
  intros F G. destruct x as [w1|w1]; simpl in *; [|exact F].
  eapply Frame_trans; [exact F | now apply G].
Qed.

(** *** The rename engine *)

Section RenameFacts.
Variable state : State.
Variable o : Options.

Lemma rename_checks_errs r c1 c2 ctx renamed w :
  let w' := flow_value (rename_checks state o r c1 c2 ctx renamed w) in
  target w' = target w /\ unprocessed w' = unprocessed w /\ strips w' = strips w /\
  exists es, errs w' = errs w ++ es.
Proof.
  unfold rename_checks, raise.
  destruct (negb (multiple (rename_options r)) && renamed_has renamed (to r)); simpl.
  - destruct (abortEarly o); simpl.
    + repeat split; eauto.
    + destruct (Obj.hasOwn (target w) (to r) && _ && _); simpl.
      * repeat split. eexists. rewrite <- app_assoc. reflexivity.
      * repeat split; eauto.
  - destruct (Obj.hasOwn (target w) (to r) && _ && _); simpl.
    + destruct (abortEarly o); simpl; repeat split; eauto.
    + repeat split. exists []. now rewrite app_nil_r.
Qed.

Lemma rename_checks_continue r c1 c2 ctx renamed w :
  abortEarly o = false ->
  exists w', rename_checks state o r c1 c2 ctx renamed w = Continue w' /\
             target w' = target w.
Proof.
  intros A. unfold rename_checks.
  destruct (negb (multiple (rename_options r)) && renamed_has renamed (to r)).
  - rewrite raise_continue by assumption. simpl.
    destruct (Obj.hasOwn (target w) (to r) && _ && _).
    + rewrite raise_continue by assumption. eauto.
    + eauto.
  - simpl. destruct (Obj.hasOwn (target w) (to r) && _ && _).
    + rewrite raise_continue by assumption. eauto.
    + eauto.
Qed.

Lemma rename_loop_continue rs : forall renamed w,
  abortEarly o = false ->
  exists w', rename_loop state o rs renamed w = Continue w'.
Proof.
  induction rs as [|r rs IH]; simpl; intros renamed w A; [eauto|].
  destruct (from r) as [k|test].
  - unfold rename_key.
    destruct (ignoreUndefined (rename_options r) && is_undefined (get (target w) k)).
    + now apply IH.
    + destruct (rename_checks_continue r "object.rename.multiple" "object.rename.override"
                  [("from", CStr k); ("to", CStr (to r))] renamed w A) as (w1 & -> & _).
      now apply IH.
  - unfold rename_regex.
    destruct (ignoreUndefined (rename_options r) && _).
    + now apply IH.
    + match goal with |- context [rename_checks state o r ?c1 ?c2 ?ctx renamed w] =>
        destruct (rename_checks_continue r c1 c2 ctx renamed w A) as (w1 & -> & _) end.
      now apply IH.
Qed.

End RenameFacts.

(** *** The declared children *)

Section WalkFacts.
Variable this : ObjectSchema.
Variable state : State.
Variable o : Options.

Lemma validate_child_spec child w :
  let f := validate_child this state o child w in
  let w' := flow_value f in
  Frame (fun k => k = key child) w w' /\
  ~ In (key child) (unprocessed w') /\
  (forall x, In x (strips w') <-> In x (strips w) \/
             (x = key child /\ In (key child) (strips w'))) /\
  (forall w1, f = Continue w1 -> flag_strip (schema child) = true ->
              In (key child) (strips w1)) /\
  (abortEarly o = false -> exists w1, f = Continue w1).
Proof.
  assert (U : forall k, k <> key child ->
              (In k (set_delete (unprocessed w) (key child)) <-> In k (unprocessed w))).
  { intros k N. rewrite set_delete_In. tauto. }
  assert (S : forall k, In k (set_delete (unprocessed w) (key child)) -> In k (unprocessed w)).
  { intros k H. apply set_delete_In in H. tauto. }
  assert (D : ~ In (key child) (set_delete (unprocessed w) (key child))).
  { intros H. apply set_delete_In in H. tauto. }
  pose proof (set_delete_NoDup (unprocessed w) (key child)) as Nd.
  unfold validate_child, raise, with_unprocessed, with_target, with_strips. simpl.
  destruct (errors (_validate (schema child) _ _ o)) as [es|];
    [destruct (abortEarly o)|]; simpl.
  - split; [constructor; simpl; eauto|]. split; [exact D|].
    split; [intros x; clear; intuition (subst; auto)|]. split; [discriminate|discriminate].
  - destruct (flag_strip (schema child)); simpl.
    + split; [constructor; simpl; eauto|]. split; [exact D|].
      split; [intros x; rewrite !in_app_iff; simpl; clear; intuition (subst; auto)|].
      split; [|eauto]. intros w1 E _. injection E as <-. simpl.
      apply in_or_app; right; now left.
    + split; [constructor; simpl; eauto|]. split; [exact D|].
      split; [intros x; clear; intuition (subst; auto)|]. split; [discriminate | eauto].
  - assert (E0 : exists es, errs w = errs w ++ es) by (exists []; now rewrite app_nil_r).
    destruct (flag_strip (schema child)); simpl.
    + split.
      { constructor; simpl; eauto. intros k N. now apply lookup_set_other. }
      split; [exact D|].
      split; [intros x; rewrite !in_app_iff; simpl; clear; intuition (subst; auto)|].
      split; [|eauto]. intros w1 E _. injection E as <-. simpl.
      apply in_or_app; right; now left.
    + destruct (is_undefined (value _) && negb (is_undefined _)); simpl.
      * split.
        { constructor; simpl; eauto. intros k N. now apply lookup_set_other. }
        split; [exact D|].
        split; [intros x; rewrite !in_app_iff; simpl; clear; intuition (subst; auto)|].
        split; [discriminate | eauto].
      * destruct (negb (is_undefined (value _))); simpl.
        { split.
          { constructor; simpl; eauto. intros k N. now apply lookup_set_other. }
          split; [exact D|]. split; [intros x; clear; intuition (subst; auto)|]. split; [discriminate | eauto]. }
        { split; [constructor; simpl; eauto|]. split; [exact D|].
          split; [intros x; clear; intuition (subst; auto)|]. split; [discriminate | eauto]. }
Qed.

Lemma children_loop_spec cs : forall w,
  let f := for_each (validate_child this state o) cs w in
  let w' := flow_value f in
  Frame (fun k => In k (map key cs)) w w' /\
  (forall x, In x (strips w') -> In x (strips w) \/ In x (map key cs)) /\
  (forall x, In x (strips w) -> In x (strips w')) /\
  (forall w1, f = Continue w1 -> forall c, In c cs ->
     ~ In (key c) (unprocessed w1) /\
     (flag_strip (schema c) = true -> In (key c) (strips w1))) /\
  (abortEarly o = false -> exists w1, f = Continue w1).
Proof.
  induction cs as [|c cs IH]; intros w; simpl.
  - split; [apply Frame_refl|]. split; [auto|]. split; [auto|].
    split; [intros w1 _ c []|eauto].
  - destruct (validate_child_spec c w) as (F & D & S & St & A).
    destruct (validate_child this state o c w) as [w1|w1] eqn:E; simpl in *.
    + destruct (IH w1) as (F' & S' & M' & C' & A'). split; [|split; [|split; [|split]]].
      * eapply Frame_trans.
        -- eapply Frame_weaken; [|exact F]. simpl. intros k ->. now left.
        -- eapply Frame_weaken; [|exact F']. simpl. intros k H. now right.
      * intros x H. apply S' in H. destruct H as [H|H]; [|right; now right].
        apply S in H. destruct H as [H|[-> _]]; [now left | right; now left].
      * intros x H. apply M'. apply S. now left.
      * intros w2 E2 c' [<-|Hc].
        -- split.
           ++ intros H. apply D. apply (fr_shrink _ _ _ F').
              rewrite E2. exact H.
           ++ intros Fs. pose proof (M' _ (St w1 eq_refl Fs)) as H.
              rewrite E2 in H. exact H.
        -- now apply C'.
      * intros Ab. now apply A'.
    + split; [|split; [|split; [|split]]].
      * eapply Frame_weaken; [|exact F]. simpl. intros k ->. now left.
      * intros x H. apply S in H. destruct H as [H|[-> _]]; [now left | right; now left].
      * intros x H. apply S. now left.
      * discriminate.
      * intros Ab. destruct (A Ab) as (w2 & E2). discriminate.
Qed.

Lemma validate_children_spec w :
  let f := validate_children this state o w in
  Frame (declared_key this) w (flow_value f) /\
  (forall w1 cs, f = Continue w1 -> children this = Some cs -> forall c, In c cs ->
     ~ In (key c) (unprocessed w1) /\
     (flag_strip (schema c) = true -> Obj.lookup (target w1) (key c) = None)) /\
  (abortEarly o = false -> exists w1, f = Continue w1).
Proof.
  unfold validate_children, declared_key. destruct (children this) as [cs|]; simpl.
  - destruct (children_loop_spec cs (with_strips w [])) as (F & S & _ & C & A).
    destruct (for_each (validate_child this state o) cs (with_strips w [])) as [w1|w1] eqn:E;
      simpl in *.
    + split; [|split].
      * destruct F as [T U Sh N Er]. constructor; simpl; auto.
        intros k H. rewrite lookup_fold_delete_other; [auto|].
        intros Hs. apply S in Hs. destruct Hs as [[]|Hs]. contradiction.
      * intros w2 cs' E2 E3 c Hc. injection E2 as <-. injection E3 as <-. simpl.
        destruct (C w1 eq_refl c Hc) as [D St]. split; [exact D|].
        intros Fs. apply lookup_fold_delete. auto.
      * intros _. eexists. reflexivity.
    + split; [|split].
      * destruct F as [T U Sh N Er]. constructor; simpl; auto.
      * discriminate.
      * intros Ab. destruct (A Ab) as (w2 & E2). discriminate.
  - split; [apply Frame_refl|]. split; [discriminate | eauto].
Qed.

Lemma validate_pattern_Frame k item p w :
  Frame (fun x => x = k /\ pattern_matches state o p k = true) w
        (flow_value (validate_pattern this state o k item p w)).
Proof.
  unfold validate_pattern. destruct (pattern_matches state o p k) eqn:M; [|apply Frame_refl].
  assert (F0 : Frame (fun x => x = k /\ true = true) w
                 (with_unprocessed w (set_delete (unprocessed w) k))).
  { constructor; simpl; auto.
    - intros x H. rewrite set_delete_In. split; [tauto|]. intros Hx. split; [assumption|].
      intros ->. tauto.
    - intros x H. apply set_delete_In in H. tauto.
    - apply set_delete_NoDup.
    - exists []. now rewrite app_nil_r. }
  eapply Frame_trans; [exact F0|]. apply Frame_bind.
  - destruct (errors _); [apply raise_Frame | apply Frame_refl].
  - intros w1 _. simpl. constructor; simpl; auto; try tauto.
    + intros x H. apply lookup_set_other. intros ->. tauto.
    + exists []. now rewrite app_nil_r.
Qed.

Lemma key_turn_Frame k item ps w :
  Frame (fun x => x = k /\ matching state o k ps <> []) w
        (flow_value (for_each (validate_pattern this state o k item) ps w)).
Proof.
  apply Frame_for_each. intros p w1 Hp.
  eapply Frame_weaken; [|apply validate_pattern_Frame].
  simpl. intros x [-> M]. split; [reflexivity|].
  intros E. assert (H : In p (matching state o k ps)) by (apply filter_In; auto).
  rewrite E in H. exact H.
Qed.

Lemma key_turn_unmatched k item ps w :
  matching state o k ps = [] -> for_each (validate_pattern this state o k item) ps w = Continue w.
Proof.
  induction ps as [|p ps IH]; simpl; intros H; [reflexivity|].
  unfold matching in H. simpl in H. unfold validate_pattern at 1.
  destruct (pattern_matches state o p k); [discriminate|]. simpl. now apply IH.
Qed.

Lemma validate_patterns_Frame w :
  Frame (fun x => In x (unprocessed w) /\ matching state o x (patterns this) <> []) w
        (flow_value (validate_patterns this state o w)).
Proof.
  unfold validate_patterns. destruct (_ && _); [|apply Frame_refl].
  apply Frame_for_each. intros k w1 Hk.
  eapply Frame_weaken; [|apply key_turn_Frame]. simpl. intros x [-> H]. auto.
Qed.

Lemma for_each_app (B : Type) (body : B -> Walk -> Flow Walk) (l1 l2 : list B) : forall w,
  for_each body (l1 ++ l2) w = bind (for_each body l1 w) (for_each body l2).
Proof.
  induction l1 as [|x l1 IH]; simpl; intros w; [reflexivity|].
  destruct (body x w); simpl; auto.
Qed.

Lemma key_turn_results k item ps : forall w,
  abortEarly o = false ->
  exists results w',
    for_each (validate_pattern this state o k item) ps w = Continue w' /\
    Forall2 (validated_by state o k item) (matching state o k ps) results /\
    errs w' = errs w ++ flat_map reports results /\
    Obj.lookup (target w') k =
      fold_left (fun _ r => Some (value r)) results (Obj.lookup (target w) k) /\
    (results = [] -> w' = w) /\
    (results <> [] -> ~ In k (unprocessed w')).
Proof.
  intros w A. revert w. induction ps as [|p ps IH]; intros w.
  - exists [], w. simpl. rewrite app_nil_r.
    split; [reflexivity|]. split; [constructor|]. repeat split; auto.
  - simpl. unfold matching. simpl. unfold validate_pattern at 1.
    destruct (pattern_matches state o p k) eqn:M.
    + set (w0 := with_unprocessed w (set_delete (unprocessed w) k)).
      set (r := _validate (rule p) item
                  (_state (Some k) (state_path state ++ [k]) [wrap this (target w0)]) o).
      set (w1 := mkWalk (Obj.set (target w) k (value r)) (errs w ++ reports r)
                        (set_delete (unprocessed w) k) (strips w)).
      assert (E : bind (bind (match errors r with
                              | Some es => raise o es w0 | None => Continue w0 end)
                         (fun w => Continue (with_target w (Obj.set (target w) k (value r)))))
                    (for_each (validate_pattern this state o k item) ps)
                  = for_each (validate_pattern this state o k item) ps w1).
      { unfold w1, reports. destruct (errors r) as [es|].
        - rewrite raise_continue by assumption. reflexivity.
        - simpl. rewrite app_nil_r. reflexivity. }
      rewrite E. destruct (IH w1) as (results & w' & F & V & Er & L & _ & U).
      exists (r :: results), w'. split; [exact F|]. split.
      { constructor; [|exact V]. exists (_state (Some k) (state_path state ++ [k])
                                          [wrap this (target w0)]). auto. }
      split. { rewrite Er. simpl. now rewrite app_assoc. }
      split. { rewrite L. simpl. now rewrite lookup_set_same. }
      split; [discriminate|]. intros _.
      destruct results as [|r' results].
      * pose proof (key_turn_Frame k item ps w1) as Fr. rewrite F in Fr. simpl in Fr.
        intros H. apply (fr_shrink _ _ _ Fr) in H. simpl in H.
        apply set_delete_In in H. tauto.
      * apply U. discriminate.
    + simpl. apply IH.
Qed.

Lemma key_turn_continue k item ps w :
  abortEarly o = false ->
  exists w', for_each (validate_pattern this state o k item) ps w = Continue w'.
Proof.
  intros A. destruct (key_turn_results k item ps w A) as (rs & w' & F & _). eauto.
Qed.

Lemma key_turns_continue ps ks : forall w,
  abortEarly o = false ->
  exists w', for_each (fun k w => for_each (validate_pattern this state o k
                                             (get (target w) k)) ps w) ks w = Continue w'.
Proof.
  induction ks as [|k ks IH]; simpl; intros w A; [eauto|].
  destruct (key_turn_continue k (get (target w) k) ps w A) as (w1 & ->). simpl.
  now apply IH.
Qed.

Lemma validate_patterns_continue w :
  abortEarly o = false -> exists w', validate_patterns this state o w = Continue w'.
Proof.
  intros A. unfold validate_patterns. destruct (_ && _); [|eauto].
  now apply key_turns_continue.
Qed.

Lemma key_turns_Frame ps ks w :
  Frame (fun x => In x ks) w
    (flow_value (for_each (fun k w => for_each (validate_pattern this state o k
                                                  (get (target w) k)) ps w) ks w)).
Proof.
  apply Frame_for_each. intros k w1 Hk.
  eapply Frame_weaken; [|apply key_turn_Frame]. simpl. intros x [-> _]. exact Hk.
Qed.

(** The turn of an unprocessed key in the loop over the patterns, when
    errors do not stop the walk. *)
Lemma patterns_phase_key w k :
  abortEarly o = false -> NoDup (unprocessed w) -> In k (unprocessed w) ->
  exists results w',
    validate_patterns this state o w = Continue w' /\
    Forall2 (validated_by state o k (get (target w) k)) (matching state o k (patterns this)) results /\
    (exists es1 es2, errs w' = errs w ++ es1 ++ flat_map reports results ++ es2) /\
    Obj.lookup (target w') k =
      fold_left (fun _ r => Some (value r)) results (Obj.lookup (target w) k) /\
    (results <> [] -> ~ In k (unprocessed w')) /\
    (results = [] -> In k (unprocessed w')).
Proof.
  intros A Nd Hk. unfold validate_patterns.
  destruct (unprocessed w) as [|k0 u0] eqn:Eu; [contradiction|]. rewrite <- Eu in *.
  replace (negb (Nat.eqb (List.length (unprocessed w)) 0)) with true by (rewrite Eu; reflexivity).
  destruct (patterns this) as [|p0 ps0] eqn:Ep.
  { exists [], w. simpl.
    split; [reflexivity|]. split; [constructor|].
    split; [exists [], []; now rewrite !app_nil_r|].
    split; [reflexivity|]. split; [congruence|]. intros _. exact Hk. }
  rewrite <- Ep. replace (negb (Nat.eqb (List.length (patterns this)) 0)) with true
    by (rewrite Ep; reflexivity). simpl.
  apply in_split in Hk. destruct Hk as (l1 & l2 & El). rewrite El in Nd |- *.
  apply NoDup_remove_2 in Nd.
  assert (N1 : ~ In k l1) by (intros H; apply Nd, in_or_app; now left).
  assert (N2 : ~ In k l2) by (intros H; apply Nd, in_or_app; now right).
  rewrite for_each_app.
  destruct (key_turns_continue (patterns this) l1 w A) as (w1 & E1).
  pose proof (key_turns_Frame (patterns this) l1 w) as F1. rewrite E1 in *. simpl in F1.
  simpl. destruct (key_turn_results k (get (target w1) k) (patterns this) w1 A)
    as (results & w2 & E2 & V & Er & L & R0 & R1).
  rewrite E2. simpl.
  destruct (key_turns_continue (patterns this) l2 w2 A) as (w3 & E3).
  pose proof (key_turns_Frame (patterns this) l2 w2) as F3. rewrite E3 in *. simpl in F3.
  assert (G : get (target w1) k = get (target w) k).
  { unfold get. now rewrite (fr_target _ _ _ F1 k N1). }
  exists results, w3. split; [reflexivity|]. split; [now rewrite <- G|]. split.
  { destruct (fr_errs _ _ _ F1) as [es1 Ee1]. destruct (fr_errs _ _ _ F3) as [es2 Ee2].
    exists es1, es2. rewrite Ee2, Er, Ee1. now rewrite <- !app_assoc. }
  split. { rewrite (fr_target _ _ _ F3 k N2), L, (fr_target _ _ _ F1 k N1). reflexivity. }
  split.
  - intros Hr H. apply (R1 Hr). now apply (fr_shrink _ _ _ F3).
  - intros Hr. rewrite (R0 Hr) in *. apply (fr_unprocessed _ _ _ F3 k N2).
    apply (fr_unprocessed _ _ _ F1 k N1). rewrite El. apply in_elt.
Qed.

(** *** The undeclared keys *)

Lemma strip_unknown_keys_Frame w :
  Frame (fun x => In x (unprocessed w)) w (strip_unknown_keys o w).
Proof.
  unfold strip_unknown_keys.
  generalize (match stripUnknown o with
              | SU_unset => false | SU_true => true | SU_object _ objects => objects end).
  intros b. generalize (unprocessed w). intros l. revert w.
  induction l as [|k l IH]; simpl; intros w; [apply Frame_refl|].
  eapply Frame_trans; [|eapply Frame_weaken; [|apply IH]; simpl; intros x H; now right].
  assert (U : forall x, x <> k -> (In x (set_delete (unprocessed w) k) <-> In x (unprocessed w))).
  { intros x N. rewrite set_delete_In. tauto. }
  assert (S : forall x, In x (set_delete (unprocessed w) k) -> In x (unprocessed w)).
  { intros x H. apply set_delete_In in H. tauto. }
  assert (E0 : exists es, errs w = errs w ++ es) by (exists []; now rewrite app_nil_r).
  pose proof (set_delete_NoDup (unprocessed w) k) as Nd.
  destruct b; [|destruct (is_function (get (target w) k))].
  - constructor; simpl; auto; intros x H;
      first [apply lookup_delete_other | apply U]; intros ->; apply H; now left.
  - constructor; simpl; auto; intros x H; apply U; intros ->; apply H; now left.
  - apply Frame_refl.
Qed.

Lemma validate_unknown_Frame w :
  Frame (fun x => In x (unprocessed w)) w (flow_value (validate_unknown this state o w)).
Proof.
  unfold validate_unknown. destruct (_ && _); [|apply Frame_refl].
  match goal with |- context [if ?c then strip_unknown_keys o w else w] =>
    set (w1 := if c then strip_unknown_keys o w else w) end.
  assert (F1 : Frame (fun x => In x (unprocessed w)) w w1).
  { unfold w1. destruct (_ || _); [apply strip_unknown_keys_Frame | apply Frame_refl]. }
  clearbody w1.
  match goal with |- context [if ?c then Continue _ else Continue w1] => destruct c end;
    simpl; [|exact F1].
  eapply Frame_trans; [exact F1|]. constructor; simpl; auto; try tauto. eauto.
Qed.

Lemma validate_unknown_continue w :
  exists w', validate_unknown this state o w = Continue w'.
Proof.
  unfold validate_unknown. destruct (_ && _); [|eauto].
  match goal with |- context [if ?c then Continue _ else Continue _] => destruct c end; eauto.
Qed.

End WalkFacts.

(** *** The dependencies and the whole walk *)

Section BaseFacts.
Variable reach : Value -> list string -> Value.
Variable Joi_reach : ObjectSchema -> string -> option Schema.
Variable this : ObjectSchema.
Variable state : State.
Variable o : Options.

Lemma validate_dependency_Frame dep w :
  let w' := flow_value (validate_dependency reach Joi_reach this state o dep w) in
  Frame (fun _ => False) w w' /\ target w' = target w /\ unprocessed w' = unprocessed w.
Proof.
  unfold validate_dependency.
  destruct (dependencies_method reach Joi_reach (dep_type dep) this dep _ _); simpl.
  - split; [apply raise_Frame|]. unfold raise. destruct (abortEarly o); simpl; auto.
  - split; [apply Frame_refl | auto].
Qed.

Lemma validate_dependencies_Frame w :
  let w' := flow_value (validate_dependencies reach Joi_reach this state o w) in
  Frame (fun _ => False) w w' /\ target w' = target w /\ unprocessed w' = unprocessed w.
Proof.
  unfold validate_dependencies. revert w.
  induction (dependencies this) as [|dep deps IH]; simpl; intros w.
  - split; [apply Frame_refl | auto].
  - destruct (validate_dependency_Frame dep w) as (F & T & U).
    destruct (validate_dependency reach Joi_reach this state o dep w) as [w1|w1]; simpl in *.
    + destruct (IH w1) as (F' & T' & U'). split; [eapply Frame_trans; eassumption|].
      split; congruence.
    + auto.
Qed.

(** After the declared children only keys still unprocessed are touched. *)
Lemma after_patterns_Frame w :
  Frame (fun x => In x (unprocessed w)) w
    (flow_value (bind (validate_unknown this state o w)
                      (validate_dependencies reach Joi_reach this state o))).
Proof.
  apply Frame_bind.
  - apply validate_unknown_Frame.
  - intros w1 _. eapply Frame_weaken; [|apply validate_dependencies_Frame]. simpl. tauto.
Qed.

Lemma after_children_Frame w :
  Frame (fun x => In x (unprocessed w)) w
    (flow_value (bind (bind (validate_patterns this state o w)
                            (validate_unknown this state o))
                      (validate_dependencies reach Joi_reach this state o))).
Proof.
  pose proof (validate_patterns_Frame this state o w) as F.
  apply (Frame_weaken _ (fun x => In x (unprocessed w))) in F; [|simpl; tauto].
  destruct (validate_patterns this state o w) as [w1|w1]; simpl in *; [|exact F].
  eapply Frame_trans; [exact F|].
  eapply Frame_weaken; [|apply after_patterns_Frame].
  simpl. intros x. apply (fr_shrink _ _ _ F).
Qed.

End BaseFacts.

Section BaseTheorems.
Variable reach : Value -> list string -> Value.
Variable Joi_reach : ObjectSchema -> string -> option Schema.
Variable this : ObjectSchema.
Variable state : State.
Variable o : Options.

Abbreviation base := (_base reach Joi_reach this).

Lemma base_accepts value props :
  accepts this value props ->
  base value state o =
  if fast_path this then mkBase value None
  else finish this (flow_value (walk reach Joi_reach this state o props)).
Proof.
  unfold accepts, wrap, _base, fast_path. intros ->.
  destruct (flag_func this); reflexivity.
Qed.

Lemma props_of_wrap t : props_of (wrap this t) = t.
Proof. unfold wrap. destruct (flag_func this); reflexivity. Qed.

Lemma finish_value w : props_of (base_value (finish this w)) = target w.
Proof. apply props_of_wrap. Qed.

Lemma finish_errors w : error_list (finish this w) = errs w.
Proof. unfold error_list, finish. simpl. destruct (errs w); reflexivity. Qed.

Lemma fast_path_shape :
  fast_path this = true ->
  renames this = [] /\ dependencies this = [] /\ children this = None /\ patterns this = [].
Proof.
  unfold fast_path. rewrite !andb_true_iff. intros [[[R D] C] P].
  destruct (renames this); [|discriminate].
  destruct (dependencies this); [|discriminate].
  destruct (children this); [discriminate|].
  destruct (patterns this); [|discriminate]. auto.
Qed.

Lemma shapeless_shape :
  shapeless this = true ->
  dependencies this = [] /\ children this = None /\ patterns this = [].
Proof.
  unfold shapeless. rewrite !andb_true_iff. intros [[C P] D].
  destruct (dependencies this); [|discriminate].
  destruct (children this); [discriminate|].
  destruct (patterns this); [|discriminate]. auto.
Qed.

(** C9: when [abortEarly] is off and a declared child flagged [strip] is
    in the schema, the key of that child is absent from the returned value,
    whether its validation succeeds or fails: the keys to strip are deleted
    after the loop over the children on the error path as well. *)
Theorem strip_applies_on_error value props cs child :
  accepts this value props ->
  abortEarly o = false ->
  children this = Some cs -> In child cs -> flag_strip (schema child) = true ->
  Obj.lookup (props_of (base_value (base value state o))) (key child) = None.
Proof.
  intros Acc A Ecs Hc Fs. rewrite (base_accepts value props Acc).
  assert (Fp : fast_path this = false).
  { unfold fast_path. rewrite Ecs. now rewrite andb_false_r. }
  assert (Sh : shapeless this = false).
  { unfold shapeless. now rewrite Ecs. }
  rewrite Fp, finish_value. unfold walk.
  destruct (rename_loop_continue state o (renames this) [] (mkWalk props [] [] []) A) as (w_r & Er).
  unfold _rename. rewrite Er. simpl. rewrite Sh. unfold validate_declared.
  set (w0 := with_unprocessed w_r _).
  destruct (validate_children_spec this state o w0) as (_ & C & K).
  destruct (K A) as (w_c & Ec). rewrite Ec. simpl.
  destruct (C w_c cs Ec Ecs child Hc) as [U L].
  rewrite (fr_target _ _ _ (after_children_Frame reach Joi_reach this state o w_c) _ U).
  now apply L.
Qed.

Lemma fold_last (rs : list Result) (r : Result) (init : option Value) :
  fold_left (fun _ r => Some (value r)) (rs ++ [r]) init = Some (value r).
Proof. now rewrite fold_left_app. Qed.

Lemma nodup_keys_In (t : Props) (k : string) :
  In k (nodup string_dec (Obj.keys t)) <-> In k (Obj.keys t).
Proof. apply nodup_In. Qed.

(** What the walk does, when errors do not stop it, with a key that no
    declared child takes: every matching pattern validates the value the
    key had, all their errors are reported and the value of the last
    result is what the key holds in the end. *)
Lemma base_patterns_key input props k :
  accepts this input props ->
  abortEarly o = false ->
  In k (Obj.keys (renamed this state o props)) -> ~ declared_key this k ->
  exists results,
    Forall2 (validated_by state o k (get (renamed this state o props) k))
            (matching state o k (patterns this)) results /\
    incl (flat_map reports results) (error_list (base input state o)) /\
    forall rs r, results = rs ++ [r] ->
      Obj.lookup (props_of (base_value (base input state o))) k = Some (value r).
Proof.
  intros Acc A Hk Nk. rewrite (base_accepts input props Acc). unfold renamed in *.
  assert (Empty : patterns this = [] ->
            exists results : list Result,
              Forall2 (validated_by state o k
                         (get (target (flow_value (_rename state o this (mkWalk props [] [] [])))) k))
                      (matching state o k (patterns this)) results /\
              incl (flat_map reports results)
                   (error_list (if fast_path this then mkBase input None
                                else finish this (flow_value (walk reach Joi_reach this state o props)))) /\
              forall rs r, results = rs ++ [r] ->
                Obj.lookup (props_of (base_value
                   (if fast_path this then mkBase input None
                    else finish this (flow_value (walk reach Joi_reach this state o props))))) k
                = Some (value r)).
  { intros ->. exists []. split; [constructor|]. split; [intros x []|].
    intros rs r E. destruct rs; discriminate. }
  destruct (fast_path this) eqn:Fp.
  { apply Empty. now apply fast_path_shape. }
  rewrite finish_value, finish_errors. unfold walk.
  destruct (rename_loop_continue state o (renames this) [] (mkWalk props [] [] []) A) as (w_r & Er).
  unfold _rename in *. rewrite Er in *. simpl in Hk |- *.
  destruct (shapeless this) eqn:Sh.
  { destruct (shapeless_shape Sh) as (_ & _ & P). rewrite P in *.
    exists []. split; [constructor|]. split; [intros x []|].
    intros rs r E. destruct rs; discriminate. }
  unfold validate_declared. set (w0 := with_unprocessed w_r _).
  destruct (validate_children_spec this state o w0) as (F & _ & K).
  destruct (K A) as (w_c & Ec). rewrite Ec in *. simpl in F |- *.
  assert (Nd : NoDup (unprocessed w_c)) by (apply (fr_nodup _ _ _ F); apply NoDup_nodup).
  assert (Hu : In k (unprocessed w_c)).
  { apply (fr_unprocessed _ _ _ F k Nk). simpl. now apply nodup_keys_In. }
  destruct (patterns_phase_key this state o w_c k A Nd Hu)
    as (results & w_p & Ep & V & (es1 & es2 & Ee) & L & U & _).
  rewrite Ep. simpl.
  pose proof (after_patterns_Frame reach Joi_reach this state o w_p) as Fa.
  assert (G : get (target w_c) k = get (target w_r) k).
  { unfold get. now rewrite (fr_target _ _ _ F k Nk). }
  exists results. split; [now rewrite <- G|]. split.
  - destruct (fr_errs _ _ _ Fa) as [es3 ->]. rewrite Ee.
    intros x Hx. rewrite !in_app_iff. auto.
  - intros rs r E. assert (Hr : results <> []) by (rewrite E; destruct rs; discriminate).
    rewrite (fr_target _ _ _ Fa k (U Hr)), L, E. apply fold_last.
Qed.

Lemma pattern_write_unconditional k item p w es :
  abortEarly o = false ->
  pattern_matches state o p k = true ->
  errors (_validate (rule p) item
            (_state (Some k) (state_path state ++ [k]) [wrap this (target w)]) o) = Some es ->
  validate_pattern this state o k item p w
  = Continue (mkWalk (Obj.set (target w) k
                        (value (_validate (rule p) item
                                  (_state (Some k) (state_path state ++ [k])
                                          [wrap this (target w)]) o)))
                     (errs w ++ es) (set_delete (unprocessed w) k) (strips w)).
Proof.
  intros A M E. unfold validate_pattern. rewrite M. simpl. rewrite E.
  rewrite raise_continue by assumption. reflexivity.
Qed.

(** C10, as amended: when [abortEarly] is off and the rule of a matching
    pattern fails on an unprocessed key, the value of the failed result is
    still written to the key and the errors are kept; the key holds that
    value in the returned value unless a later pattern matches it as well,
    whose result is then written over it. *)
Theorem failed_pattern_value_written k p :
  abortEarly o = false ->
  pattern_matches state o p k = true ->
  (forall item w es,
     errors (_validate (rule p) item
               (_state (Some k) (state_path state ++ [k]) [wrap this (target w)]) o)
     = Some es ->
     validate_pattern this state o k item p w
     = Continue (mkWalk (Obj.set (target w) k
                           (value (_validate (rule p) item
                                     (_state (Some k) (state_path state ++ [k])
                                             [wrap this (target w)]) o)))
                        (errs w ++ es) (set_delete (unprocessed w) k) (strips w))) /\
  (forall input props ps1 ps2,
     accepts this input props ->
     In k (Obj.keys (renamed this state o props)) -> ~ declared_key this k ->
     patterns this = ps1 ++ p :: ps2 ->
     matching state o k ps2 = [] ->
     exists r,
       validated_by state o k (get (renamed this state o props) k) p r /\
       Obj.lookup (props_of (base_value (base input state o))) k = Some (value r) /\
       incl (reports r) (error_list (base input state o))).
Proof.
  intros A M. split.
  - intros item w es E. now apply pattern_write_unconditional.
  - intros input props ps1 ps2 Acc Hk Nk Ep M2.
    destruct (base_patterns_key input props k Acc A Hk Nk)
      as (results & V & I & L).
    rewrite Ep in V. unfold matching in V, M2. rewrite filter_app in V. simpl in V.
    rewrite M, M2 in V. apply Forall2_app_inv_l in V.
    destruct V as (rs & rs' & V1 & V2 & ->).
    inversion V2 as [|? r ? rs2 Vp V3]; subst. inversion V3; subst.
    exists r. split; [exact Vp|]. split; [now apply (L rs r)|].
    intros x Hx. apply I. rewrite flat_map_app. apply in_or_app. right.
    simpl. now rewrite app_nil_r.
Qed.

Lemma key_turn_clean k item ps : forall w,
  (forall p st, In p (matching state o k ps) ->
                errors (_validate (rule p) item st o) = None) ->
  exists results w',
    for_each (validate_pattern this state o k item) ps w = Continue w' /\
    Forall2 (validated_by state o k item) (matching state o k ps) results /\
    errs w' = errs w /\
    forall rs r, results = rs ++ [r] -> Obj.lookup (target w') k = Some (value r).
Proof.
  induction ps as [|p ps IH]; intros w H.
  - exists [], w. simpl. split; [reflexivity|]. split; [constructor|].
    split; [reflexivity|]. intros rs r E. destruct rs; discriminate.
  - simpl. unfold matching in *. simpl in H. unfold validate_pattern at 1.
    destruct (pattern_matches state o p k) eqn:M.
    + set (st := _state (Some k) (state_path state ++ [k])
                   [wrap this (target (with_unprocessed w (set_delete (unprocessed w) k)))]).
      rewrite (H p st (or_introl eq_refl)). simpl.
      set (r := _validate (rule p) item st o).
      set (w1 := with_target _ _).
      destruct (IH w1) as (results & w' & F & V & Er & L).
      { intros q st' Hq. apply H. now right. }
      exists (r :: results), w'. split; [exact F|]. split.
      { constructor; [|exact V]. exists st. auto. }
      split; [exact Er|].
      intros rs r' E. destruct rs as [|r0 rs]; simpl in E.
      * injection E as <- ->. inversion V as [Em|]. symmetry in Em.
        rewrite (key_turn_unmatched this state o k item ps w1 Em) in F.
        injection F as <-. simpl. apply lookup_set_same.
      * injection E as <- ->. apply (L rs r'). reflexivity.
    + simpl. apply IH. exact H.
Qed.

(** C3, as amended: with [abortEarly] off, a key left unprocessed by the
    declared children is tested against every pattern in declaration order
    and every pattern that matches applies: the value the key had is
    validated by the rule of each, the errors of all are reported, and the
    key ends with the value of the last result. Under any options the same
    holds of the loop over the patterns as long as no rule reports an
    error. *)
Theorem every_matching_pattern_applies input props k :
  (accepts this input props ->
   abortEarly o = false ->
   In k (Obj.keys (renamed this state o props)) -> ~ declared_key this k ->
   exists results,
     Forall2 (validated_by state o k (get (renamed this state o props) k))
             (matching state o k (patterns this)) results /\
     incl (flat_map reports results) (error_list (base input state o)) /\
     forall rs r, results = rs ++ [r] ->
       Obj.lookup (props_of (base_value (base input state o))) k = Some (value r)) /\
  (forall item w,
   (forall p st, In p (matching state o k (patterns this)) ->
                 errors (_validate (rule p) item st o) = None) ->
   exists results w',
     for_each (validate_pattern this state o k item) (patterns this) w = Continue w' /\
     Forall2 (validated_by state o k item) (matching state o k (patterns this)) results /\
     errs w' = errs w /\
     forall rs r, results = rs ++ [r] -> Obj.lookup (target w') k = Some (value r)).
Proof.
  split.
  - apply base_patterns_key.
  - intros item w H. now apply key_turn_clean.
Qed.

(** *** Undeclared keys *)

Lemma validate_declared_Frame w :
  Frame (fun x => declared_key this x \/ matching state o x (patterns this) <> [])
        (with_unprocessed w (nodup string_dec (Obj.keys (target w))))
        (flow_value (validate_declared this state o w)).
Proof.
  unfold validate_declared. apply Frame_bind.
  - eapply Frame_weaken; [|apply validate_children_spec]. simpl. tauto.
  - intros w1 _. eapply Frame_weaken; [|apply validate_patterns_Frame]. simpl. tauto.
Qed.

Lemma shaped_true : children this <> None \/ patterns this <> [] -> shaped this = true.
Proof.
  unfold shaped. intros [H|H].
  - destruct (children this); [reflexivity | congruence].
  - destruct (patterns this); [congruence|]. simpl. apply orb_true_r.
Qed.

Lemma shaped_not_shapeless : shaped this = true -> shapeless this = false.
Proof.
  unfold shaped, shapeless. destruct (children this); simpl; [reflexivity|].
  destruct (patterns this); simpl; [discriminate | reflexivity].
Qed.

Lemma nonempty_length (A : Type) (l : list A) (x : A) :
  In x l -> negb (Nat.eqb (List.length l) 0) = true.
Proof. destruct l; [contradiction | reflexivity]. Qed.

Lemma unknown_forbidden w c :
  shaped this = true -> In c (unprocessed w) ->
  (match flag_allowUnknown this with Some b => b | None => allowUnknown o end) = false ->
  stripUnknown o = SU_unset -> skipFunctions o = false ->
  validate_unknown this state o w =
  Continue (mkWalk (target w)
                   (errs w ++ map (unknown_error state o (target w)) (unprocessed w))
                   (unprocessed w) (strips w)).
Proof.
  intros Sh Hc Fb Su Sk. unfold validate_unknown. fold (shaped this).
  rewrite (nonempty_length _ _ _ Hc), Sh, Su, Sk, Fb. reflexivity.
Qed.

Lemma unknown_allowed w :
  flag_allowUnknown this = Some true -> skipFunctions o = false ->
  validate_unknown this state o w = Continue w.
Proof.
  intros Fl Sk. unfold validate_unknown. rewrite Fl, Sk.
  destruct (_ && _); [|reflexivity]. simpl. rewrite andb_false_r. reflexivity.
Qed.

Lemma strip_fold_None (l : list string) : forall w k,
  Obj.lookup (target w) k = None ->
  Obj.lookup (target (fold_left
                        (fun w k => mkWalk (Obj.delete (target w) k) (errs w)
                                           (set_delete (unprocessed w) k) (strips w)) l w)) k
  = None.
Proof.
  induction l as [|x l IH]; simpl; intros w k H; [assumption|].
  apply IH. simpl. now apply lookup_delete_None.
Qed.

Lemma strip_all (l : list string) : forall w,
  let w' := fold_left
              (fun w k => mkWalk (Obj.delete (target w) k) (errs w)
                                 (set_delete (unprocessed w) k) (strips w)) l w in
  errs w' = errs w /\ strips w' = strips w /\
  (forall k, In k l -> Obj.lookup (target w') k = None) /\
  (forall k, In k (unprocessed w') -> In k (unprocessed w) /\ ~ In k l).
Proof.
  induction l as [|x l IH]; simpl; intros w.
  - split; [reflexivity|]. split; [reflexivity|]. split; [intros k []|]. intros k H; auto.
  - destruct (IH (mkWalk (Obj.delete (target w) x) (errs w)
                         (set_delete (unprocessed w) x) (strips w))) as (E & S & L & U).
    simpl in *. split; [exact E|]. split; [exact S|]. split.
    + intros k [->|Hk]; [|now apply L].
      apply strip_fold_None. simpl. apply lookup_delete_same.
    + intros k Hk. apply U in Hk. destruct Hk as [Hk Nl].
      apply set_delete_In in Hk. split; [tauto|]. intros [->|H]; tauto.
Qed.

Lemma unknown_stripped w c :
  shaped this = true -> In c (unprocessed w) ->
  flag_allowUnknown this <> Some true ->
  (stripUnknown o = SU_true \/ exists a, stripUnknown o = SU_object a true) ->
  exists w', validate_unknown this state o w = Continue w' /\
             errs w' = errs w /\
             forall k, In k (unprocessed w) -> Obj.lookup (target w') k = None.
Proof.
  intros Sh Hc Fl Su. unfold validate_unknown. fold (shaped this).
  rewrite (nonempty_length _ _ _ Hc), Sh. simpl.
  assert (C : (match stripUnknown o with SU_unset => false | _ => true end)
              && negb (match flag_allowUnknown this with Some true => true | _ => false end)
              || skipFunctions o = true).
  { destruct Su as [->|[a ->]];
      (destruct (flag_allowUnknown this) as [[|]|]; [congruence|reflexivity|reflexivity]). }
  rewrite C. unfold strip_unknown_keys.
  assert (B : match stripUnknown o with
              | SU_unset => false | SU_true => true | SU_object _ objects => objects end = true).
  { destruct Su as [->|[a ->]]; reflexivity. }
  rewrite B. destruct (strip_all (unprocessed w) w) as (E & S & L & U).
  set (w1 := fold_left _ (unprocessed w) w) in *.
  assert (Un : unprocessed w1 = []).
  { destruct (unprocessed w1) as [|x u]; [reflexivity|].
    destruct (U x (or_introl eq_refl)) as [H1 H2]. contradiction. }
  match goal with |- context [if ?c then Continue _ else Continue w1] => destruct c end.
  - eexists. split; [reflexivity|]. simpl. rewrite Un. simpl.
    rewrite app_nil_r. auto.
  - eexists. split; [reflexivity|]. auto.
Qed.

Lemma base_reached input props w_r w_p :
  accepts this input props ->
  _rename state o this (mkWalk props [] [] []) = Continue w_r ->
  validate_declared this state o w_r = Continue w_p ->
  shaped this = true ->
  base input state o =
  finish this (flow_value (bind (validate_unknown this state o w_p)
                                (validate_dependencies reach Joi_reach this state o))).
Proof.
  intros Acc Er Ed Sh. rewrite (base_accepts input props Acc).
  assert (Fp : fast_path this = false).
  { unfold fast_path. unfold shaped in Sh.
    destruct (children this); [now rewrite andb_false_r|].
    destruct (patterns this); [discriminate|]. simpl. apply andb_false_r. }
  rewrite Fp. unfold walk. rewrite Er. simpl.
  rewrite (shaped_not_shapeless Sh), Ed. reflexivity.
Qed.

(** C4, as amended: for a schema with declared children or patterns, when
    the walk reaches the undeclared keys, and for a key [c] of the working
    copy that no declared child and no pattern takes: when undeclared keys
    are neither allowed nor stripped nor skipped, and [abortEarly] is off or
    [c] is the only such key, one error [object.allowUnknown] naming [c] and
    positioned at the path of [c] is reported, among one per undeclared
    key; with [unknown(true)] the key keeps its value and the step reports
    nothing; with [stripUnknown], the schema not allowing undeclared keys,
    the key is deleted and the step reports nothing. *)
Theorem unknown_key_policy input props w_r w_p c :
  accepts this input props ->
  _rename state o this (mkWalk props [] [] []) = Continue w_r ->
  validate_declared this state o w_r = Continue w_p ->
  children this <> None \/ patterns this <> [] ->
  In c (Obj.keys (target w_r)) -> ~ declared_key this c ->
  matching state o c (patterns this) = [] ->
  ((match flag_allowUnknown this with Some b => b | None => allowUnknown o end) = false ->
   stripUnknown o = SU_unset -> skipFunctions o = false ->
   abortEarly o = false \/ (forall c', In c' (unprocessed w_p) -> c' = c) ->
   exists U1 U2 es,
     unprocessed w_p = U1 ++ c :: U2 /\ ~ In c U1 /\ ~ In c U2 /\
     error_list (base input state o) =
       errs w_p ++ map (unknown_error state o (target w_p)) U1
                ++ not_allowed state c (get (target w_r) c)
                   :: map (unknown_error state o (target w_p)) U2 ++ es) /\
  (flag_allowUnknown this = Some true -> skipFunctions o = false ->
   Obj.lookup (props_of (base_value (base input state o))) c = Obj.lookup (target w_r) c /\
   errs (flow_value (validate_unknown this state o w_p)) = errs w_p) /\
  (flag_allowUnknown this <> Some true ->
   stripUnknown o = SU_true \/ (exists a, stripUnknown o = SU_object a true) ->
   Obj.lookup (props_of (base_value (base input state o))) c = None /\
   errs (flow_value (validate_unknown this state o w_p)) = errs w_p).
Proof.
  intros Acc Er Ed Shp Hc Nd Nm.
  pose proof (shaped_true Shp) as Sh.
  rewrite (base_reached input props w_r w_p Acc Er Ed Sh).
  rewrite finish_errors, !finish_value.
  pose proof (validate_declared_Frame w_r) as F. rewrite Ed in F. simpl in F.
  assert (NP : ~ (declared_key this c \/ matching state o c (patterns this) <> [])) by tauto.
  assert (Hu : In c (unprocessed w_p)).
  { apply (fr_unprocessed _ _ _ F c NP). simpl. now apply nodup_keys_In. }
  assert (Lc : Obj.lookup (target w_p) c = Obj.lookup (target w_r) c).
  { apply (fr_target _ _ _ F c NP). }
  assert (N : NoDup (unprocessed w_p)) by (apply (fr_nodup _ _ _ F); apply NoDup_nodup).
  split; [|split].
  - intros Fb Su Sk _.
    rewrite (unknown_forbidden w_p c Sh Hu Fb Su Sk). simpl.
    match goal with |- context [validate_dependencies reach Joi_reach this state o ?w] =>
      destruct (validate_dependencies_Frame reach Joi_reach this state o w) as (Fd & _) end.
    destruct (fr_errs _ _ _ Fd) as [es Ee]. simpl in Ee.
    apply in_split in Hu. destruct Hu as (U1 & U2 & Eu).
    rewrite Eu in N. apply NoDup_remove_2 in N.
    exists U1, U2, es. split; [exact Eu|].
    split; [intros H; apply N, in_or_app; now left|].
    split; [intros H; apply N, in_or_app; now right|].
    rewrite Ee, Eu, map_app. simpl.
    unfold unknown_error at 2, createError, _state, not_allowed. simpl.
    unfold get. rewrite Lc. now rewrite <- !app_assoc.
  - intros Fl Sk. rewrite (unknown_allowed w_p Fl Sk). simpl. split; [|reflexivity].
    destruct (validate_dependencies_Frame reach Joi_reach this state o w_p) as (_ & T & _).
    rewrite T. exact Lc.
  - intros Fl Su. destruct (unknown_stripped w_p c Sh Hu Fl Su) as (w_u & Eu & Ee & L).
    rewrite Eu. simpl. split; [|exact Ee].
    destruct (validate_dependencies_Frame reach Joi_reach this state o w_u) as (_ & T & _).
    rewrite T. now apply L.
Qed.

Lemma dependencies_collected deps : forall w,
  abortEarly o = false ->
  for_each (validate_dependency reach Joi_reach this state o) deps w
  = Continue (mkWalk (target w) (errs w ++ flat_map (dependency_errors reach Joi_reach this state o (target w)) deps)
                     (unprocessed w) (strips w)).
Proof.
  induction deps as [|dep deps IH]; simpl; intros w A.
  - rewrite app_nil_r. now destruct w.
  - unfold validate_dependency at 1, dependency_errors at 1.
    destruct (dependencies_method reach Joi_reach (dep_type dep) this dep _ _) as [failed|].
    + rewrite raise_continue by assumption. simpl. rewrite IH by assumption. simpl.
      now rewrite <- app_assoc.
    + simpl. now rewrite IH.
Qed.

(** When errors do not stop the walk, every dependency is evaluated on the
    value that is returned and its error is among those returned. *)
Lemma base_dependency_reported input props dep :
  accepts this input props ->
  abortEarly o = false ->
  In dep (dependencies this) ->
  incl (dependency_errors reach Joi_reach this state o (props_of (base_value (base input state o))) dep)
       (error_list (base input state o)).
Proof.
  intros Acc A Hd. rewrite (base_accepts input props Acc).
  assert (Dn : negb (Nat.eqb (List.length (dependencies this)) 0) = true).
  { destruct (dependencies this); [contradiction | reflexivity]. }
  apply negb_true_iff in Dn.
  assert (Fp : fast_path this = false).
  { unfold fast_path. rewrite Dn. now rewrite andb_false_r. }
  assert (Sh : shapeless this = false).
  { unfold shapeless. rewrite Dn. apply andb_false_r. }
  rewrite Fp, finish_value, finish_errors. unfold walk.
  destruct (rename_loop_continue state o (renames this) [] (mkWalk props [] [] []) A) as (w_r & Er).
  unfold _rename. rewrite Er. simpl. rewrite Sh. unfold validate_declared.
  destruct (validate_children_spec this state o
              (with_unprocessed w_r (nodup string_dec (Obj.keys (target w_r)))))
    as (_ & _ & K).
  destruct (K A) as (w_c & ->). simpl.
  destruct (validate_patterns_continue this state o w_c A) as (w_p & ->). simpl.
  destruct (validate_unknown_continue this state o w_p) as (w_u & ->). simpl.
  unfold validate_dependencies. rewrite dependencies_collected by assumption. simpl.
  intros e He. apply in_or_app. right. apply in_flat_map. exists dep. auto.
Qed.

End BaseTheorems.

Section DependencyTheorems.
Variable reach : Value -> list string -> Value.
Variable Joi_reach : ObjectSchema -> string -> option Schema.

Lemma is_undefined_false v : v <> VUndefined -> is_undefined v = false.
Proof. destruct v; simpl; congruence. Qed.

Lemma is_undefined_true v : v = VUndefined -> is_undefined v = true.
Proof. now intros ->. Qed.

Lemma xor_evaluated (schema : ObjectSchema) (a b : string) (v parent : Value) :
  (reach parent (split a ".") <> VUndefined -> reach parent (split b ".") <> VUndefined ->
   dependencies_xor reach Joi_reach schema (xor_directive a b) v parent
   = Some (mkFailure "object.xor" (conflict_context Joi_reach schema a b))) /\
  (reach parent (split a ".") = VUndefined -> reach parent (split b ".") = VUndefined ->
   dependencies_xor reach Joi_reach schema (xor_directive a b) v parent
   = Some (mkFailure "object.missing" (missing_context Joi_reach schema a b))) /\
  (reach parent (split a ".") <> VUndefined /\ reach parent (split b ".") = VUndefined \/
   reach parent (split a ".") = VUndefined /\ reach parent (split b ".") <> VUndefined ->
   dependencies_xor reach Joi_reach schema (xor_directive a b) v parent = None).
Proof.
  unfold dependencies_xor, present_peers, xor_directive. simpl.
  split; [|split].
  - intros Ha Hb. rewrite (is_undefined_false _ Ha), (is_undefined_false _ Hb). reflexivity.
  - intros Ha Hb. rewrite (is_undefined_true _ Ha), (is_undefined_true _ Hb). reflexivity.
  - intros [[Ha Hb]|[Ha Hb]].
    + rewrite (is_undefined_false _ Ha), (is_undefined_true _ Hb). reflexivity.
    + rewrite (is_undefined_true _ Ha), (is_undefined_false _ Hb). reflexivity.
Qed.

Lemma validate_declared_open (S : ObjectSchema) (state : State) (o : Options) (w : Walk) :
  children S = None -> patterns S = [] ->
  validate_declared S state o w
  = Continue (with_unprocessed w (nodup string_dec (Obj.keys (target w)))).
Proof.
  intros C P. unfold validate_declared, validate_children, validate_patterns.
  rewrite C, P. simpl. now rewrite andb_false_r.
Qed.

Lemma validate_unknown_open (S : ObjectSchema) (state : State) (o : Options) (w : Walk) :
  children S = None -> patterns S = [] -> validate_unknown S state o w = Continue w.
Proof.
  intros C P. unfold validate_unknown. rewrite C, P. simpl. now rewrite andb_false_r.
Qed.

(** A schema that holds one dependency and nothing else evaluates it on
    the copy of the input. *)
Lemma base_single_dependency (S : ObjectSchema) (dep : Dependency) (props : Props)
  (state : State) (o : Options) :
  renames S = [] -> children S = None -> patterns S = [] -> dependencies S = [dep] ->
  _base reach Joi_reach S (wrap S props) state o =
  finish S (flow_value (validate_dependency reach Joi_reach S state o dep
                          (mkWalk props [] (nodup string_dec (Obj.keys props)) []))).
Proof.
  intros R C P D.
  rewrite (base_accepts reach Joi_reach S state o (wrap S props) props eq_refl).
  unfold fast_path, walk, _rename, shapeless, validate_dependencies.
  rewrite R, C, P, D. simpl.
  rewrite (validate_declared_open S state o _ C P). simpl.
  rewrite (validate_unknown_open S state o _ C P). simpl.
  destruct (validate_dependency _ _ _ _ _ _ _); reflexivity.
Qed.

Lemma base_value_wrap this state o input props :
  accepts this input props ->
  base_value (_base reach Joi_reach this input state o)
  = wrap this (props_of (base_value (_base reach Joi_reach this input state o))).
Proof.
  intros Acc. rewrite (base_accepts reach Joi_reach this state o input props Acc).
  destruct (fast_path this).
  - simpl. rewrite Acc at 1. now rewrite Acc, props_of_wrap.
  - now rewrite finish_value.
Qed.

(** C6: [xor(a, b)] appends a directive whose evaluation yields the
    conflict [object.xor] naming both peers when both paths resolve to a
    defined value, [object.missing] listing both when neither does, and
    nothing when exactly one does; when errors do not stop the walk the
    error is among those returned for the value returned, and a schema that
    holds this dependency alone returns exactly that. *)
Theorem xor_dependency (a b : string) (state : State) (o : Options) :
  (forall this,
     dependencies (xor this [a; b]) = dependencies this ++ [xor_directive a b]) /\
  (forall schema v parent,
     (reach parent (split a ".") <> VUndefined -> reach parent (split b ".") <> VUndefined ->
      dependencies_xor reach Joi_reach schema (xor_directive a b) v parent
      = Some (mkFailure "object.xor" (conflict_context Joi_reach schema a b))) /\
     (reach parent (split a ".") = VUndefined -> reach parent (split b ".") = VUndefined ->
      dependencies_xor reach Joi_reach schema (xor_directive a b) v parent
      = Some (mkFailure "object.missing" (missing_context Joi_reach schema a b))) /\
     (reach parent (split a ".") <> VUndefined /\ reach parent (split b ".") = VUndefined \/
      reach parent (split a ".") = VUndefined /\ reach parent (split b ".") <> VUndefined ->
      dependencies_xor reach Joi_reach schema (xor_directive a b) v parent = None)) /\
  (forall this input props,
     accepts this input props -> abortEarly o = false ->
     In (xor_directive a b) (dependencies this) ->
     let result := _base reach Joi_reach this input state o in
     (reach (base_value result) (split a ".") <> VUndefined ->
      reach (base_value result) (split b ".") <> VUndefined ->
      In (mkError "object.xor" (conflict_context Joi_reach this a b) (state_path state))
         (error_list result)) /\
     (reach (base_value result) (split a ".") = VUndefined ->
      reach (base_value result) (split b ".") = VUndefined ->
      In (mkError "object.missing" (missing_context Joi_reach this a b) (state_path state))
         (error_list result))) /\
  (forall this props,
     renames this = [] -> children this = None -> patterns this = [] ->
     dependencies this = [] ->
     let S := xor this [a; b] in
     let input := wrap S props in
     (reach input (split a ".") <> VUndefined -> reach input (split b ".") <> VUndefined ->
      _base reach Joi_reach S input state o
      = mkBase input (Some [mkError "object.xor" (conflict_context Joi_reach S a b)
                              (state_path state)])) /\
     (reach input (split a ".") = VUndefined -> reach input (split b ".") = VUndefined ->
      _base reach Joi_reach S input state o
      = mkBase input (Some [mkError "object.missing" (missing_context Joi_reach S a b)
                              (state_path state)])) /\
     (reach input (split a ".") <> VUndefined /\ reach input (split b ".") = VUndefined \/
      reach input (split a ".") = VUndefined /\ reach input (split b ".") <> VUndefined ->
      _base reach Joi_reach S input state o = mkBase input None)).
Proof.
  split; [reflexivity|]. split; [intros; apply xor_evaluated|]. split.
  - intros this input props Acc A Hd result.
    pose proof (base_dependency_reported reach Joi_reach this state o input props
                  (xor_directive a b) Acc A Hd) as I.
    pose proof (base_value_wrap this state o input props Acc) as W.
    fold result in I, W. unfold dependency_errors in I. simpl in I. rewrite <- W in I.
    destruct (xor_evaluated this a b VNull (base_value result))
      as (X1 & X2 & _).
    split; intros Ha Hb; apply I.
    + rewrite (X1 Ha Hb). now left.
    + rewrite (X2 Ha Hb). now left.
  - intros this props R C P D S input.
    assert (E : _base reach Joi_reach S input state o =
                finish S (flow_value (validate_dependency reach Joi_reach S state o
                                        (xor_directive a b)
                                        (mkWalk props [] (nodup string_dec (Obj.keys props)) [])))).
    { apply base_single_dependency; unfold S, xor, _dependency; simpl; auto.
      rewrite D. reflexivity. }
    rewrite E. unfold validate_dependency. simpl.
    destruct (xor_evaluated S a b VNull input) as (X1 & X2 & X3).
    fold input. split; [|split].
    + intros Ha Hb. rewrite (X1 Ha Hb). unfold raise. simpl.
      destruct (abortEarly o); reflexivity.
    + intros Ha Hb. rewrite (X2 Ha Hb). unfold raise. simpl.
      destruct (abortEarly o); reflexivity.
    + intros H. rewrite (X3 H). reflexivity.
Qed.

End DependencyTheorems.

(** *** Renaming with an alias *)

Section RenameTheorems.
Variable reach : Value -> list string -> Value.
Variable Joi_reach : ObjectSchema -> string -> option Schema.

Lemma renamed_has_false (renamed_ : list string) (k : string) :
  ~ In k renamed_ -> ~ In k Object_prototype -> renamed_has renamed_ k = false.
Proof.
  intros N1 N2. unfold renamed_has.
  destruct (includes renamed_ k) eqn:I1; [apply includes_In in I1; contradiction|].
  destruct (includes Object_prototype k) eqn:I2; [apply includes_In in I2; contradiction|].
  reflexivity.
Qed.

Lemma rename_key_alias (state : State) (o : Options) (r : Rename) (source : string)
  (renamed_ : list string) (w : Walk) (v t : Value) :
  alias (rename_options r) = true -> override (rename_options r) = true ->
  multiple (rename_options r) = true \/ renamed_has renamed_ (to r) = false ->
  Obj.lookup (target w) source = Some v -> v <> VUndefined ->
  rename_key state o r source renamed_ w
  = (Continue (with_target w (Obj.set (target w) (to r) v)), to r :: renamed_).
Proof.
  intros Al Ov Mu Ls Dv.
  assert (G : get (target w) source = v) by (unfold get; now rewrite Ls).
  assert (M : negb (multiple (rename_options r)) && renamed_has renamed_ (to r) = false).
  { destruct Mu as [->| ->]; [reflexivity | apply andb_false_r]. }
  unfold rename_key, rename_checks. rewrite G, (is_undefined_false _ Dv), M, Ov, Al.
  rewrite andb_false_r. cbn -[get Obj.set Obj.delete Obj.hasOwn renamed_has].
  rewrite andb_false_r. cbn -[get Obj.set Obj.delete Obj.hasOwn renamed_has].
  rewrite G, (is_undefined_false _ Dv). reflexivity.
Qed.

(** C7, as amended: a rename directive with a literal source, [alias] and
    [override], whose target is not a name that objects inherit from
    [Object.prototype] (nor its source the accessor [__proto__]), at whose
    turn the working copy holds the source with a defined value and the
    target, and which is the first to write its target or has [multiple],
    writes the source value to the target, keeps the source with its value
    and reports no error; a schema that holds this directive alone returns
    the input with the target set to the source value, and no error. *)
Theorem rename_alias_override (r : Rename) (source : string) (v t : Value)
  (state : State) (o : Options) :
  from r = FromKey source ->
  alias (rename_options r) = true -> override (rename_options r) = true ->
  v <> VUndefined ->
  source <> "__proto__" -> ~ In (to r) Object_prototype ->
  (forall renamed_ w,
     multiple (rename_options r) = true \/ ~ In (to r) renamed_ ->
     Obj.lookup (target w) source = Some v -> Obj.lookup (target w) (to r) = Some t ->
     exists w',
       rename_loop state o [r] renamed_ w = Continue w' /\
       errs w' = errs w /\
       Obj.lookup (target w') (to r) = Some v /\
       Obj.lookup (target w') source = Some v) /\
  (forall this props,
     renames this = [r] -> children this = None -> patterns this = [] ->
     dependencies this = [] ->
     Obj.lookup props source = Some v -> Obj.lookup props (to r) = Some t ->
     _base reach Joi_reach this (wrap this props) state o
     = mkBase (wrap this (Obj.set props (to r) v)) None).
Proof.
  intros F Al Ov Dv _ Nt.
  assert (L : forall p, Obj.lookup p source = Some v ->
                Obj.lookup (Obj.set p (to r) v) source = Some v).
  { intros p Ls. destruct (string_dec source (to r)) as [->|N].
    - apply lookup_set_same.
    - now rewrite lookup_set_other. }
  split.
  - intros renamed_ w Mu Ls Lt. simpl. rewrite F.
    assert (Mu' : multiple (rename_options r) = true \/ renamed_has renamed_ (to r) = false).
    { destruct Mu as [M|N]; [now left | right; now apply renamed_has_false]. }
    rewrite (rename_key_alias state o r source renamed_ w v t Al Ov Mu' Ls Dv).
    eexists. split; [reflexivity|]. simpl.
    split; [reflexivity|]. split; [apply lookup_set_same | now apply L].
  - intros this props R C P D Ls Lt.
    rewrite (base_accepts reach Joi_reach this state o (wrap this props) props eq_refl).
    unfold fast_path, walk, shapeless, _rename. rewrite R, C, P, D. simpl. rewrite F.
    rewrite (rename_key_alias state o r source [] (mkWalk props [] [] []) v t Al Ov
               (or_intror (renamed_has_false [] (to r) (fun H => H) Nt)) Ls Dv).
    reflexivity.
Qed.

End RenameTheorems.

(** *** The properties on sample inputs *)

Lemma strip_applies_on_error_witness :
  Obj.lookup
    (props_of (base_value (_base sample_reach no_labels stripped_a
                             (VObject [("a", VNumber 1); ("b", VNumber 2)])
                             root_state collect_all))) "a" = None.
Proof.
  apply (strip_applies_on_error sample_reach no_labels stripped_a root_state collect_all
           (VObject [("a", VNumber 1); ("b", VNumber 2)])
           [("a", VNumber 1); ("b", VNumber 2)]
           [mkChild "a" (rejecting_stripped "bad" (VNumber 0)); mkChild "b" any]
           (mkChild "a" (rejecting_stripped "bad" (VNumber 0)))); try reflexivity.
  simpl. now left.
Defined.

(** The stripped child did fail: its error is reported. *)
Lemma stripped_child_reported :
  _base sample_reach no_labels stripped_a (VObject [("a", VNumber 1); ("b", VNumber 2)])
        root_state collect_all
  = mkBase (VObject [("b", VNumber 2)]) (Some [mkError "bad" [] ["a"]]).
Proof. reflexivity. Qed.

Lemma failed_pattern_value_written_witness :
  exists r,
    validated_by root_state collect_all "k"
      (get (renamed one_pattern root_state collect_all [("k", VNumber 0)]) "k")
      (mkPattern (Regex always) (rejecting "bad" (VNumber 9))) r /\
    Obj.lookup
      (props_of (base_value (_base sample_reach no_labels one_pattern
                               (VObject [("k", VNumber 0)]) root_state collect_all))) "k"
    = Some (value r) /\
    incl (reports r)
         (error_list (_base sample_reach no_labels one_pattern
                        (VObject [("k", VNumber 0)]) root_state collect_all)).
Proof.
  apply (proj2 (failed_pattern_value_written sample_reach no_labels one_pattern root_state
                  collect_all "k" (mkPattern (Regex always) (rejecting "bad" (VNumber 9)))
                  eq_refl eq_refl)
           (VObject [("k", VNumber 0)]) [("k", VNumber 0)] [] []);
    try reflexivity.
  - simpl. now left.
  - simpl. tauto.
Defined.

(** C10 fails as stated: after the rule of the first pattern has failed and
    its value has been written, the second pattern matches the key too and
    the value of its result is what is returned. *)
Lemma later_pattern_overwrites :
  _base sample_reach no_labels rejected_then_accepted (VObject [("k", VNumber 0)])
        root_state collect_all
  = mkBase (VObject [("k", VNumber 2)]) (Some [mkError "first" [] ["k"]]) /\
  value (_validate (rejecting "first" (VNumber 1)) (VNumber 0)
           (mkState (Some "k") ["k"] [VObject [("k", VNumber 0)]]) collect_all)
  = VNumber 1.
Proof. split; reflexivity. Qed.

(** The value returned by the failed rule is in the result. *)
Lemma failed_pattern_value_returned :
  _base sample_reach no_labels one_pattern (VObject [("k", VNumber 0)]) root_state collect_all
  = mkBase (VObject [("k", VNumber 9)]) (Some [mkError "bad" [] ["k"]]).
Proof. reflexivity. Qed.

Lemma every_matching_pattern_applies_witness :
  exists results,
    Forall2 (validated_by root_state collect_all "k"
               (get (renamed two_patterns root_state collect_all [("k", VNumber 0)]) "k"))
            (matching root_state collect_all "k" (patterns two_patterns)) results /\
    incl (flat_map reports results)
         (error_list (_base sample_reach no_labels two_patterns
                        (VObject [("k", VNumber 0)]) root_state collect_all)) /\
    forall rs r, results = rs ++ [r] ->
      Obj.lookup
        (props_of (base_value (_base sample_reach no_labels two_patterns
                                 (VObject [("k", VNumber 0)]) root_state collect_all))) "k"
      = Some (value r).
Proof.
  apply (proj1 (every_matching_pattern_applies sample_reach no_labels two_patterns
                  root_state collect_all (VObject [("k", VNumber 0)])
                  [("k", VNumber 0)] "k")); try reflexivity.
  - simpl. now left.
  - simpl. tauto.
Defined.

(** C3 fails as stated: a key that matches two patterns is validated by the
    rules of both, both errors are reported and the key ends with the value
    returned by the second rule, not with that of the first match. *)
Lemma later_patterns_also_apply :
  _base sample_reach no_labels two_patterns (VObject [("k", VNumber 0)]) root_state collect_all
  = mkBase (VObject [("k", VNumber 2)])
           (Some [mkError "first" [] ["k"]; mkError "second" [] ["k"]]) /\
  flow_value (for_each (validate_pattern two_patterns root_state collect_all "k" (VNumber 0))
                (patterns two_patterns) (mkWalk [("k", VNumber 0)] [] ["k"] []))
  <> flow_value (first_match_wins two_patterns root_state collect_all "k" (VNumber 0)
                   (mkWalk [("k", VNumber 0)] [] ["k"] [])).
Proof.
  split; [reflexivity|]. intros E.
  apply (f_equal (fun w => Obj.lookup (target w) "k")) in E.
  vm_compute in E. discriminate E.
Qed.

(** C4 fails as stated: a schema without declared children or patterns
    accepts an undeclared key, and keeps it under [stripUnknown]; under the
    default options a declared child that fails stops the walk before the
    undeclared key is looked at. *)
Lemma undeclared_key_unreported :
  _base sample_reach no_labels object (VObject [("c", VNumber 2)]) root_state default_options
  = mkBase (VObject [("c", VNumber 2)]) None /\
  _base sample_reach no_labels (xor object ["c"; "z"]) (VObject [("c", VNumber 2)])
        root_state strip_all_unknown
  = mkBase (VObject [("c", VNumber 2)]) None /\
  _base sample_reach no_labels rejected_a (VObject a_and_c) root_state default_options
  = mkBase (VObject a_and_c) (Some [mkError "bad" [] ["a"]]).
Proof. repeat split; reflexivity. Qed.

(** C5: under [abortEarly] two undeclared keys yield two errors. *)
Lemma abort_early_two_unknown_keys :
  abortEarly default_options = true /\
  _base sample_reach no_labels only_a (VObject a_c_d) root_state default_options
  = mkBase (VObject a_c_d)
           (Some [not_allowed root_state "c" (VNumber 2);
                  not_allowed root_state "d" (VNumber 3)]).
Proof. split; reflexivity. Qed.

Lemma unknown_key_policy_witness :
  (exists U1 U2 es,
     unprocessed (after_declared only_a default_options) = U1 ++ "c" :: U2 /\
     ~ In "c" U1 /\ ~ In "c" U2 /\
     error_list (_base sample_reach no_labels only_a (VObject a_and_c) root_state
                   default_options)
     = errs (after_declared only_a default_options)
       ++ map (unknown_error root_state default_options
                 (target (after_declared only_a default_options))) U1
       ++ not_allowed root_state "c" (get a_and_c "c")
          :: map (unknown_error root_state default_options
                    (target (after_declared only_a default_options))) U2 ++ es) /\
  (Obj.lookup
     (props_of (base_value (_base sample_reach no_labels (unknown only_a (Some true))
                              (VObject a_and_c) root_state default_options))) "c"
   = Obj.lookup a_and_c "c" /\
   errs (flow_value (validate_unknown (unknown only_a (Some true)) root_state default_options
                       (after_declared (unknown only_a (Some true)) default_options)))
   = errs (after_declared (unknown only_a (Some true)) default_options)) /\
  (Obj.lookup
     (props_of (base_value (_base sample_reach no_labels only_a (VObject a_and_c)
                              root_state strip_all_unknown))) "c" = None /\
   errs (flow_value (validate_unknown only_a root_state strip_all_unknown
                       (after_declared only_a strip_all_unknown)))
   = errs (after_declared only_a strip_all_unknown)).
Proof.
  assert (D : forall this, children this = Some [mkChild "a" any] ->
                ~ declared_key this "c").
  { intros this E. unfold declared_key. rewrite E. simpl.
    intros [H|[]]. discriminate H. }
  split; [|split].
  - apply (unknown_key_policy sample_reach no_labels only_a root_state default_options
             (VObject a_and_c) a_and_c (mkWalk a_and_c [] [] [])
             (after_declared only_a default_options) "c");
      try reflexivity.
    + left. discriminate.
    + simpl. right. now left.
    + now apply D.
    + right. intros c' [<-|[]]. reflexivity.
  - apply (unknown_key_policy sample_reach no_labels (unknown only_a (Some true)) root_state
             default_options (VObject a_and_c) a_and_c (mkWalk a_and_c [] [] [])
             (after_declared (unknown only_a (Some true)) default_options) "c");
      try reflexivity.
    + left. discriminate.
    + simpl. right. now left.
    + now apply D.
  - apply (unknown_key_policy sample_reach no_labels only_a root_state strip_all_unknown
             (VObject a_and_c) a_and_c (mkWalk a_and_c [] [] [])
             (after_declared only_a strip_all_unknown) "c");
      try reflexivity.
    + left. discriminate.
    + simpl. right. now left.
    + now apply D.
    + discriminate.
    + now left.
Defined.

(** P6 on the three schemas. *)
Lemma P6_outcomes :
  _base sample_reach no_labels only_a (VObject a_and_c) root_state default_options
  = mkBase (VObject a_and_c) (Some [not_allowed root_state "c" (VNumber 2)]) /\
  _base sample_reach no_labels (unknown only_a (Some true)) (VObject a_and_c) root_state
        default_options
  = mkBase (VObject a_and_c) None /\
  _base sample_reach no_labels only_a (VObject a_and_c) root_state strip_all_unknown
  = mkBase (VObject [("a", VNumber 1)]) None.
Proof. repeat split; reflexivity. Qed.

Lemma xor_dependency_witness :
  _base sample_reach no_labels (xor object ["a"; "b"])
        (VObject [("a", VNumber 1); ("b", VNumber 2)]) root_state default_options
  = mkBase (VObject [("a", VNumber 1); ("b", VNumber 2)])
           (Some [mkError "object.xor"
                    (conflict_context no_labels (xor object ["a"; "b"]) "a" "b") []]) /\
  _base sample_reach no_labels (xor object ["a"; "b"]) (VObject []) root_state default_options
  = mkBase (VObject [])
           (Some [mkError "object.missing"
                    (missing_context no_labels (xor object ["a"; "b"]) "a" "b") []]) /\
  _base sample_reach no_labels (xor object ["a"; "b"]) (VObject [("a", VNumber 1)])
        root_state default_options
  = mkBase (VObject [("a", VNumber 1)]) None /\
  In (mkError "object.xor" (conflict_context no_labels (xor only_a ["a"; "c"]) "a" "c") [])
     (error_list (_base sample_reach no_labels (xor only_a ["a"; "c"]) (VObject a_and_c)
                    root_state collect_all)).
Proof.
  destruct (xor_dependency sample_reach no_labels "a" "b" root_state default_options)
    as (_ & _ & _ & H).
  destruct (xor_dependency sample_reach no_labels "a" "c" root_state collect_all)
    as (_ & _ & G & _).
  split; [|split; [|split]].
  - apply (H object [("a", VNumber 1); ("b", VNumber 2)]); try reflexivity; discriminate.
  - apply (H object []); reflexivity.
  - apply (H object [("a", VNumber 1)]); try reflexivity.
    left. split; [discriminate | reflexivity].
  - apply (G (xor only_a ["a"; "c"]) (VObject a_and_c) a_and_c); try reflexivity.
    + simpl. now left.
    + discriminate.
    + discriminate.
Defined.

Lemma rename_alias_override_witness :
  (exists w',
     rename_loop root_state default_options
       [mkRename (FromKey "a") "b" (mkRenameOptions true false true false)] []
       (mkWalk [("a", VNumber 1); ("b", VNumber 2)] [] [] []) = Continue w' /\
     errs w' = [] /\
     Obj.lookup (target w') "b" = Some (VNumber 1) /\
     Obj.lookup (target w') "a" = Some (VNumber 1)) /\
  _base sample_reach no_labels alias_a_b (VObject [("a", VNumber 1); ("b", VNumber 2)])
        root_state default_options
  = mkBase (VObject [("a", VNumber 1); ("b", VNumber 1)]) None.
Proof.
  assert (Nt : ~ In "b" Object_prototype).
  { unfold Object_prototype. simpl. intros H.
    repeat (destruct H as [H|H]; [discriminate|]). exact H. }
  destruct (rename_alias_override sample_reach no_labels
              (mkRename (FromKey "a") "b" (mkRenameOptions true false true false)) "a"
              (VNumber 1) (VNumber 2) root_state default_options eq_refl eq_refl eq_refl)
    as [H1 H2]; [discriminate | discriminate | exact Nt |].
  split.
  - apply (H1 [] (mkWalk [("a", VNumber 1); ("b", VNumber 2)] [] [] []));
      try reflexivity. right. simpl. tauto.
  - apply (H2 alias_a_b [("a", VNumber 1); ("b", VNumber 2)]); reflexivity.
Defined.

(** C7 fails as stated: the second of two directives with [alias] and
    [override] that rename into the same target reports
    [object.rename.multiple], and under [abortEarly] the target keeps the
    value of the first source. *)
Lemma second_alias_conflicts :
  _base sample_reach no_labels two_aliases (VObject a_b_t) root_state collect_all
  = mkBase (VObject [("a", VNumber 1); ("b", VNumber 2); ("t", VNumber 2)])
           (Some [mkError "object.rename.multiple"
                    [("from", CStr "b"); ("to", CStr "t")] []]) /\
  _base sample_reach no_labels two_aliases (VObject a_b_t) root_state default_options
  = mkBase (VObject [("a", VNumber 1); ("b", VNumber 2); ("t", VNumber 1)])
           (Some [mkError "object.rename.multiple"
                    [("from", CStr "b"); ("to", CStr "t")] []]).
Proof. split; reflexivity. Qed.

(** A first directive whose target is named like a member of
    [Object.prototype] reports [object.rename.multiple] as well: the record
    of the targets written is an object literal, and its lookup finds the
    inherited member before anything was written. *)
Lemma inherited_target_conflicts :
  _base sample_reach no_labels alias_a_constructor
        (VObject [("a", VNumber 1); ("constructor", VNumber 2)]) root_state default_options
  = mkBase (VObject [("a", VNumber 1); ("constructor", VNumber 2)])
           (Some [mkError "object.rename.multiple"
                    [("from", CStr "a"); ("to", CStr "constructor")] []]).
Proof. reflexivity. Qed.

End WalkFacts.

(** ** The string type *)

Module StringFacts.
Import StringType.

Lemma length_substring (n : nat) : forall s,
  String.length (String.substring 0 n s) = Nat.min n (String.length s).
Proof.
  induction n as [|n IH]; intros s.
  - destruct s; reflexivity.
  - destruct s as [|c s]; simpl; [reflexivity|]. now rewrite IH.
Qed.

Section StringTheorems.
Variable Replacement : Type.
Variable String_normalize : string -> string -> string.
Variable toLocaleUpperCase toLocaleLowerCase String_trim : string -> string.
Variable String_replace : string -> Replacement -> string.
Variable isIsoDate : string -> bool.
Variable Date_toISOString : string -> option string.
Variable Buffer_byteLength : string -> string -> nat.

Abbreviation coerce :=
  (_coerce String_normalize toLocaleUpperCase toLocaleLowerCase String_trim
           String_replace isIsoDate Date_toISOString).

Lemma substring_all (n : nat) : forall s,
  String.length s <= n -> String.substring 0 n s = s.
Proof.
  induction n as [|n IH]; intros s H.
  - destruct s; [reflexivity | simpl in H; lia].
  - destruct s as [|c s]; simpl; [reflexivity|]. f_equal. apply IH. simpl in H. lia.
Qed.

Lemma substring_prefix (n : nat) : forall s,
  String.prefix (String.substring 0 n s) s = true.
Proof.
  induction n as [|n IH]; intros s.
  - destruct s; reflexivity.
  - destruct s as [|c s]; simpl; [reflexivity|].
    destruct (Ascii.ascii_dec c c) as [_|N]; [apply IH | now elim N].
Qed.

Lemma coerce_text_plain (this : StringSchema Replacement) (s : string) :
  converts_nothing _ this ->
  coerce_text String_normalize toLocaleUpperCase toLocaleLowerCase String_trim
              String_replace this s = s.
Proof.
  intros (Hn & Hc & Ht & Hr & Hh & _). unfold coerce_text. rewrite Hn, Hc, Hr.
  destruct (rule_trim this) as [[|]|]; [congruence| |];
    (destruct (rule_hex this) as [[|]|]; [congruence|reflexivity|reflexivity]).
Qed.

(** C8: for [string().max(limit, encoding).truncate()] coercion returns the
    first [limit] code units of the text when the limit is a number,
    whatever the encoding of the rule; when the limit is a reference the
    text is cut to the empty string, whatever the reference stands for. *)
Theorem truncate_by_number_and_by_reference (n : nat) (display : string)
  (enc : option string) (s : string) (state : State) (o : Options) :
  coerce (truncating_at Replacement (LimitNumber n) enc) (VString s) state o
  = mkCoerce (VString (String.substring 0 n s)) None /\
  coerce (truncating_at Replacement (LimitRef display) enc) (VString s) state o
  = mkCoerce (VString "") None.
Proof. split; reflexivity. Qed.

(** With the [truncate] flag and a rule [max(n, encoding)] a schema that
    converts nothing else returns the first [n] code units of the text it
    is given: the text itself when it has no more than [n], a prefix of
    length [n] otherwise, whatever the encoding; the rule, for its part,
    measures bytes when it has an encoding. *)
Theorem truncate_counts_characters (this : StringSchema Replacement) (n : nat)
  (enc : option string) (s : string) (state : State) (o : Options) :
  flag_truncate this = true ->
  rule_max this = Some (mkLengthArgs (LimitNumber n) enc) ->
  converts_nothing _ this ->
  coerce this (VString s) state o = mkCoerce (VString (String.substring 0 n s)) None /\
  String.prefix (String.substring 0 n s) s = true /\
  String.length (String.substring 0 n s) = Nat.min n (String.length s) /\
  (String.length s <= n -> String.substring 0 n s = s) /\
  (forall text e alias_, e <> "" ->
     (rules_length Buffer_byteLength text n (Some e) alias_ op_le state o = inl text
      <-> Buffer_byteLength text e <= n)).
Proof.
  intros Ft Rm Cn. split; [|split; [|split; [|split]]].
  - unfold _coerce. rewrite (coerce_text_plain this s Cn), Ft, Rm.
    destruct Cn as (_ & _ & _ & _ & _ & ->). reflexivity.
  - apply substring_prefix.
  - apply length_substring.
  - apply substring_all.
  - intros text e alias_ Ne. unfold rules_length.
    apply String.eqb_neq in Ne. rewrite Ne. simpl.
    destruct (Nat.leb_spec (Buffer_byteLength text e) n) as [H|H].
    + split; auto.
    + split; [discriminate | lia].
Qed.

(** Whatever else the schema converts, the text is cut after the other
    conversions, to the first [n] code units of their result. *)
Lemma truncate_follows_conversions (this : StringSchema Replacement) (l : Limit)
  (enc : option string) (s : string) (state : State) (o : Options) :
  flag_truncate this = true ->
  rule_max this = Some (mkLengthArgs l enc) ->
  coerce_errors (coerce this (VString s) state o) = None ->
  exists t,
    coerce_value (coerce (truncate_off this) (VString s) state o) = VString t /\
    coerce_value (coerce this (VString s) state o) = VString (slice_to l t).
Proof.
  intros Ft Rm Ok. unfold _coerce, truncate_off in *. simpl. rewrite Ft, Rm in *. simpl in *.
  set (t0 := coerce_text String_normalize toLocaleUpperCase toLocaleLowerCase
               String_trim String_replace this s) in *.
  assert (Et : coerce_text String_normalize toLocaleUpperCase toLocaleLowerCase
                 String_trim String_replace
                 (mkString (rule_normalize this) (rule_case this) (rule_trim this)
                           (rule_hex this) (rule_isoDate this)
                           (Some (mkLengthArgs l enc))
                           (replacements this) false) s = t0) by reflexivity.
  rewrite Et.
  destruct (rule_isoDate this).
  - destruct (isIsoDate t0); [|discriminate].
    destruct (Date_toISOString t0) as [iso|]; [|discriminate].
    exists iso. simpl. auto.
  - exists t0. simpl. auto.
Qed.

End StringTheorems.

(** C8 on a sample: with a limit that refers to a sibling holding [2], the
    text [abc] is cut to nothing, where the first two characters are
    expected; with the number [2] for limit it is cut to [ab]. *)
Lemma truncate_at_reference_sample :
  _coerce (fun s _ => s) (fun s => s) (fun s => s) (fun s => s)
          (fun s (_ : unit) => s) (fun _ => false) (fun _ => None)
          (truncating_at unit (LimitRef "ref:n") (Some "utf8")) (VString "abc")
          root_state default_options
  = mkCoerce (VString "") None /\
  _coerce (fun s _ => s) (fun s => s) (fun s => s) (fun s => s)
          (fun s (_ : unit) => s) (fun _ => false) (fun _ => None)
          (truncating_at unit (LimitNumber 2) (Some "utf8")) (VString "abc")
          root_state default_options
  = mkCoerce (VString "ab") None.
Proof. split; reflexivity. Qed.

Lemma truncate_counts_characters_witness :
  _coerce (fun s _ => s) (fun s => s) (fun s => s) (fun s => s)
          (fun s (_ : unit) => s) (fun _ => false) (fun _ => None)
          truncating (VString (String e_acute (String e_acute "abc"))) root_state
          default_options
  = mkCoerce (VString (String.substring 0 2 (String e_acute (String e_acute "abc")))) None /\
  String.prefix (String.substring 0 2 (String e_acute (String e_acute "abc")))
                (String e_acute (String e_acute "abc")) = true /\
  String.length (String.substring 0 2 (String e_acute (String e_acute "abc")))
  = Nat.min 2 (String.length (String e_acute (String e_acute "abc"))) /\
  (String.length (String e_acute (String e_acute "abc")) <= 2 ->
   String.substring 0 2 (String e_acute (String e_acute "abc"))
   = String e_acute (String e_acute "abc")) /\
  (forall text e alias_, e <> "" ->
     (rules_length sample_byteLength text 2 (Some e) alias_ op_le root_state default_options
      = inl text <-> sample_byteLength text e <= 2)).
Proof.
  apply (truncate_counts_characters unit (fun s _ => s) (fun s => s) (fun s => s)
           (fun s => s) (fun s (_ : unit) => s) (fun _ => false) (fun _ => None)
           sample_byteLength truncating 2 (Some "utf8")); try reflexivity.
  unfold converts_nothing. simpl. repeat split; discriminate.
Defined.

(** The text cut to two characters still measures four bytes, and the
    [max] rule rejects it. *)
Lemma truncated_text_exceeds_bytes :
  coerce_value (_coerce (fun s _ => s) (fun s => s) (fun s => s) (fun s => s)
                  (fun s (_ : unit) => s) (fun _ => false) (fun _ => None)
                  truncating
                  (VString (String e_acute (String e_acute "abc"))) root_state
                  default_options)
  = VString (String e_acute (String e_acute "")) /\
  sample_byteLength (String e_acute (String e_acute "")) "utf8" = 4 /\
  exists e, rules_length sample_byteLength (String e_acute (String e_acute "")) 2
              (Some "utf8") "max" op_le root_state default_options = inr e.
Proof.
  split; [reflexivity|]. split; [reflexivity|]. eexists. reflexivity.
Qed.

End StringFacts.

(** * Further properties *)

Unset Implicit Arguments.

Ltac own_names := unfold own_name, Object_prototype; simpl; intuition discriminate.

(** ** The dependency evaluators *)

Module DependencyProps.
Section DependencyProps.
Variable reach : Value -> list string -> Value.
Variable Joi_reach : ObjectSchema -> string -> option Schema.

Lemma filter_partition_length (A : Type) (f : A -> bool) (l : list A) :
  List.length (filter f l) + List.length (filter (fun x => negb (f x)) l) = List.length l.
Proof.
  induction l as [|a l IH]; simpl; [reflexivity|].
  destruct (f a); simpl; lia.
Qed.

Lemma resolves_dec (parent : Value) (p : Peer) :
  is_undefined (reach parent (peer_path p)) = false <-> resolves reach parent p.
Proof.
  unfold resolves. destruct (reach parent (peer_path p)); simpl; split; congruence.
Qed.

Lemma unresolved_dec (parent : Value) (p : Peer) :
  is_undefined (reach parent (peer_path p)) = true <-> ~ resolves reach parent p.
Proof.
  rewrite <- resolves_dec. destruct (is_undefined _); split; congruence.
Qed.

Lemma present_length (dep : Dependency) (parent : Value) :
  List.length (present_peers reach dep parent)
  = List.length (filter (fun p => negb (is_undefined (reach parent (peer_path p)))) (peers dep)).
Proof. unfold present_peers. apply length_map. Qed.

Lemma missing_length (dep : Dependency) (parent : Value) :
  List.length (missing_peers reach dep parent)
  = List.length (filter (fun p => is_undefined (reach parent (peer_path p))) (peers dep)).
Proof. unfold missing_peers. apply length_map. Qed.

Lemma present_none (dep : Dependency) (parent : Value) :
  List.length (present_peers reach dep parent) = 0
  <-> Forall (fun p => ~ resolves reach parent p) (peers dep).
Proof.
  rewrite present_length. induction (peers dep) as [|p l IH]; simpl.
  - split; [constructor | reflexivity].
  - destruct (is_undefined (reach parent (peer_path p))) eqn:E; simpl.
    + rewrite IH. split.
      * intros H. constructor; [now apply unresolved_dec | exact H].
      * intros H. now inversion H.
    + split; [discriminate|]. intros H. inversion H as [|? ? N _]; subst.
      apply unresolved_dec in N. congruence.
Qed.

Lemma present_all (dep : Dependency) (parent : Value) :
  List.length (present_peers reach dep parent) = List.length (peers dep)
  <-> Forall (resolves reach parent) (peers dep).
Proof.
  rewrite present_length. induction (peers dep) as [|p l IH]; simpl.
  - split; [constructor | reflexivity].
  - destruct (is_undefined (reach parent (peer_path p))) eqn:E; simpl.
    + split.
      * intros H. pose proof (@filter_length_le _
          (fun p => negb (is_undefined (reach parent (peer_path p)))) l). lia.
      * intros H. inversion H as [|? ? R _]; subst. apply resolves_dec in R. congruence.
    + split.
      * intros H. injection H as H. constructor; [now apply resolves_dec | now apply IH].
      * intros H. inversion H; subst. f_equal. now apply IH.
Qed.

Lemma missing_all (dep : Dependency) (parent : Value) :
  List.length (missing_peers reach dep parent) = List.length (peers dep)
  <-> Forall (fun p => ~ resolves reach parent p) (peers dep).
Proof.
  rewrite <- present_none, present_length, missing_length.
  pose proof (filter_partition_length _
                (fun p => is_undefined (reach parent (peer_path p))) (peers dep)).
  lia.
Qed.

(** [and]: passes exactly when all peers resolve or none does. *)
Theorem and_all_or_none (schema : ObjectSchema) (dep : Dependency) (v parent : Value) :
  (dependencies_and reach Joi_reach schema dep v parent = None
   <-> Forall (resolves reach parent) (peers dep)
       \/ Forall (fun p => ~ resolves reach parent p) (peers dep)) /\
  (forall f, dependencies_and reach Joi_reach schema dep v parent = Some f ->
     fail_code f = "object.and" /\
     Obj.lookup (fail_context f) "present" = Some (CStrs (present_peers reach dep parent)) /\
     Obj.lookup (fail_context f) "missing" = Some (CStrs (missing_peers reach dep parent))).
Proof.
  unfold dependencies_and. rewrite <- present_all, <- missing_all. split.
  - destruct (Nat.eqb_spec (List.length (missing_peers reach dep parent))
                           (List.length (peers dep))) as [M|M];
    destruct (Nat.eqb_spec (List.length (present_peers reach dep parent))
                           (List.length (peers dep))) as [P|P]; simpl.
    + tauto.
    + tauto.
    + tauto.
    + split; [discriminate | tauto].
  - intros f. destruct (negb _ && negb _); [|discriminate]. intros [= <-]. simpl. auto.
Qed.

(** [nand]: fails exactly when every peer resolves; with no peer at all it
    always fails. *)
Theorem nand_not_all (schema : ObjectSchema) (dep : Dependency) (v parent : Value) :
  (dependencies_nand reach Joi_reach schema dep v parent = None
   <-> Exists (fun p => ~ resolves reach parent p) (peers dep)) /\
  (forall f, dependencies_nand reach Joi_reach schema dep v parent = Some f ->
     fail_code f = "object.nand" /\
     Obj.lookup (fail_context f) "main" = Some (CKey (hd_error (orig_peers (orig dep)))) /\
     Obj.lookup (fail_context f) "peers" = Some (CStrs (tl (orig_peers (orig dep))))).
Proof.
  unfold dependencies_nand. split.
  - destruct (Nat.eqb_spec (List.length (present_peers reach dep parent))
                           (List.length (peers dep))) as [P|P]; simpl.
    + split; [discriminate|]. intros H. apply present_all in P.
      apply Exists_exists in H. destruct H as (p & Hp & N).
      rewrite Forall_forall in P. exfalso. apply N. now apply P.
    + split; [intros _ | reflexivity].
      apply neg_Forall_Exists_neg.
      * intros p. unfold resolves. destruct (reach parent (peer_path p));
          try (left; discriminate). right. intros H. now apply H.
      * intros H. apply P. now apply present_all.
  - intros f. destruct (negb _); [discriminate|]. intros [= <-]. simpl. auto.
Qed.

Lemma present_some (dep : Dependency) (parent : Value) :
  existsb (fun p => negb (is_undefined (reach parent (peer_path p)))) (peers dep)
  = negb (Nat.eqb (List.length (present_peers reach dep parent)) 0).
Proof.
  rewrite present_length. induction (peers dep) as [|p l IH]; simpl; [reflexivity|].
  destruct (is_undefined (reach parent (peer_path p))); simpl; [exact IH | reflexivity].
Qed.

(** [xor] is [or] together with [oxor]: it passes exactly when both pass,
    it reports the failure of [or] when no peer resolves, and the conflict
    that [oxor] reports, under the code [object.xor], when several do. *)
Theorem xor_is_or_and_oxor (schema : ObjectSchema) (dep : Dependency) (v parent : Value) :
  (dependencies_xor reach Joi_reach schema dep v parent = None
   <-> dependencies_or reach Joi_reach schema dep v parent = None /\
       dependencies_oxor reach Joi_reach schema dep v parent = None) /\
  (forall f, dependencies_or reach Joi_reach schema dep v parent = Some f ->
     dependencies_xor reach Joi_reach schema dep v parent = Some f) /\
  (forall f, dependencies_oxor reach Joi_reach schema dep v parent = Some f ->
     fail_code f = "object.oxor" /\
     dependencies_xor reach Joi_reach schema dep v parent
     = Some (mkFailure "object.xor" (fail_context f))).
Proof.
  unfold dependencies_xor, dependencies_or, dependencies_oxor.
  rewrite present_some.
  destruct (List.length (present_peers reach dep parent)) as [|[|n]]; simpl.
  - split; [|split].
    + split; [discriminate | intros [H _]; discriminate].
    + now intros f [= <-].
    + discriminate.
  - split; [|split].
    + tauto.
    + discriminate.
    + discriminate.
  - split; [|split].
    + split; [discriminate | intros [_ H]; discriminate].
    + discriminate.
    + intros f [= <-]. split; reflexivity.
Qed.

(** [with]: nothing is asked when the key is undefined; otherwise every
    peer must resolve, and the failure names the first peer, in
    declaration order, that does not. *)
Theorem with_needs_every_peer (schema : ObjectSchema) (dep : Dependency) (v parent : Value) :
  (dependencies_with reach Joi_reach schema dep v parent = None
   <-> v = VUndefined \/ Forall (resolves reach parent) (peers dep)) /\
  (forall l1 p l2, v <> VUndefined -> peers dep = l1 ++ p :: l2 ->
     Forall (resolves reach parent) l1 -> ~ resolves reach parent p ->
     dependencies_with reach Joi_reach schema dep v parent
     = Some (mkFailure "object.with" (main_context Joi_reach schema dep p))).
Proof.
  unfold dependencies_with. split.
  - destruct v; simpl; try (split; [intros _; now left | reflexivity]).
    all: destruct (find _ (peers dep)) as [p|] eqn:F.
    all: try (split; [discriminate|]; intros [H|H]; [discriminate|];
              apply find_some in F; destruct F as [Hp U];
              apply unresolved_dec in U; rewrite Forall_forall in H;
              exfalso; apply U; now apply H).
    all: split; [intros _; right | reflexivity];
         apply Forall_forall; intros p Hp; apply resolves_dec;
         destruct (is_undefined (reach parent (peer_path p))) eqn:U; [|reflexivity];
         now rewrite (find_none _ _ F p Hp) in U.
  - intros l1 p l2 Dv E A N. rewrite (WalkFacts.is_undefined_false v Dv), E.
    clear E. induction l1 as [|q l1 IH]; simpl.
    + apply unresolved_dec in N. now rewrite N.
    + inversion A as [|? ? Rq A']; subst. apply resolves_dec in Rq. rewrite Rq.
      now apply IH.
Qed.

(** [without]: nothing is asked when the key is undefined; otherwise no
    peer may resolve, and the failure names the first peer, in declaration
    order, that does. *)
Theorem without_forbids_every_peer (schema : ObjectSchema) (dep : Dependency)
  (v parent : Value) :
  (dependencies_without reach Joi_reach schema dep v parent = None
   <-> v = VUndefined \/ Forall (fun p => ~ resolves reach parent p) (peers dep)) /\
  (forall l1 p l2, v <> VUndefined -> peers dep = l1 ++ p :: l2 ->
     Forall (fun q => ~ resolves reach parent q) l1 -> resolves reach parent p ->
     dependencies_without reach Joi_reach schema dep v parent
     = Some (mkFailure "object.without" (main_context Joi_reach schema dep p))).
Proof.
  unfold dependencies_without. split.
  - destruct v; simpl; try (split; [intros _; now left | reflexivity]).
    all: destruct (find _ (peers dep)) as [p|] eqn:F.
    all: try (split; [discriminate|]; intros [H|H]; [discriminate|];
              apply find_some in F; destruct F as [Hp U];
              apply negb_true_iff in U; apply resolves_dec in U;
              rewrite Forall_forall in H; exfalso; now apply (H p Hp)).
    all: split; [intros _; right | reflexivity];
         apply Forall_forall; intros p Hp; apply unresolved_dec;
         pose proof (find_none _ _ F p Hp) as U; now apply negb_false_iff in U.
  - intros l1 p l2 Dv E A R. rewrite (WalkFacts.is_undefined_false v Dv), E.
    clear E. induction l1 as [|q l1 IH]; simpl.
    + apply resolves_dec in R. now rewrite R.
    + inversion A as [|? ? Nq A']; subst. apply unresolved_dec in Nq. rewrite Nq.
      now apply IH.
Qed.

End DependencyProps.
End DependencyProps.

(** ** The validation walk *)

Module BaseProps.
Import WalkFacts.

Section Stops.
Variable state : State.
Variable o : Options.
Hypothesis A : abortEarly o = true.

Lemma raise_stops n es w :
  errs w = [] -> List.length es <= n -> stops_within n (raise o es w).
Proof. intros E L. unfold raise. rewrite A, E. simpl. exact L. Qed.

Lemma bind_stops n (x : Flow Walk) (f : Walk -> Flow Walk) :
  stops_within n x -> (forall w, errs w = [] -> stops_within n (f w)) ->
  stops_within n (bind x f).
Proof. destruct x as [w|w]; simpl; auto. Qed.

Lemma for_each_stops n (B : Type) (body : B -> Walk -> Flow Walk) (l : list B) :
  (forall x w, In x l -> errs w = [] -> stops_within n (body x w)) ->
  forall w, errs w = [] -> stops_within n (for_each body l w).
Proof.
  induction l as [|x l IH]; simpl; intros H w E; [exact E|].
  apply bind_stops; [apply H; auto|]. intros w1 E1. apply IH; auto.
Qed.

Lemma rename_checks_stops n r c1 c2 ctx renamed w :
  1 <= n -> errs w = [] -> stops_within n (rename_checks state o r c1 c2 ctx renamed w).
Proof.
  intros N E. unfold rename_checks. apply bind_stops.
  - destruct (_ && _); [apply raise_stops; simpl; auto | exact E].
  - intros w1 E1. destruct (_ && _ && _); [apply raise_stops; simpl; auto | exact E1].
Qed.

Lemma rename_loop_stops n rs : forall renamed w,
  1 <= n -> errs w = [] -> stops_within n (rename_loop state o rs renamed w).
Proof.
  induction rs as [|r rs IH]; simpl; intros renamed w N E; [exact E|].
  destruct (from r) as [k|test].
  - unfold rename_key. destruct (_ && _); [now apply IH|].
    pose proof (rename_checks_stops n r "object.rename.multiple" "object.rename.override"
                  [("from", CStr k); ("to", CStr (to r))] renamed w N E) as S.
    destruct (rename_checks _ _ _ _ _ _ _ _) as [w1|w1]; simpl in *; [|exact S].
    apply IH; [exact N | exact S].
  - unfold rename_regex. destruct (_ && _); [now apply IH|].
    match goal with |- context [rename_checks state o r ?c1 ?c2 ?ctx renamed w] =>
      pose proof (rename_checks_stops n r c1 c2 ctx renamed w N E) as S;
      destruct (rename_checks state o r c1 c2 ctx renamed w) as [w1|w1] end;
      simpl in *; [|exact S].
    apply IH; [exact N | exact S].
Qed.

End Stops.

Section BaseProps.
Variable reach : Value -> list string -> Value.
Variable Joi_reach : ObjectSchema -> string -> option Schema.
Variable this : ObjectSchema.
Variable state : State.
Variable o : Options.

Lemma validate_child_stops n child w :
  abortEarly o = true ->
  (forall v st, List.length (reports (_validate (schema child) v st o)) <= n) ->
  errs w = [] -> stops_within n (validate_child this state o child w).
Proof.
  intros A H E. unfold validate_child. simpl.
  match goal with |- context [_validate (schema child) ?v ?st o] =>
    pose proof (H v st) as L; unfold reports in L;
    destruct (errors (_validate (schema child) v st o)) as [es|] end.
  - apply bind_stops.
    + apply raise_stops; auto.
    + intros w1 E1. destruct (flag_strip (schema child)); exact E1.
  - apply bind_stops.
    + destruct (_ || _); [exact E|]. destruct (negb _); exact E.
    + intros w1 E1. destruct (flag_strip (schema child)); exact E1.
Qed.

Lemma validate_children_stops n w :
  abortEarly o = true ->
  (forall cs c, children this = Some cs -> In c cs ->
     forall v st, List.length (reports (_validate (schema c) v st o)) <= n) ->
  errs w = [] -> stops_within n (validate_children this state o w).
Proof.
  intros A H E. unfold validate_children. destruct (children this) as [cs|]; [|exact E].
  apply bind_stops.
  - apply for_each_stops; [|exact E]. intros c w1 Hc E1.
    apply validate_child_stops; eauto.
  - intros w1 E1. exact E1.
Qed.

Lemma validate_pattern_stops n k item p w :
  abortEarly o = true ->
  (forall v st, List.length (reports (_validate (rule p) v st o)) <= n) ->
  errs w = [] -> stops_within n (validate_pattern this state o k item p w).
Proof.
  intros A H E. unfold validate_pattern. destruct (pattern_matches state o p k); [|exact E].
  simpl.
  match goal with |- context [_validate (rule p) ?v ?st o] =>
    pose proof (H v st) as L; unfold reports in L;
    destruct (errors (_validate (rule p) v st o)) as [es|] end.
  - apply bind_stops; [apply raise_stops; auto|]. intros w1 E1. exact E1.
  - exact E.
Qed.

Lemma validate_patterns_stops n w :
  abortEarly o = true ->
  (forall p, In p (patterns this) ->
     forall v st, List.length (reports (_validate (rule p) v st o)) <= n) ->
  errs w = [] -> stops_within n (validate_patterns this state o w).
Proof.
  intros A H E. unfold validate_patterns. destruct (_ && _); [|exact E].
  apply for_each_stops; [|exact E]. intros k w1 _ E1.
  apply for_each_stops; [|exact E1]. intros p w2 Hp E2.
  apply validate_pattern_stops; auto.
Qed.

Lemma strip_unknown_keys_errs w : errs (strip_unknown_keys o w) = errs w.
Proof.
  unfold strip_unknown_keys.
  generalize (match stripUnknown o with
              | SU_unset => false | SU_true => true | SU_object _ objects => objects end).
  intros b. generalize (unprocessed w). intros l. revert w.
  induction l as [|k l IH]; simpl; intros w; [reflexivity|].
  rewrite IH. destruct b; [reflexivity|]. now destruct (is_function _).
Qed.

Lemma validate_unknown_stops n w :
  allows_unknown this o = true ->
  errs w = [] -> stops_within n (validate_unknown this state o w).
Proof.
  intros U E. unfold validate_unknown. destruct (_ && _); [|exact E].
  unfold allows_unknown in U. rewrite U. simpl.
  destruct (_ || _); [|exact E]. now rewrite strip_unknown_keys_errs.
Qed.

Lemma validate_dependencies_stops n w :
  abortEarly o = true -> 1 <= n ->
  errs w = [] -> stops_within n (validate_dependencies reach Joi_reach this state o w).
Proof.
  intros A N E. unfold validate_dependencies. apply for_each_stops; [|exact E].
  intros dep w1 _ E1. unfold validate_dependency.
  destruct (dependencies_method _ _ _ _ _ _ _); [|exact E1].
  apply raise_stops; auto.
Qed.

(** Under [abortEarly], when undeclared keys are allowed, the walk stops at
    the first step that fails: if no rule of a child or of a pattern
    reports more than [n] errors at once, [_base] returns at most [n]. *)
Theorem abort_early_first_failure (n : nat) (value : Value) :
  abortEarly o = true -> allows_unknown this o = true -> 1 <= n ->
  (forall cs c, children this = Some cs -> In c cs ->
     forall v st, List.length (reports (_validate (schema c) v st o)) <= n) ->
  (forall p, In p (patterns this) ->
     forall v st, List.length (reports (_validate (rule p) v st o)) <= n) ->
  List.length (error_list (_base reach Joi_reach this value state o)) <= n.
Proof.
  intros A U N Hc Hp.
  assert (W : forall props,
            List.length (errs (flow_value (walk reach Joi_reach this state o props))) <= n).
  { intros props.
    assert (S : stops_within n (walk reach Joi_reach this state o props)).
    { unfold walk, _rename. apply bind_stops.
      - apply rename_loop_stops; auto.
      - intros w E. destruct (shapeless this); [simpl; rewrite E; simpl; lia|].
        apply bind_stops; [apply bind_stops|].
        + unfold validate_declared. apply bind_stops.
          * apply validate_children_stops; auto.
          * intros w1 E1. apply validate_patterns_stops; auto.
        + intros w1 E1. apply validate_unknown_stops; auto.
        + intros w1 E1. apply validate_dependencies_stops; auto. }
    destruct (walk reach Joi_reach this state o props) as [w|w]; simpl in *; [|exact S].
    rewrite S. simpl. lia. }
  unfold _base.
  destruct value, (flag_func this); simpl; try lia.
  all: destruct (_ && _ && _ && _); simpl; try lia.
  all: rewrite finish_errors; apply W.
Qed.

(** *** The declared children, one by one *)

Lemma validate_child_turn child w :
  abortEarly o = false ->
  let k := key child in
  let item := get (target w) k in
  let r := _validate (schema child) item
             (_state (Some k) (state_path state ++ [k]) (wrap this (target w) :: ancestors state))
             o in
  exists w',
    validate_child this state o child w = Continue w' /\
    errs w' = errs w ++ reports r /\
    (In k (strips w') <->
     In k (strips w) \/ flag_strip (schema child) = true \/
     (errors r = None /\ value r = VUndefined /\ item <> VUndefined)) /\
    (errors r = None -> value r <> VUndefined ->
     Obj.lookup (target w') k = Some (if flag_strip (schema child) then outcome r else value r)) /\
    (errors r <> None -> Obj.lookup (target w') k = Obj.lookup (target w) k).
Proof.
  intros A k item r. unfold validate_child. fold k. simpl. fold item. fold r.
  unfold reports. destruct (errors r) as [es|] eqn:Er; simpl.
  - rewrite raise_continue by assumption. simpl.
    destruct (flag_strip (schema child)) eqn:Fs; simpl.
    + eexists. split; [reflexivity|]. simpl. split; [reflexivity|].
      split; [rewrite in_app_iff; simpl; tauto|]. split; [discriminate | auto].
    + eexists. split; [reflexivity|]. simpl. split; [reflexivity|].
      split; [|split; [discriminate | auto]].
      split; [tauto|]. intros [H|[H|[H _]]]; [exact H | discriminate | discriminate].
  - destruct (flag_strip (schema child)) eqn:Fs; simpl.
    + eexists. split; [reflexivity|]. simpl. split; [now rewrite app_nil_r|].
      split; [rewrite !in_app_iff; simpl; tauto|].
      split; [intros _ _; apply lookup_set_same | congruence].
    + destruct (is_undefined (value r)) eqn:Uv; simpl.
      * destruct (is_undefined item) eqn:Ui; simpl.
        -- eexists. split; [reflexivity|]. simpl. split; [now rewrite app_nil_r|].
           split; [|split; [|congruence]].
           ++ split; [tauto|]. intros [H|[H|(_ & _ & H)]]; [exact H | discriminate|].
              destruct item; simpl in Ui; congruence.
           ++ intros _ H. destruct (value r); simpl in Uv; congruence.
        -- eexists. split; [reflexivity|]. simpl. split; [now rewrite app_nil_r|].
           split; [|split; [|congruence]].
           ++ rewrite in_app_iff. simpl. split; [intros _|tauto]. right. right.
              split; [reflexivity|]. split.
              ** destruct (value r); simpl in Uv; congruence.
              ** intros H. rewrite H in Ui. discriminate.
           ++ intros _ H. destruct (value r); simpl in Uv; congruence.
      * eexists. split; [reflexivity|]. simpl. split; [now rewrite app_nil_r|].
        split; [|split; [|congruence]].
        -- split; [tauto|]. intros [H|[H|(_ & H & _)]]; [exact H | discriminate|].
           rewrite H in Uv. discriminate.
        -- intros _ _. apply lookup_set_same.
Qed.

(** What the walk does with one declared child, for keys declared once. *)
Lemma children_loop_child l1 c l2 w0 :
  abortEarly o = false ->
  NoDup (map key (l1 ++ c :: l2)) ->
  ~ In (key c) (strips w0) ->
  exists st w1,
    state_key st = Some (key c) /\ state_path st = state_path state ++ [key c] /\
    let item := get (target w0) (key c) in
    let r := _validate (schema c) item st o in
    for_each (validate_child this state o) (l1 ++ c :: l2) w0 = Continue w1 /\
    incl (reports r) (errs w1) /\
    (In (key c) (strips w1) <->
     flag_strip (schema c) = true \/
     (errors r = None /\ value r = VUndefined /\ item <> VUndefined)) /\
    (errors r = None -> value r <> VUndefined ->
     Obj.lookup (target w1) (key c)
     = Some (if flag_strip (schema c) then outcome r else value r)) /\
    (errors r <> None -> Obj.lookup (target w1) (key c) = Obj.lookup (target w0) (key c)).
Proof.
  intros A Nd Ns.
  rewrite map_app in Nd. simpl in Nd.
  assert (N1 : ~ In (key c) (map key l1)).
  { intros H. apply NoDup_remove_2 in Nd. apply Nd. apply in_or_app. now left. }
  assert (N2 : ~ In (key c) (map key l2)).
  { intros H. apply NoDup_remove_2 in Nd. apply Nd. apply in_or_app. now right. }
  destruct (children_loop_spec this state o l1 w0) as (F1 & S1 & _ & _ & C1).
  destruct (C1 A) as (wa & Ea). rewrite Ea in F1, S1. simpl in F1, S1.
  assert (La : Obj.lookup (target wa) (key c) = Obj.lookup (target w0) (key c)).
  { apply (fr_target _ _ _ F1). exact N1. }
  assert (Ga : get (target wa) (key c) = get (target w0) (key c)).
  { unfold get. now rewrite La. }
  assert (Sa : ~ In (key c) (strips wa)).
  { intros H. apply S1 in H. tauto. }
  destruct (validate_child_turn c wa A) as (wb & Eb & Rb & Sb & Vb & Ub).
  cbv zeta in Rb, Sb, Vb, Ub. rewrite Ga in Rb, Sb, Vb, Ub.
  destruct (children_loop_spec this state o l2 wb) as (F2 & S2 & M2 & _ & C2).
  destruct (C2 A) as (wc & Ec). rewrite Ec in F2, S2, M2. simpl in F2, S2, M2.
  assert (Lc : Obj.lookup (target wc) (key c) = Obj.lookup (target wb) (key c)).
  { apply (fr_target _ _ _ F2). exact N2. }
  exists (_state (Some (key c)) (state_path state ++ [key c])
            (wrap this (target wa) :: ancestors state)), wc.
  split; [reflexivity|]. split; [reflexivity|]. cbv zeta.
  split; [|split; [|split; [|split]]].
  - rewrite for_each_app, Ea. simpl. rewrite Eb. simpl. exact Ec.
  - destruct (fr_errs _ _ _ F2) as (es & ->). rewrite Rb.
    intros e He. apply in_or_app. left. apply in_or_app. now right.
  - split.
    + intros H. apply S2 in H. destruct H as [H|H]; [|contradiction].
      apply Sb in H. tauto.
    + intros H. apply M2. apply Sb. tauto.
  - intros H1 H2. rewrite Lc. now apply Vb.
  - intros H. rewrite Lc, (Ub H). exact La.
Qed.

Lemma base_child_outcome input props cs c :
  accepts this input props ->
  abortEarly o = false ->
  children this = Some cs -> NoDup (map key cs) -> In c cs ->
  exists st,
    state_key st = Some (key c) /\ state_path st = state_path state ++ [key c] /\
    let item := get (renamed this state o props) (key c) in
    let r := _validate (schema c) item st o in
    let final := props_of (base_value (_base reach Joi_reach this input state o)) in
    incl (reports r) (error_list (_base reach Joi_reach this input state o)) /\
    (flag_strip (schema c) = true \/
     (errors r = None /\ value r = VUndefined /\ item <> VUndefined) ->
     Obj.lookup final (key c) = None) /\
    (flag_strip (schema c) = false -> errors r = None -> value r <> VUndefined ->
     Obj.lookup final (key c) = Some (value r)) /\
    (flag_strip (schema c) = false -> errors r <> None ->
     Obj.lookup final (key c) = Obj.lookup (renamed this state o props) (key c)).
Proof.
  intros Acc A Ecs Nd Hc. rewrite (base_accepts reach Joi_reach this state o input props Acc).
  assert (Fp : fast_path this = false).
  { unfold fast_path. rewrite Ecs. now rewrite andb_false_r. }
  assert (Sh : shapeless this = false).
  { unfold shapeless. now rewrite Ecs. }
  rewrite Fp, finish_value, finish_errors. unfold renamed, walk.
  destruct (rename_loop_continue state o (renames this) [] (mkWalk props [] [] []) A)
    as (w_r & Er).
  unfold _rename. rewrite Er. simpl. rewrite Sh. unfold validate_declared.
  set (w0 := with_unprocessed w_r _).
  destruct (validate_children_spec this state o w0) as (_ & C & _).
  unfold validate_children in *. rewrite Ecs in *.
  apply in_split in Hc. destruct Hc as (l1 & l2 & ->).
  destruct (children_loop_child l1 c l2 (with_strips w0 []) A Nd (fun H => H))
    as (st & w1 & Sk & Sp & E1 & I & S & V & U).
  rewrite E1 in *. simpl in C. simpl.
  destruct (C _ _ eq_refl eq_refl c) as [Un _].
  { apply in_or_app. right. now left. }
  set (w_c := with_target w1 _) in *.
  pose proof (after_children_Frame reach Joi_reach this state o w_c) as F.
  exists st. split; [exact Sk|]. split; [exact Sp|]. cbv zeta.
  rewrite (fr_target _ _ _ F _ Un).
  simpl in I, S, V, U.
  split; [|split; [|split]].
  - destruct (fr_errs _ _ _ F) as (es & ->). simpl.
    intros e He. apply in_or_app. left. now apply I.
  - intros H. simpl. apply lookup_fold_delete. now apply S.
  - intros Fs Er0 Dv. simpl. rewrite lookup_fold_delete_other.
    + rewrite (V Er0 Dv), Fs. reflexivity.
    + intros H. apply S in H. destruct H as [H|(_ & H & _)]; congruence.
  - intros Fs Er0. simpl. rewrite lookup_fold_delete_other.
    + now apply U.
    + intros H. apply S in H. destruct H as [H|(H & _)]; congruence.
Qed.

(** With [abortEarly] off every declared child is validated, on the value
    its key has once the renames are done, and all its errors are among
    those returned, whatever the other children report. The key is one
    under which the value inherits nothing, so that the lookup reads what
    the value holds of its own. *)
Theorem every_child_reports input props cs c :
  accepts this input props ->
  abortEarly o = false ->
  children this = Some cs -> NoDup (map key cs) -> In c cs -> own_name (key c) ->
  exists st,
    state_key st = Some (key c) /\ state_path st = state_path state ++ [key c] /\
    incl (reports (_validate (schema c) (get (renamed this state o props) (key c)) st o))
         (error_list (_base reach Joi_reach this input state o)).
Proof.
  intros Acc A Ecs Nd Hc _.
  destruct (base_child_outcome input props cs c Acc A Ecs Nd Hc) as (st & Sk & Sp & I & _).
  exists st. auto.
Qed.

(** With [abortEarly] off, what a declared child leaves under its key: the
    value of its result when the validation passes with a defined value;
    nothing when it passes with an undefined value for a defined item;
    the key as it was when the validation fails (unlike a pattern, a
    failed child does not write its value back). *)
Theorem child_result_written input props cs c :
  accepts this input props ->
  abortEarly o = false ->
  children this = Some cs -> NoDup (map key cs) -> In c cs -> own_name (key c) ->
  flag_strip (schema c) = false ->
  exists st,
    state_key st = Some (key c) /\ state_path st = state_path state ++ [key c] /\
    let item := get (renamed this state o props) (key c) in
    let r := _validate (schema c) item st o in
    let final := props_of (base_value (_base reach Joi_reach this input state o)) in
    (errors r = None -> value r <> VUndefined ->
     Obj.lookup final (key c) = Some (value r)) /\
    (errors r = None -> value r = VUndefined -> item <> VUndefined ->
     Obj.lookup final (key c) = None) /\
    (errors r <> None ->
     Obj.lookup final (key c) = Obj.lookup (renamed this state o props) (key c)).
Proof.
  intros Acc A Ecs Nd Hc _ Fs.
  destruct (base_child_outcome input props cs c Acc A Ecs Nd Hc)
    as (st & Sk & Sp & _ & S & V & U).
  exists st. split; [exact Sk|]. split; [exact Sp|]. cbv zeta. split; [|split].
  - intros E Dv. now apply V.
  - intros E Uv Di. apply S. right. auto.
  - intros E. now apply U.
Qed.

(** *** Undeclared keys that hold functions *)

Lemma skip_fold (t : Props) (es : list Error) (ss : list string) (l : list string) :
  forall u,
  fold_left
    (fun w k =>
       if is_function (get (target w) k)
       then with_unprocessed w (set_delete (unprocessed w) k)
       else w)
    l (mkWalk t es u ss)
  = mkWalk t es (filter (fun x => negb (is_function (get t x) && includes l x)) u) ss.
Proof.
  induction l as [|k l IH]; simpl; intros u.
  - f_equal. induction u as [|x u IHu]; [reflexivity|].
    cbn [filter includes existsb]. rewrite andb_false_r. cbn [negb]. f_equal. exact IHu.
  - destruct (is_function (get t k)) eqn:Fk.
    + unfold with_unprocessed. simpl. rewrite IH. f_equal.
      unfold set_delete. clear IH. induction u as [|x u IHu]; simpl; [reflexivity|].
      rewrite (String.eqb_sym x k).
      destruct (String.eqb_spec k x) as [<-|N]; simpl.
      * rewrite Fk. simpl. exact IHu.
      * rewrite IHu. reflexivity.
    + rewrite IH. f_equal. apply filter_ext. intros x.
      destruct (String.eqb_spec x k) as [->|N]; simpl; [|reflexivity].
      rewrite Fk. reflexivity.
Qed.

Lemma skip_fold_self (t : Props) (l : list string) :
  filter (fun x => negb (is_function (get t x) && includes l x)) l
  = filter (fun x => negb (is_function (get t x))) l.
Proof.
  apply filter_ext_in. intros x Hx.
  assert (I : includes l x = true) by now apply includes_In.
  rewrite I. now rewrite andb_true_r.
Qed.

(** With [skipFunctions] and no stripping of undeclared keys, the step on
    the undeclared keys leaves the value as it is, passes over the keys
    that hold a function and reports every other key still unprocessed,
    in order, unless undeclared keys are allowed. The keys still
    unprocessed are keys of the value. *)
Theorem functions_are_skipped (w : Walk) :
  skipFunctions o = true ->
  stripUnknown o = SU_unset \/ (exists a, stripUnknown o = SU_object a false) ->
  shaped this = true ->
  incl (unprocessed w) (Obj.keys (target w)) ->
  let left := filter (fun k => negb (is_function (get (target w) k))) (unprocessed w) in
  validate_unknown this state o w
  = Continue (mkWalk (target w)
                (errs w ++ (if allows_unknown this o then []
                            else map (unknown_error state o (target w)) left))
                (if Nat.eqb (List.length (unprocessed w)) 0 then unprocessed w else left)
                (strips w)).
Proof.
  intros Sk Su Sh _. cbv zeta. unfold validate_unknown. fold (shaped this). rewrite Sh, Sk.
  rewrite orb_true_r, andb_true_r.
  destruct (Nat.eqb (List.length (unprocessed w)) 0) eqn:E; simpl.
  - apply Nat.eqb_eq in E. destruct w as [t es u ss]. simpl in *.
    destruct u; [|discriminate]. simpl.
    destruct (allows_unknown this o); now rewrite app_nil_r.
  - unfold strip_unknown_keys.
    assert (B : match stripUnknown o with
                | SU_unset => false | SU_true => true | SU_object _ objects => objects end
                = false).
    { destruct Su as [->|[a ->]]; reflexivity. }
    rewrite B. destruct w as [t es u ss]. simpl.
    rewrite (skip_fold t es ss u u), skip_fold_self. simpl.
    unfold allows_unknown. destruct (match flag_allowUnknown this with
                                     | Some b => b | None => allowUnknown o end); simpl.
    + now rewrite app_nil_r.
    + reflexivity.
Qed.

(** *** The dependencies *)

(** With [abortEarly] off the dependencies are evaluated last, on the
    value that is returned, and what they report closes the list of
    errors, in declaration order. *)
Theorem dependency_errors_close_the_list input props :
  accepts this input props ->
  abortEarly o = false ->
  exists es,
    error_list (_base reach Joi_reach this input state o)
    = es ++ flat_map (dependency_errors reach Joi_reach this state o
                        (props_of (base_value (_base reach Joi_reach this input state o))))
                     (dependencies this).
Proof.
  intros Acc A. rewrite (base_accepts reach Joi_reach this state o input props Acc).
  destruct (fast_path this) eqn:Fp.
  { destruct (fast_path_shape this Fp) as (_ & -> & _).
    exists []. reflexivity. }
  rewrite finish_value, finish_errors. unfold walk.
  destruct (rename_loop_continue state o (renames this) [] (mkWalk props [] [] []) A)
    as (w_r & Er).
  unfold _rename. rewrite Er. simpl.
  destruct (shapeless this) eqn:Sh.
  { destruct (shapeless_shape this Sh) as (-> & _).
    simpl. exists (errs w_r). now rewrite app_nil_r. }
  unfold validate_declared.
  destruct (validate_children_spec this state o
              (with_unprocessed w_r (nodup string_dec (Obj.keys (target w_r)))))
    as (_ & _ & K).
  destruct (K A) as (w_c & ->). simpl.
  destruct (validate_patterns_continue this state o w_c A) as (w_p & ->). simpl.
  destruct (validate_unknown_continue this state o w_p) as (w_u & ->). simpl.
  unfold validate_dependencies.
  rewrite (dependencies_collected reach Joi_reach this state o) by assumption. simpl.
  exists (errs w_u). reflexivity.
Qed.

(** *** The type test *)

(** A value that is not of the type of the schema (an object, or a
    function for a schema flagged [func]) is returned as it is with the
    single error [object.base] or [function.base], whatever the rules the
    schema holds: nothing else is looked at. *)
Theorem wrong_type_is_rejected (value : Value) :
  (forall props, value <> wrap this props) ->
  _base reach Joi_reach this value state o
  = mkBase value
      (Some [createError ((if flag_func this then "function" else "object") ++ ".base")%string
               [("value", CVal value)] state o]).
Proof.
  intros H. unfold _base, wrap in *.
  destruct value, (flag_func this); try reflexivity.
  - exfalso. now apply (H props).
  - exfalso. now apply (H props).
Qed.

End BaseProps.
(** *** The properties on sample inputs *)

Lemma abort_early_first_failure_witness :
  List.length (error_list (_base sample_reach no_labels rejected_a_open (VObject a_c_d)
                             root_state default_options)) <= 1.
Proof.
  apply (abort_early_first_failure sample_reach no_labels rejected_a_open root_state
           default_options 1 (VObject a_c_d)); try reflexivity.
  - intros cs c E Hc v st. injection E as <-. destruct Hc as [<-|[]]. simpl. lia.
  - intros p [].
Defined.

Lemma every_child_reports_witness :
  exists st,
    state_key st = Some "b" /\ state_path st = state_path root_state ++ ["b"] /\
    incl (reports (_validate (rejecting "bad_b" (VNumber 2))
                     (get (renamed rejected_a_b root_state collect_all a_and_c) "b")
                     st collect_all))
         (error_list (_base sample_reach no_labels rejected_a_b (VObject a_and_c)
                        root_state collect_all)).
Proof.
  apply (every_child_reports sample_reach no_labels rejected_a_b root_state collect_all
           (VObject a_and_c) a_and_c
           [mkChild "a" (rejecting "bad_a" (VNumber 1));
            mkChild "b" (rejecting "bad_b" (VNumber 2))]
           (mkChild "b" (rejecting "bad_b" (VNumber 2)))); try reflexivity.
  - repeat constructor; simpl; intuition discriminate.
  - simpl. tauto.
  - own_names.
Defined.

Lemma child_result_written_witness :
  exists st,
    state_key st = Some "a" /\ state_path st = state_path root_state ++ ["a"] /\
    let item := get (renamed returning_a root_state collect_all a_and_c) "a" in
    let r := _validate (returning (VNumber 7)) item st collect_all in
    let final := props_of (base_value (_base sample_reach no_labels returning_a
                                         (VObject a_and_c) root_state collect_all)) in
    (errors r = None -> value r <> VUndefined ->
     Obj.lookup final "a" = Some (value r)) /\
    (errors r = None -> value r = VUndefined -> item <> VUndefined ->
     Obj.lookup final "a" = None) /\
    (errors r <> None ->
     Obj.lookup final "a" = Obj.lookup (renamed returning_a root_state collect_all a_and_c) "a").
Proof.
  apply (child_result_written sample_reach no_labels returning_a root_state collect_all
           (VObject a_and_c) a_and_c [mkChild "a" (returning (VNumber 7))]
           (mkChild "a" (returning (VNumber 7)))); try reflexivity.
  - repeat constructor; simpl; intuition discriminate.
  - simpl. tauto.
  - own_names.
Defined.

Lemma functions_are_skipped_witness :
  validate_unknown only_a root_state skip_functions (mkWalk a_f_c [] ["f"; "c"] [])
  = Continue (mkWalk a_f_c [unknown_error root_state skip_functions a_f_c "c"] ["c"] []).
Proof.
  apply (functions_are_skipped only_a root_state skip_functions
           (mkWalk a_f_c [] ["f"; "c"] [])); try reflexivity.
  - left. reflexivity.
  - intros k. simpl. tauto.
Defined.

Lemma dependency_errors_close_the_list_witness :
  exists es,
    error_list (_base sample_reach no_labels rejected_a_xor (VObject a_and_c)
                  root_state collect_all)
    = es ++ flat_map (dependency_errors sample_reach no_labels rejected_a_xor root_state
                        collect_all
                        (props_of (base_value (_base sample_reach no_labels rejected_a_xor
                                                 (VObject a_and_c) root_state collect_all))))
                     (dependencies rejected_a_xor).
Proof.
  apply (dependency_errors_close_the_list sample_reach no_labels rejected_a_xor root_state
           collect_all (VObject a_and_c) a_and_c); reflexivity.
Defined.

Lemma wrong_type_is_rejected_witness :
  _base sample_reach no_labels only_a (VArray []) root_state default_options
  = mkBase (VArray [])
      (Some [createError "object.base" [("value", CVal (VArray []))] root_state
               default_options]).
Proof.
  apply (wrong_type_is_rejected sample_reach no_labels only_a root_state default_options
           (VArray [])).
  intros props. discriminate.
Defined.

End BaseProps.

(** ** Renaming *)

Module RenameProps.
Import WalkFacts.

Section RenameProps.
Variable state : State.
Variable o : Options.

Lemma renamed_has_own renamed_ k :
  own_name k -> renamed_has renamed_ k = includes renamed_ k.
Proof.
  intros N. unfold renamed_has.
  destruct (includes Object_prototype k) eqn:I; [|apply orb_false_r].
  apply includes_In in I. contradiction.
Qed.

Lemma rename_checks_pass r c1 c2 ctx renamed_ w :
  multiple (rename_options r) = true \/ renamed_has renamed_ (to r) = false ->
  override (rename_options r) = true \/ Obj.lookup (target w) (to r) = None
  \/ renamed_has renamed_ (to r) = true ->
  rename_checks state o r c1 c2 ctx renamed_ w = Continue w.
Proof.
  intros M O. unfold rename_checks.
  assert (E1 : negb (multiple (rename_options r)) && renamed_has renamed_ (to r) = false).
  { destruct M as [->| ->]; [reflexivity | apply andb_false_r]. }
  rewrite E1. simpl.
  assert (E2 : Obj.hasOwn (target w) (to r) && negb (override (rename_options r))
               && negb (renamed_has renamed_ (to r)) = false).
  { destruct O as [->|[N| ->]].
    - simpl. now rewrite andb_false_r.
    - unfold Obj.hasOwn. now rewrite N.
    - simpl. apply andb_false_r. }
  now rewrite E2.
Qed.

Lemma rename_checks_may_write r c1 c2 ctx renamed_ w :
  own_name (to r) -> may_write r renamed_ (target w) ->
  rename_checks state o r c1 c2 ctx renamed_ w = Continue w.
Proof.
  intros N [M O]. apply rename_checks_pass; rewrite (renamed_has_own _ _ N).
  - destruct M as [M|M]; [now left | right].
    destruct (includes renamed_ (to r)) eqn:I; [|reflexivity].
    apply includes_In in I. contradiction.
  - destruct O as [O|[O|O]]; [now left | right; now left | right; right].
    now apply includes_In.
Qed.

(** A directive with a literal source and without [alias] moves the value:
    the target takes the defined value of the source, the source key is
    removed, every other key stays, and nothing is reported. *)
Theorem rename_moves_the_value (r : Rename) (source : string) (v : Value)
  (renamed_ : list string) (w : Walk) :
  from r = FromKey source -> alias (rename_options r) = false ->
  source <> to r -> own_name source -> own_name (to r) ->
  Obj.lookup (target w) source = Some v -> v <> VUndefined ->
  may_write r renamed_ (target w) ->
  exists w',
    rename_loop state o [r] renamed_ w = Continue w' /\
    errs w' = errs w /\
    Obj.lookup (target w') (to r) = Some v /\
    Obj.lookup (target w') source = None /\
    forall k, k <> source -> k <> to r ->
      Obj.lookup (target w') k = Obj.lookup (target w) k.
Proof.
  intros F Al N _ Nt Ls Dv Mw.
  assert (G : get (target w) source = v) by (unfold get; now rewrite Ls).
  simpl. rewrite F. unfold rename_key.
  rewrite G, (is_undefined_false _ Dv), andb_false_r.
  rewrite rename_checks_may_write by assumption.
  rewrite G, (is_undefined_false _ Dv), Al.
  eexists. split; [reflexivity|]. simpl. split; [reflexivity|]. split; [|split].
  - rewrite lookup_delete_other by congruence. apply lookup_set_same.
  - apply lookup_delete_same.
  - intros k Ks Kt. rewrite lookup_delete_other by assumption.
    now apply lookup_set_other.
Qed.


(** A directive without [override] that is the first to write a target
    the value already holds reports [object.rename.override] with the two
    keys: under [abortEarly] the renaming stops there, the value as it
    was and later directives not run; otherwise the target is written
    over all the same and the walk goes on. *)
Theorem rename_over_an_existing_key (r : Rename) (rs : list Rename) (source : string)
  (v t : Value) (renamed_ : list string) (w : Walk) :
  from r = FromKey source -> source <> to r -> own_name source -> own_name (to r) ->
  override (rename_options r) = false ->
  Obj.lookup (target w) source = Some v -> v <> VUndefined ->
  Obj.lookup (target w) (to r) = Some t -> ~ In (to r) renamed_ ->
  let e := createError "object.rename.override"
             [("from", CStr source); ("to", CStr (to r))] state o in
  (abortEarly o = true ->
   rename_loop state o (r :: rs) renamed_ w
   = Return (mkWalk (target w) (errs w ++ [e]) (unprocessed w) (strips w))) /\
  (abortEarly o = false ->
   exists w',
     rename_loop state o [r] renamed_ w = Continue w' /\
     errs w' = errs w ++ [e] /\
     Obj.lookup (target w') (to r) = Some v).
Proof.
  intros F Ns _ Nt Ov Ls Dv Lt Nr e.
  assert (G : get (target w) source = v) by (unfold get; now rewrite Ls).
  assert (I : renamed_has renamed_ (to r) = false).
  { rewrite (renamed_has_own _ _ Nt).
    destruct (includes renamed_ (to r)) eqn:I; [|reflexivity].
    apply includes_In in I. contradiction. }
  cbn [rename_loop]. rewrite F. unfold rename_key, rename_checks.
  rewrite G, (is_undefined_false _ Dv), andb_false_r, I, andb_false_r.
  unfold Obj.hasOwn. cbn [bind]. rewrite Lt, Ov. cbn [negb andb].
  unfold raise. split.
  - intros ->. reflexivity.
  - intros ->. cbn [with_target target errs]. rewrite G, (is_undefined_false _ Dv).
    eexists. split; [reflexivity|]. split; [reflexivity|].
    destruct (alias (rename_options r)); unfold with_target; cbn [target].
    + apply lookup_set_same.
    + rewrite lookup_delete_other by congruence. apply lookup_set_same.
Qed.

(** Directives that all have [multiple] and [override] never report. *)
Theorem permissive_renames_never_fail (rs : list Rename) :
  Forall (fun r => multiple (rename_options r) = true /\
                   override (rename_options r) = true) rs ->
  forall renamed_ w,
  exists w', rename_loop state o rs renamed_ w = Continue w' /\ errs w' = errs w.
Proof.
  induction 1 as [|r rs [M O] _ IH]; intros renamed_ w; simpl; [eauto|].
  assert (C : forall c1 c2 ctx w1,
            rename_checks state o r c1 c2 ctx renamed_ w1 = Continue w1).
  { intros c1 c2 ctx w1. apply rename_checks_pass; auto. }
  destruct (from r) as [k|test].
  - unfold rename_key. destruct (_ && _).
    + apply IH.
    + rewrite C. destruct (IH (to r :: renamed_)
        (with_target w
           (if alias (rename_options r)
            then if is_undefined (get (target w) k)
                 then Obj.delete (target w) (to r)
                 else Obj.set (target w) (to r) (get (target w) k)
            else Obj.delete
                   (if is_undefined (get (target w) k)
                    then Obj.delete (target w) (to r)
                    else Obj.set (target w) (to r) (get (target w) k)) k)))
        as (w' & E & Er).
      exists w'. split; [exact E | exact Er].
  - unfold rename_regex. destruct (_ && _).
    + apply IH.
    + rewrite C. match goal with |- context [rename_loop state o rs ?l ?x] =>
        destruct (IH l x) as (w' & E & Er) end.
      exists w'. split; [exact E | exact Er].
Qed.

(** A directive with a pattern as its source, over keys of which one at
    least holds a defined value: the target takes the value of the last
    key that matches, in the order of the keys; without [alias] every
    other matching key is removed; the keys that do not match stay. *)
Theorem rename_by_pattern (r : Rename) (test : string -> bool) (ms : list string)
  (last : string) (renamed_ : list string) (w : Walk) :
  from r = FromRegex test -> own_name (to r) ->
  filter test (Obj.keys (target w)) = ms ++ [last] ->
  (exists k, In k (ms ++ [last]) /\ get (target w) k <> VUndefined) ->
  may_write r renamed_ (target w) ->
  exists w',
    rename_loop state o [r] renamed_ w = Continue w' /\
    errs w' = errs w /\
    Obj.lookup (target w') (to r) = Some (get (target w) last) /\
    (alias (rename_options r) = false ->
     forall k, In k (ms ++ [last]) -> k <> to r -> Obj.lookup (target w') k = None) /\
    (forall k, test k = false -> k <> to r ->
     Obj.lookup (target w') k = Obj.lookup (target w) k).
Proof.
  intros F Own Em (k0 & Hk0 & Dk0) Mw.
  assert (U : forallb (fun k => is_undefined (get (target w) k)) (ms ++ [last]) = false).
  { destruct (forallb _ (ms ++ [last])) eqn:E; [|reflexivity].
    rewrite forallb_forall in E. specialize (E k0 Hk0).
    destruct (get (target w) k0); simpl in E; congruence. }
  simpl. rewrite F. unfold rename_regex. rewrite Em, U, andb_false_r.
  rewrite rename_checks_may_write by assumption.
  rewrite rev_app_distr. simpl.
  eexists. split; [reflexivity|]. simpl. split; [reflexivity|].
  set (t1 := Obj.set (target w) (to r) (get (target w) last)).
  assert (D : forall l k,
            Obj.lookup (fold_left (fun t x => if negb (String.eqb x (to r))
                                              then Obj.delete t x else t) l t1) k
            = if existsb (String.eqb k) l && negb (String.eqb k (to r))
              then None else Obj.lookup t1 k).
  { intros l. generalize t1. induction l as [|x l IH]; intros t k; simpl; [reflexivity|].
    rewrite IH. destruct (String.eqb_spec k x) as [<-|N]; simpl.
    - destruct (String.eqb_spec k (to r)) as [->|Nt]; simpl.
      + now rewrite andb_false_r.
      + rewrite lookup_delete_same. now destruct (existsb _ l).
    - destruct (String.eqb_spec x (to r)) as [->|Nt]; simpl; [reflexivity|].
      now rewrite lookup_delete_other. }
  split; [|split].
  - destruct (alias (rename_options r)).
    + apply lookup_set_same.
    + rewrite D, String.eqb_refl. simpl. rewrite andb_false_r. apply lookup_set_same.
  - intros -> k Hk Nk. rewrite D.
    assert (E : existsb (String.eqb k) (ms ++ [last]) = true).
    { apply existsb_exists. exists k. split; [exact Hk | apply String.eqb_refl]. }
    rewrite E. now destruct (String.eqb_spec k (to r)).
  - intros k Tk Nk.
    assert (E : existsb (String.eqb k) (ms ++ [last]) = false).
    { destruct (existsb _ (ms ++ [last])) eqn:E; [|reflexivity].
      apply existsb_exists in E. destruct E as (x & Hx & Ex).
      apply String.eqb_eq in Ex. subst x. rewrite <- Em in Hx.
      apply filter_In in Hx. destruct Hx as [_ Hx]. congruence. }
    destruct (alias (rename_options r)).
    + now apply lookup_set_other.
    + rewrite D, E. simpl. now apply lookup_set_other.
Qed.

End RenameProps.

(** *** The builder *)

Lemma same_from_key (x : RenameFrom) (k : string) :
  same_from x (FromKey k) = true <-> x = FromKey k.
Proof.
  destruct x as [a|t]; simpl; [|split; discriminate].
  rewrite String.eqb_eq. split; congruence.
Qed.

(** [rename] refuses a literal source equal to the target and a literal
    source that a directive of the schema has already; otherwise it
    appends the directive and changes nothing else, so that the literal
    sources of a schema stay distinct. *)
Theorem rename_keeps_sources_distinct (this : ObjectSchema) (k to_ : string)
  (options : RenameArgs) :
  ((exists e, rename this (FromKey k) to_ options = inl e)
   <-> k = to_ \/ In k (literal_sources (renames this))) /\
  (forall this', rename this (FromKey k) to_ options = inr this' ->
     renames this' = renames this
                     ++ [mkRename (FromKey k) to_ (applyToDefaults renameDefaults options)] /\
     children this' = children this /\ patterns this' = patterns this /\
     dependencies this' = dependencies this /\
     (NoDup (literal_sources (renames this)) ->
      NoDup (literal_sources (renames this')))).
Proof.
  assert (S : same_from (FromKey to_) (FromKey k) = true <-> k = to_).
  { simpl. rewrite String.eqb_eq. split; congruence. }
  assert (L : existsb (fun r => same_from (from r) (FromKey k)) (renames this) = true
              <-> In k (literal_sources (renames this))).
  { rewrite existsb_exists. unfold literal_sources. split.
    - intros (r & Hr & E). apply same_from_key in E.
      apply in_flat_map. exists r. rewrite E. split; [exact Hr | now left].
    - intros H. apply in_flat_map in H. destruct H as (r & Hr & H).
      exists r. split; [exact Hr|]. destruct (from r) as [a|t]; simpl in *; [|contradiction].
      destruct H as [->|[]]. apply String.eqb_refl. }
  unfold rename. split.
  - destruct (same_from (FromKey to_) (FromKey k)) eqn:E1.
    + split; [intros _; left; now apply S | eauto].
    + destruct (existsb _ (renames this)) eqn:E2.
      * split; [intros _; right; now apply L | eauto].
      * split; [intros [e H]; discriminate|].
        intros [H|H]; [apply S in H | apply L in H]; congruence.
  - intros this'. destruct (same_from (FromKey to_) (FromKey k)) eqn:E1; [discriminate|].
    destruct (existsb _ (renames this)) eqn:E2; [discriminate|].
    intros [= <-]. simpl. repeat split; try reflexivity.
    intros Nd. unfold literal_sources. rewrite flat_map_app. simpl.
    apply NoDup_app; [exact Nd | repeat constructor; auto |].
    intros x Hx [<-|[]].
    assert (T : false = true) by (apply L; auto).
    discriminate.
Qed.

(** *** The properties on sample inputs *)

Lemma rename_moves_the_value_witness :
  exists w',
    rename_loop root_state default_options [move_a_b] [] (mkWalk a_and_c [] [] [])
    = Continue w' /\
    errs w' = [] /\
    Obj.lookup (target w') "b" = Some (VNumber 1) /\
    Obj.lookup (target w') "a" = None /\
    forall k, k <> "a" -> k <> "b" -> Obj.lookup (target w') k = Obj.lookup a_and_c k.
Proof.
  apply (rename_moves_the_value root_state default_options move_a_b "a" (VNumber 1) []
           (mkWalk a_and_c [] [] [])); try reflexivity; try discriminate; try own_names.
  split; right; [intros [] | left; reflexivity].
Defined.


Lemma rename_over_an_existing_key_witness :
  (abortEarly collect_all = true ->
   rename_loop root_state collect_all [move_a_c] [] (mkWalk a_and_c [] [] [])
   = Return (mkWalk a_and_c
               ([] ++ [createError "object.rename.override"
                         [("from", CStr "a"); ("to", CStr "c")] root_state collect_all])
               [] [])) /\
  (abortEarly collect_all = false ->
   exists w',
     rename_loop root_state collect_all [move_a_c] [] (mkWalk a_and_c [] [] [])
     = Continue w' /\
     errs w' = [] ++ [createError "object.rename.override"
                        [("from", CStr "a"); ("to", CStr "c")] root_state collect_all] /\
     Obj.lookup (target w') "c" = Some (VNumber 1)).
Proof.
  apply (rename_over_an_existing_key root_state collect_all move_a_c [] "a" (VNumber 1)
           (VNumber 2) [] (mkWalk a_and_c [] [] []));
    try reflexivity; try discriminate; own_names.
Defined.

Lemma permissive_renames_never_fail_witness :
  exists w',
    rename_loop root_state default_options [force_a_b; force_a_b] ["b"]
      (mkWalk a_and_c [] [] []) = Continue w' /\
    errs w' = [].
Proof.
  apply (permissive_renames_never_fail root_state default_options [force_a_b; force_a_b]).
  repeat constructor.
Defined.

Lemma rename_by_pattern_witness :
  exists w',
    rename_loop root_state default_options [move_a_or_c_z] [] (mkWalk a_c_d [] [] [])
    = Continue w' /\
    errs w' = [] /\
    Obj.lookup (target w') "z" = Some (get a_c_d "c") /\
    (alias (rename_options move_a_or_c_z) = false ->
     forall k, In k (["a"] ++ ["c"]) -> k <> "z" -> Obj.lookup (target w') k = None) /\
    (forall k, a_or_c k = false -> k <> "z" ->
     Obj.lookup (target w') k = Obj.lookup a_c_d k).
Proof.
  apply (rename_by_pattern root_state default_options move_a_or_c_z a_or_c ["a"] "c" []
           (mkWalk a_c_d [] [] [])); try reflexivity; try own_names.
  - exists "a". split; [now left | discriminate].
  - split; right; [intros [] | left; reflexivity].
Defined.

End RenameProps.

(** ** Composing the keys *)

Module KeysProps.
Import KeysFacts.

Lemma precedes_asym (A : Type) (l : list A) (x y : A) :
  NoDup l -> precedes l x y -> precedes l y x -> False.
Proof.
  intros Nd (l1 & l2 & l3 & E1) (m1 & m2 & m3 & E2). subst l.
  revert m1 Nd E2. induction l1 as [|z l1 IH]; intros m1 Nd E2; simpl in *.
  - inversion Nd as [|? ? Nx _]; subst. apply Nx.
    destruct m1 as [|z m1]; simpl in E2; injection E2 as Ez E2.
    + subst y. apply in_or_app. right. now left.
    + rewrite E2. apply in_or_app. right. right. apply in_or_app. right. now left.
  - inversion Nd as [|? ? Nz Nd']; subst.
    destruct m1 as [|z' m1]; simpl in E2; injection E2 as Ez E2.
    + subst z. apply Nz. apply in_or_app. right. right. apply in_or_app. right. now left.
    + now apply (IH m1).
Qed.

Section KeysProps.
Variable Raw : Type.
Variable Cast_schema : Raw -> Thrown + Schema.

Lemma cast_all_keys (fields : list (string * Raw)) (declared : list string) :
  forall cs, cast_all Cast_schema fields declared = Some cs -> map key cs = declared.
Proof.
  induction declared as [|k ks IH]; simpl; intros cs C.
  - now injection C as <-.
  - destruct (Obj.lookup fields k) as [r|]; [|discriminate].
    destruct (Cast_schema r) as [e|cast]; [discriminate|].
    destruct (cast_all Cast_schema fields ks) as [cs'|]; [|discriminate].
    injection C as <-. simpl. f_equal. now apply IH.
Qed.

Lemma cast_all_casts (fields : list (string * Raw)) (declared : list string) :
  forall cs k r, cast_all Cast_schema fields declared = Some cs -> In k declared ->
  Obj.lookup fields k = Some r -> exists s, Cast_schema r = inr s.
Proof.
  induction declared as [|k' ks IH]; simpl; intros cs k r C Hk L; [contradiction|].
  destruct (Obj.lookup fields k') as [r'|] eqn:L'; [|discriminate].
  destruct (Cast_schema r') as [e|cast] eqn:E'; [discriminate|].
  destruct (cast_all Cast_schema fields ks) as [cs'|]; [|discriminate].
  destruct Hk as [->|Hk].
  - rewrite L in L'. injection L' as ->. eauto.
  - eapply IH; eauto.
Qed.

Lemma untouched_keys (this : ObjectSchema) (declared : list string) (k : string) :
  In k (map key (untouched (children this) declared))
  <-> In k (declared_keys this) /\ ~ In k declared.
Proof.
  unfold untouched, declared_keys. destruct (children this) as [cs|]; simpl; [|tauto].
  rewrite !in_map_iff. split.
  - intros (c & <- & H). apply filter_In in H. destruct H as [H N]. split; [eauto|].
    intros I. apply WalkFacts.includes_In in I. rewrite I in N. discriminate.
  - intros [(c & <- & H) N]. exists c. split; [reflexivity|]. apply filter_In.
    split; [exact H|]. destruct (includes declared (key c)) eqn:I; [|reflexivity].
    apply WalkFacts.includes_In in I. contradiction.
Qed.

Lemma untouched_NoDup (this : ObjectSchema) (declared : list string) :
  NoDup (declared_keys this) -> NoDup (map key (untouched (children this) declared)).
Proof.
  unfold untouched, declared_keys. destruct (children this) as [cs|]; [|constructor].
  induction cs as [|c cs IH]; simpl; intros Nd; [constructor|].
  inversion Nd as [|? ? N Nd']; subst.
  destruct (negb (includes declared (key c))); simpl; [|apply IH; exact Nd'].
  constructor; [|apply IH; exact Nd']. intros H. apply N.
  apply in_map_iff in H. destruct H as (c' & E & H). apply filter_In in H.
  apply in_map_iff. exists c'. tauto.
Qed.

Lemma keys_declared_perm (this this' : ObjectSchema) (fm : list (string * Raw)) :
  fm <> [] -> keys Cast_schema this (Some fm) = inr this' ->
  exists cs, children this' = Some cs /\
    Permutation (map key (untouched (children this) (Obj.keys fm)) ++ Obj.keys fm)
                (map key cs).
Proof.
  intros Hfm H.
  destruct (@keys_inr _ _ _ _ fm Hfm H) as (D & cs & C & -> & P & _).
  pose proof (cast_all_keys _ _ _ C) as Kd.
  exists cs. split; [reflexivity|].
  pose proof (Permutation_map key P) as Pm. now rewrite map_app, Kd in Pm.
Qed.

Lemma keys_declared_NoDup (this this' : ObjectSchema) (fm : list (string * Raw)) :
  fm <> [] -> NoDup (Obj.keys fm) -> NoDup (declared_keys this) ->
  keys Cast_schema this (Some fm) = inr this' ->
  NoDup (declared_keys this').
Proof.
  intros Hfm Nf Nc H.
  destruct (keys_declared_perm this this' fm Hfm H) as (cs & Ec & Pk).
  unfold declared_keys at 1. rewrite Ec.
  eapply Permutation_NoDup; [exact Pk|]. apply NoDup_app.
  - now apply untouched_NoDup.
  - exact Nf.
  - intros k Hk. apply untouched_keys in Hk. tauto.
Qed.

(** The keys of the children stay distinct through [keys]: after a
    successful call on a non-empty field map the declared keys are those
    of the schema and those of the field map, each once. *)
Theorem keys_stay_distinct (this this' : ObjectSchema) (fm : list (string * Raw)) :
  fm <> [] -> NoDup (Obj.keys fm) -> NoDup (declared_keys this) ->
  keys Cast_schema this (Some fm) = inr this' ->
  children this' <> None /\
  NoDup (declared_keys this') /\
  forall k, In k (declared_keys this') <-> In k (declared_keys this) \/ In k (Obj.keys fm).
Proof.
  intros Hfm Nf Nc H.
  destruct (keys_declared_perm this this' fm Hfm H) as (cs & Ec & Pk).
  split; [rewrite Ec; discriminate|].
  split; [now apply (keys_declared_NoDup this this' fm)|].
  unfold declared_keys at 1. rewrite Ec.
  intros k. split.
  - intros Hk. eapply Permutation_in in Hk; [|apply Permutation_sym; exact Pk].
    apply in_app_or in Hk. destruct Hk as [Hk|Hk]; [|now right].
    apply untouched_keys in Hk. tauto.
  - intros Hk. eapply Permutation_in; [exact Pk|]. apply in_or_app.
    destruct (in_dec string_dec k (Obj.keys fm)) as [I|I]; [now right|].
    left. apply untouched_keys. tauto.
Qed.

Lemma add_declared_blames (fields : list (string * Raw)) (declared : list string) :
  forall topo e, add_declared Cast_schema fields declared topo = inl e ->
  exists k, In k declared /\ blames e k.
Proof.
  assert (B : forall k err, blames (prefix_path k err) k).
  { intros k err. unfold blames, prefix_path.
    destruct (thrown_path err) as [p|]; simpl; [right; eauto | now left]. }
  induction declared as [|k ks IH]; simpl; intros topo e H; [discriminate|].
  destruct (Obj.lookup fields k) as [r|].
  - destruct (Cast_schema r) as [err|cast].
    + injection H as <-. exists k. split; [now left | apply B].
    + destruct (Topo.add topo _ _ _) as [err|topo1].
      * injection H as <-. exists k. split; [now left | apply B].
      * apply IH in H. destruct H as (k' & Hk & Bk). exists k'. split; [now right | exact Bk].
  - injection H as <-. exists k. split; [now left | apply B].
Qed.

(** [keys] returns no schema when a field of the map fails to cast, and
    an error thrown while the fields of the map are added carries a path
    that starts with the key of a field of the map. *)
Theorem keys_blames_a_field (this : ObjectSchema) (fm : list (string * Raw)) :
  (forall k raw e0, Obj.lookup fm k = Some raw -> Cast_schema raw = inl e0 ->
     exists e, keys Cast_schema this (Some fm) = inl e) /\
  (forall e, keys Cast_schema this (Some fm) = inl e ->
     add_all (untouched (children this) (Obj.keys fm)) (Topo.empty Child) = inl e \/
     exists k, In k (Obj.keys fm) /\ blames e k).
Proof.
  split.
  - intros k raw e0 L E.
    destruct (keys Cast_schema this (Some fm)) as [e|this'] eqn:H; [eauto|].
    assert (Hfm : fm <> []) by (intros ->; discriminate).
    destruct (@keys_inr _ _ _ _ fm Hfm H) as (D & cs & C & _).
    destruct (cast_all_casts _ _ _ _ _ C (lookup_keys _ _ L) L) as (s & Es). congruence.
  - intros e. unfold keys.
    destruct (Nat.eqb (List.length (Obj.keys fm)) 0); [discriminate|].
    rewrite untouched_run.
    destruct (add_all _ (Topo.empty Child)) as [e1|topo1]; [intros [= <-]; now left|].
    destruct (add_declared Cast_schema fm (Obj.keys fm) topo1) as [e2|topo2] eqn:A;
      [|discriminate].
    intros [= <-]. right. eapply add_declared_blames. exact A.
Qed.

(** Two fields of the map that refer to each other make [keys] throw. *)
Theorem keys_rejects_a_cycle (this : ObjectSchema) (fm : list (string * Raw))
  (a b : string) (ra rb : Raw) (sa sb : Schema) :
  NoDup (Obj.keys fm) -> NoDup (declared_keys this) ->
  Obj.lookup fm a = Some ra -> Cast_schema ra = inr sa ->
  Obj.lookup fm b = Some rb -> Cast_schema rb = inr sb ->
  In b (roots sa) -> In a (roots sb) ->
  exists e, keys Cast_schema this (Some fm) = inl e.
Proof.
  intros Nf Nc La Ea Lb Eb Gab Gba.
  destruct (keys Cast_schema this (Some fm)) as [e|this'] eqn:H; [eauto|]. exfalso.
  assert (Hfm : fm <> []) by (intros ->; discriminate).
  pose proof (keys_declared_NoDup this this' fm Hfm Nf Nc H) as Nd.
  destruct (@keys_inr _ _ _ _ fm Hfm H) as (D & cs & C & -> & P & O).
  unfold declared_keys in Nd. simpl in Nd. apply NoDup_map_inv in Nd.
  assert (Ha : In (mkChild a sa) cs).
  { eapply Permutation_in; [exact P|]. apply in_or_app. right.
    eapply cast_all_In; eauto using lookup_keys. }
  assert (Hb : In (mkChild b sb) cs).
  { eapply Permutation_in; [exact P|]. apply in_or_app. right.
    eapply cast_all_In; eauto using lookup_keys. }
  apply (precedes_asym _ cs (mkChild a sa) (mkChild b sb) Nd).
  - now apply O.
  - now apply O.
Qed.

End KeysProps.

Section EmptyKeys.
Variable Raw : Type.
Variable Cast_schema : Raw -> Thrown + Schema.
Variable reach : Value -> list string -> Value.
Variable Joi_reach : ObjectSchema -> string -> option Schema.

(** [keys] with an empty field map declares that the schema has no key:
    the children it had are dropped and, unless undeclared keys are
    allowed, stripped or skipped, every key of a value is reported, under
    [abortEarly] as well. [append] with an empty or absent field map
    returns the schema as it is. *)
Theorem empty_field_map_forbids_every_key (this : ObjectSchema) (props : Props)
  (state : State) (o : Options) :
  renames this = [] -> patterns this = [] -> dependencies this = [] ->
  allows_unknown this o = false -> stripUnknown o = SU_unset -> skipFunctions o = false ->
  let this' := with_children this (Some []) in
  keys Cast_schema this (Some []) = inr this' /\
  _base reach Joi_reach this' (wrap this' props) state o
  = mkBase (wrap this' props)
      (match nodup string_dec (Obj.keys props) with
       | [] => None
       | ks => Some (map (unknown_error state o props) ks)
       end) /\
  append Cast_schema this (Some []) = inr this /\
  append Cast_schema this None = inr this.
Proof.
  intros R P D Al Su Sk this'. split; [reflexivity|]. split; [|split; reflexivity].
  rewrite (WalkFacts.base_accepts reach Joi_reach this' state o (wrap this' props) props eq_refl).
  unfold fast_path, walk, _rename, shapeless, validate_declared, validate_children,
    validate_patterns, validate_unknown, validate_dependencies.
  simpl. rewrite R, P, D. simpl. rewrite andb_false_r. simpl.
  unfold allows_unknown in Al. rewrite Su, Sk, Al. simpl.
  unfold finish. simpl.
  destruct (nodup string_dec (Obj.keys props)); reflexivity.
Qed.

End EmptyKeys.
(** *** The properties on sample inputs *)

Lemma keys_stay_distinct_witness :
  children a_then_b <> None /\
  NoDup (declared_keys a_then_b) /\
  forall k, In k (declared_keys a_then_b) <-> In k (declared_keys only_a) \/ In k ["b"].
Proof.
  apply (keys_stay_distinct Schema cast_id only_a a_then_b [("b", any)]);
    try reflexivity; try discriminate.
  - repeat constructor; simpl; tauto.
  - repeat constructor; simpl; tauto.
Defined.

Lemma keys_rejects_a_cycle_witness :
  exists e,
    keys cast_id object (Some [("a", referring ["b"]); ("b", referring ["a"])]) = inl e.
Proof.
  apply (keys_rejects_a_cycle Schema cast_id object
           [("a", referring ["b"]); ("b", referring ["a"])] "a" "b"
           (referring ["b"]) (referring ["a"]) (referring ["b"]) (referring ["a"]));
    try reflexivity.
  - repeat constructor; simpl; intuition discriminate.
  - constructor.
  - simpl. tauto.
  - simpl. tauto.
Defined.

Lemma empty_field_map_forbids_every_key_witness :
  let this' := with_children only_a (Some []) in
  keys cast_id only_a (Some []) = inr this' /\
  _base sample_reach no_labels this' (wrap this' a_and_c) root_state default_options
  = mkBase (wrap this' a_and_c)
      (match nodup string_dec (Obj.keys a_and_c) with
       | [] => None
       | ks => Some (map (unknown_error root_state default_options a_and_c) ks)
       end) /\
  append cast_id only_a (Some []) = inr only_a /\
  append cast_id only_a None = inr only_a.
Proof.
  apply (empty_field_map_forbids_every_key Schema cast_id sample_reach no_labels only_a
           a_and_c root_state default_options); reflexivity.
Defined.

End KeysProps.

(** ** The rules of the string type *)

Module StringProps.
Import StringType.

(** *** creditCard *)

Lemma to_number_digit (d : nat) : d < 10 -> to_number (digit_char d) = Some (Z.of_nat d).
Proof.
  intros H. do 10 (destruct d as [|d]; [vm_compute; reflexivity|]). lia.
Qed.

Lemma loop_NaN (chars : list ascii) : forall mul, creditCard_loop chars None mul = None.
Proof. induction chars as [|c chars IH]; simpl; auto. Qed.

Lemma loop_digits (ds : list nat) : forall s mul,
  Forall (fun d => d < 10) ds ->
  creditCard_loop (map digit_char ds) (Some s) mul = Some (s + luhn_sum ds mul)%Z.
Proof.
  induction ds as [|d ds IH]; intros s mul H; cbn [map creditCard_loop luhn_sum].
  - now rewrite Z.add_0_r.
  - inversion H as [|? ? Hd Hds]; subst. rewrite (to_number_digit d Hd).
    cbn [option_map]. rewrite IH by assumption. unfold luhn_digit. f_equal. lia.
Qed.

Lemma luhn_sum_split (a : list nat) : forall mul,
  mul = 1%Z \/ mul = 2%Z ->
  exists m, (m = 1%Z \/ m = 2%Z) /\
    forall d b, luhn_sum (a ++ d :: b) mul
                = (luhn_sum a mul + luhn_digit m d + luhn_sum b (Z.lxor m 3))%Z.
Proof.
  induction a as [|x a IH]; simpl; intros mul Hm.
  - exists mul. split; [exact Hm|]. intros d b. lia.
  - destruct (IH (Z.lxor mul 3)) as (m & Hm' & E).
    { destruct Hm as [->| ->]; [now right | now left]. }
    exists m. split; [exact Hm'|]. intros d b. rewrite E. lia.
Qed.

Lemma luhn_digit_range (m : Z) (d : nat) :
  m = 1%Z \/ m = 2%Z -> d < 10 -> (0 <= luhn_digit m d <= 9)%Z.
Proof.
  intros [-> | ->] H; unfold luhn_digit;
    match goal with |- context [Z.ltb 9 ?x] => destruct (Z.ltb_spec 9 x) end; lia.
Qed.

Lemma luhn_digit_inj (m : Z) (d d' : nat) :
  m = 1%Z \/ m = 2%Z -> d < 10 -> d' < 10 -> luhn_digit m d = luhn_digit m d' -> d = d'.
Proof.
  intros [-> | ->] H H'; unfold luhn_digit;
    repeat match goal with |- context [Z.ltb 9 ?x] => destruct (Z.ltb_spec 9 x) end; lia.
Qed.

Lemma creditCard_digits (ds : list nat) (state : State) (o : Options) :
  Forall (fun d => d < 10) ds ->
  forall v, rules_creditCard (digits ds) state o = inl v ->
  (luhn_sum (rev ds) 1 mod 10 = 0)%Z.
Proof.
  intros H v. unfold rules_creditCard, digits.
  rewrite list_ascii_of_string_of_list_ascii, <- map_rev.
  rewrite loop_digits by (apply Forall_rev; exact H). simpl.
  destruct (Z.ltb 0 _); simpl; [|discriminate].
  destruct (Z.eqb_spec (luhn_sum (rev ds) 1 mod 10) 0); [auto | discriminate].
Qed.

(** A number that passes [creditCard] fails once a single one of its
    digits is changed. *)
Theorem creditCard_detects_a_wrong_digit (l r : list nat) (d d' : nat)
  (state : State) (o : Options) (v : string) :
  Forall (fun x => x < 10) l -> Forall (fun x => x < 10) r -> d < 10 -> d' < 10 ->
  d <> d' ->
  rules_creditCard (digits (l ++ d :: r)) state o = inl v ->
  exists e, rules_creditCard (digits (l ++ d' :: r)) state o = inr e.
Proof.
  intros Hl Hr Hd Hd' N P.
  destruct (rules_creditCard (digits (l ++ d' :: r)) state o) as [v'|e] eqn:P'; [|eauto].
  exfalso.
  assert (F : forall x, x < 10 -> Forall (fun y => y < 10) (l ++ x :: r)).
  { intros x Hx. apply Forall_app. split; [exact Hl | now constructor]. }
  apply (creditCard_digits _ state o (F d Hd)) in P.
  apply (creditCard_digits _ state o (F d' Hd')) in P'.
  rewrite rev_app_distr in P, P'. simpl in P, P'. rewrite <- app_assoc in P, P'.
  simpl in P, P'.
  destruct (luhn_sum_split (rev r) 1%Z (or_introl eq_refl)) as (m & Hm & E).
  rewrite E in P, P'.
  pose proof (luhn_digit_range m d Hm Hd) as R.
  pose proof (luhn_digit_range m d' Hm Hd') as R'.
  apply N. apply (luhn_digit_inj m d d' Hm Hd Hd').
  set (X := luhn_sum (rev r) 1) in *. set (Y := luhn_sum (rev l) (Z.lxor m 3)) in *.
  set (g := luhn_digit m d) in *. set (g' := luhn_digit m d') in *.
  apply Z.mod_divide in P; [|lia]. apply Z.mod_divide in P'; [|lia].
  destruct P as [p P], P' as [p' P']. lia.
Qed.

(** [creditCard] fails on the empty string and on every string that
    holds a character other than a digit or white space. *)
Theorem creditCard_needs_digits (value : string) (state : State) (o : Options) :
  (value = "" -> exists e, rules_creditCard value state o = inr e) /\
  (forall c, In c (list_ascii_of_string value) -> to_number c = None ->
     exists e, rules_creditCard value state o = inr e).
Proof.
  split.
  - intros ->. unfold rules_creditCard. simpl. eauto.
  - intros c Hc Nc. unfold rules_creditCard.
    assert (L : forall chars s mul, In c chars -> creditCard_loop chars s mul = None).
    { induction chars as [|x chars IH]; simpl; intros s mul H; [contradiction|].
      destruct H as [->|H].
      - rewrite Nc. simpl. destruct s; apply loop_NaN.
      - now apply IH. }
    rewrite L by (apply in_rev; now rewrite rev_involutive). eauto.
Qed.

(** *** alphanum, token, hex *)

Lemma all_in_mono (c1 c2 : ascii -> bool) (value : string) :
  (forall c, c1 c = true -> c2 c = true) -> all_in c1 value = true -> all_in c2 value = true.
Proof.
  intros M. unfold all_in. rewrite !andb_true_iff, !forallb_forall.
  intros [N H]. split; [exact N|]. intros c Hc. apply M. now apply H.
Qed.

Lemma hex_class_alphanum (c : ascii) : hex_class c = true -> alphanum_class c = true.
Proof.
  unfold hex_class, alphanum_class, is_digit, between.
  rewrite !orb_true_iff, !andb_true_iff, !Nat.leb_le. lia.
Qed.

Lemma alphanum_class_word (c : ascii) : alphanum_class c = true -> word_class c = true.
Proof. unfold word_class. intros ->. reflexivity. Qed.

(** A value that passes [hex] passes [alphanum], one that passes
    [alphanum] passes [token], and none of the three accepts the empty
    string. *)
Theorem hex_within_alphanum_within_token (value : string) (byteAligned : bool)
  (state : State) (o : Options) :
  (forall v, rules_hex value byteAligned state o = inl v ->
     rules_alphanum value state o = inl value) /\
  (forall v, rules_alphanum value state o = inl v -> rules_token value state o = inl value) /\
  (forall v, rules_token value state o = inl v -> value <> "").
Proof.
  unfold rules_hex, rules_alphanum, rules_token. split; [|split].
  - intros v. destruct (all_in hex_class value) eqn:E; simpl; [|discriminate].
    intros _. now rewrite (all_in_mono hex_class alphanum_class value hex_class_alphanum E).
  - intros v. destruct (all_in alphanum_class value) eqn:E; [|discriminate].
    intros _. now rewrite (all_in_mono alphanum_class word_class value alphanum_class_word E).
  - intros v. destruct (all_in word_class value) eqn:E; [|discriminate].
    intros _ ->. discriminate.
Qed.

(** *** regex *)

Lemma named_kept (name : option string) :
  named (if named name then name else None) = named name.
Proof. destruct (named name) eqn:E; [exact E | reflexivity]. Qed.

(** [regex] refuses a pattern with the flag [g] or [y]; with [invert] the
    rule accepts exactly the values that the plain rule rejects, and
    reports the others under [string.regex.invert.name] or
    [string.regex.invert.base]. *)
Theorem regex_invert_flips (pattern : RegExp) (name : option string) :
  (has_flag (re_flags pattern) "g" = true \/ has_flag (re_flags pattern) "y" = true ->
   forall options, exists e, regex pattern options = inl e) /\
  (forall plain inverted,
     regex pattern RegexNoOptions = inr plain ->
     regex pattern (RegexObject true name) = inr inverted ->
     errorCode plain = "string.regex.base" /\
     errorCode inverted
     = ("string.regex.invert" ++ (if named name then ".name" else ".base"))%string /\
     forall value state o,
       (rules_regex value plain state o = inl value
        <-> exists e, rules_regex value inverted state o = inr e /\
                      code e = errorCode inverted)).
Proof.
  unfold regex. split.
  - intros H options.
    assert (E : has_flag (re_flags pattern) "g" || has_flag (re_flags pattern) "y" = true).
    { apply orb_true_iff. exact H. }
    rewrite E. eauto.
  - intros plain inverted.
    destruct (has_flag (re_flags pattern) "g" || has_flag (re_flags pattern) "y");
      [discriminate|].
    intros [= <-] [= <-]. cbn [errorCode patternObject po_invert po_name].
    rewrite named_kept. split; [reflexivity|]. split; [reflexivity|].
    intros value state o. unfold rules_regex. cbn [errorCode patternObject po_invert po_pattern].
    destruct (re_test pattern value); cbn [xorb].
    + split; [intros _; eexists; split; reflexivity | reflexivity].
    + split; [discriminate | intros (e & H & _); discriminate].
Qed.

(** *** hex after coercion *)

Section Coercion.
Variable Replacement : Type.
Variable String_normalize : string -> string -> string.
Variable toLocaleUpperCase toLocaleLowerCase String_trim : string -> string.
Variable String_replace : string -> Replacement -> string.
Variable isIsoDate : string -> bool.
Variable Date_toISOString : string -> option string.

Lemma even_after_padding (n : nat) : n mod 2 <> 0 -> S n mod 2 = 0.
Proof.
  intros H. pose proof (Nat.div_mod_eq n 2). pose proof (Nat.div_mod_eq (S n) 2).
  pose proof (Nat.mod_upper_bound n 2). pose proof (Nat.mod_upper_bound (S n) 2). lia.
Qed.

(** With the rule [hex({ byteAligned: true })] coercion pads a text of odd
    length with one leading [0]: what it returns has an even length, so
    that the rule never reports [string.hexAlign] on it, only
    [string.hex]. *)
Theorem coerced_hex_is_byte_aligned (this : StringSchema Replacement) (s : string)
  (state : State) (o : Options) :
  rule_hex this = Some true -> rule_isoDate this = false -> flag_truncate this = false ->
  exists t,
    _coerce String_normalize toLocaleUpperCase toLocaleLowerCase String_trim
            String_replace isIsoDate Date_toISOString this (VString s) state o
    = mkCoerce (VString t) None /\
    String.length t mod 2 = 0 /\
    forall e, rules_hex t true state o = inr e -> code e = "string.hex".
Proof.
  intros Hh Hd Ht. unfold _coerce. rewrite Hd, Ht. unfold coerce_text. rewrite Hh.
  match goal with |- context [Nat.eqb (String.length ?v mod 2) 0] => set (v0 := v) end.
  assert (P : forall t, String.length t mod 2 = 0 ->
            forall e, rules_hex t true state o = inr e -> code e = "string.hex").
  { intros t Et e. unfold rules_hex. rewrite Et. simpl.
    destruct (all_in hex_class t); simpl; [discriminate|]. now intros [= <-]. }
  destruct (Nat.eqb_spec (String.length v0 mod 2) 0) as [E|E]; simpl.
  - exists v0. split; [reflexivity|]. split; [exact E | now apply P].
  - exists (String "0" v0). split; [reflexivity|].
    assert (E' : String.length (String "0" v0) mod 2 = 0).
    { cbn [String.length]. now apply even_after_padding. }
    split; [exact E' | now apply P].
Qed.

End Coercion.

(** *** The properties on sample inputs *)

Lemma creditCard_detects_a_wrong_digit_witness :
  exists e,
    rules_creditCard (digits ([7; 9; 9; 2; 7; 3; 9; 8; 7; 1] ++ 4 :: [])) root_state
      default_options = inr e.
Proof.
  apply (creditCard_detects_a_wrong_digit [7; 9; 9; 2; 7; 3; 9; 8; 7; 1] [] 3 4
           root_state default_options "79927398713");
    [repeat constructor; lia | constructor | lia | lia | lia | vm_compute; reflexivity].
Defined.

Lemma coerced_hex_is_byte_aligned_witness :
  exists t,
    _coerce (fun s _ => s) (fun s => s) (fun s => s) (fun s => s)
            (fun s (_ : unit) => s) (fun _ => false) (fun _ => None)
            aligned_hex (VString "abc") root_state default_options
    = mkCoerce (VString t) None /\
    String.length t mod 2 = 0 /\
    forall e, rules_hex t true root_state default_options = inr e -> code e = "string.hex".
Proof.
  apply (coerced_hex_is_byte_aligned unit (fun s _ => s) (fun s => s) (fun s => s)
           (fun s => s) (fun s (_ : unit) => s) (fun _ => false) (fun _ => None)
           aligned_hex "abc" root_state default_options); reflexivity.
Defined.

End StringProps.
